(** * PredictGenie: the analysis pipeline, embedded and verified

    The development follows the TypeScript sources, in this order:
    - [Js]: the host operations the sources call (trimming and splitting
      of strings, numeric coercion, printing of numbers, [Math.round]);
    - [Regex]: the patterns of the sources and their matcher;
    - the records of [types.ts], one module each;
    - [MlMapper]: [services/mlMapper.ts];
    - [GeminiService]: the orchestration of [services/geminiService.ts];
    - [CsvExport]: [escapeCsvField] and [exportToCsv];
    - [InputForm]: [parseCsv] of the product input form;
    - [App]: [handleAnalysis] of [App.tsx];
    - [GeminiAnalysis] and [Suggestions]: what [performSingleAnalysis] and
      [suggestCompetitors] make of the answer of the model;
    - [Json] and [PriceService]: the values of [JSON.parse] and the two
      calls of [services/priceService.ts];
    - [CsvReports]: [exportCompetitorsToCsv] and [exportPriceHistoryToCsv];
    - [FormHandlers]: the handlers of the product input form;
    - [Chart]: the data of the price history chart;
    then the notions the statements use, and the properties.

    Strings are [string]s whose characters stand for the code units below
    256.  A finite IEEE-754 double is represented by the rational it
    denotes (the two zeros are identified); conversions from decimal text
    round to the nearest double, ties to even, and overflow to infinity.
    The collaborators behind the network (the AI analysis, the price
    prediction) are parameters: functions giving the outcome of a call. *)

From stdpp Require Import base list strings gmap.
From Stdlib Require Import Ascii ZArith QArith Qround.

Set Default Proof Using "Type".
Close Scope Q_scope.

(** ** Outcomes of fallible code *)

(** A JavaScript computation either returns a value or throws; the thrown
    value is an [Error] whose message is recorded. *)
Inductive result (A : Type) : Type :=
| Ok (a : A)
| Throw (message : string).
Arguments Ok {A} a.
Arguments Throw {A} message.

#[global] Instance result_ret : MRet result := λ A a, Ok a.
#[global] Instance result_bind : MBind result := λ A B k r,
  match r with
  | Ok a => k a
  | Throw e => Throw e
  end.

(** [if (!b) throw new Error(message)] *)
Definition throw_unless (b : bool) (message : string) : result () :=
  if b then Ok () else Throw message.

(** [Array.prototype.map] with a callback that may throw: the callback
    runs on the elements from left to right, with their indices, and the
    first exception aborts the whole map. *)
Fixpoint map_throwing {A B} (f : nat → A → result B) (i : nat) (l : list A)
  : result (list B) :=
  match l with
  | [] => Ok []
  | x :: l' =>
      match f i x with
      | Throw e => Throw e
      | Ok y =>
          match map_throwing f (S i) l' with
          | Throw e => Throw e
          | Ok ys => Ok (y :: ys)
          end
      end
  end.

(** ** Host operations *)

Module Js.
Local Open Scope Z_scope.

(** *** Characters *)

Definition comma : ascii := ","%char.
Definition semicolon : ascii := ";"%char.
Definition dquote : ascii := "034"%char.
Definition newline : ascii := "010"%char.
Definition creturn : ascii := "013"%char.

Definition chr (c : ascii) : string := String c EmptyString.

Definition is_digit (c : ascii) : bool :=
  let n := nat_of_ascii c in (48 <=? n)%nat && (n <=? 57)%nat.

(** White space and line terminators among the code units below 256:
    TAB, LF, VT, FF, CR, SPACE and NBSP. *)
Definition is_white (c : ascii) : bool :=
  let n := nat_of_ascii c in
  ((9 <=? n)%nat && (n <=? 13)%nat) || (n =? 32)%nat || (n =? 160)%nat.

(** *** Numbers *)

Inductive number : Type :=
| Fin (q : Q)
| NaN
| PosInf
| NegInf.

Definition zero : number := Fin 0%Q.

(** [Number.isFinite] on a number. *)
Definition number_isFinite (n : number) : bool :=
  match n with Fin _ => true | _ => false end.

(** [n < 0] *)
Definition number_ltz (n : number) : bool :=
  match n with
  | Fin q => Z.ltb (Qnum q) 0
  | NegInf => true
  | _ => false
  end.

(** [Math.round]: the nearest integer, ties towards plus infinity. *)
Definition Math_round (n : number) : number :=
  match n with
  | Fin q => Fin (inject_Z (Qfloor (q + (1 # 2))%Q))
  | _ => n
  end.

(** Rounding of a rational to binary64. *)
Definition round_half_even (n d : Z) : Z :=
  let q := n / d in
  let r := n mod d in
  if 2 * r <? d then q
  else if d <? 2 * r then q + 1
  else if Z.even q then q else q + 1.

(** [pow2_le e n d] decides [2^e <= n/d], for [0 < d]. *)
Definition pow2_le (e n d : Z) : bool :=
  if 0 <=? e then 2 ^ e * d <=? n else d <=? n * 2 ^ (- e).

(** The binary exponent of [n/d], for [0 < n] and [0 < d]. *)
Definition binade (n d : Z) : Z :=
  let e0 := Z.log2 n - Z.log2 d in
  if pow2_le e0 n d then e0 else e0 - 1.

Definition scale2 (m sh : Z) : Q :=
  if 0 <=? sh then inject_Z (m * 2 ^ sh) else Qred (m # Z.to_pos (2 ^ (- sh))).

Definition to_double (q : Q) : number :=
  let n := Z.abs (Qnum q) in
  let d := Zpos (Qden q) in
  if n =? 0 then zero
  else
    let e := Z.max (binade n d) (-1022) in
    let sh := e - 52 in
    let m := if 0 <=? sh then round_half_even n (d * 2 ^ sh)
             else round_half_even (n * 2 ^ (- sh)) d in
    if (1023 <? e) || ((e =? 1023) && (m =? 2 ^ 53))
    then (if 0 <? Qnum q then PosInf else NegInf)
    else Fin (scale2 (Z.sgn (Qnum q) * m) sh).

(** [m * 10^e] as a rational. *)
Definition scale10 (m e : Z) : Q :=
  if 0 <=? e then inject_Z (m * 10 ^ e) else Qred (m # Z.to_pos (10 ^ (- e))).

(** *** Strings *)

Fixpoint drop_white (s : string) : string :=
  match s with
  | String c s' => if is_white c then drop_white s' else s
  | EmptyString => EmptyString
  end.

(** [String.prototype.trim] *)
Definition trim (s : string) : string :=
  String.rev (drop_white (String.rev (drop_white s))).

Definition is_empty (s : string) : bool :=
  match s with EmptyString => true | _ => false end.

(** Prepends a character to the first piece of a split. *)
Definition cons_first (c : ascii) (pieces : list string) : list string :=
  match pieces with
  | [] => [chr c]
  | p :: ps => String c p :: ps
  end.

(** [s.split(sep)] for a separator of one character. *)
Fixpoint split (sep : ascii) (s : string) : list string :=
  match s with
  | EmptyString => [EmptyString]
  | String c s' =>
      if Ascii.eqb c sep then EmptyString :: split sep s'
      else cons_first c (split sep s')
  end.

(** [s.split(/\r?\n/)]: a line ends at LF or at CR immediately followed
    by LF; a CR on its own is an ordinary character. *)
Fixpoint split_lines (s : string) : list string :=
  match s with
  | EmptyString => [EmptyString]
  | String c s' =>
      if Ascii.eqb c newline then EmptyString :: split_lines s'
      else
        match s' with
        | String c' s'' =>
            if Ascii.eqb c creturn && Ascii.eqb c' newline
            then EmptyString :: split_lines s''
            else cons_first c (split_lines s')
        | EmptyString => cons_first c (split_lines s')
        end
  end.

(** [pieces.join(sep)] *)
Definition join (sep : string) (pieces : list string) : string :=
  String.concat sep pieces.

(** [hay.includes(needle)] *)
Fixpoint includes (needle hay : string) : bool :=
  match hay with
  | EmptyString => String.prefix needle EmptyString
  | String _ hay' => String.prefix needle hay || includes needle hay'
  end.

(** [array.includes(x)] on an array of strings. *)
Definition array_includes (x : string) (l : list string) : bool :=
  existsb (String.eqb x) l.

Definition lower (c : ascii) : ascii :=
  let n := nat_of_ascii c in
  if ((65 <=? n)%nat && (n <=? 90)%nat)
     || ((192 <=? n)%nat && (n <=? 222)%nat && negb (n =? 215)%nat)
  then ascii_of_nat (n + 32) else c.

(** [String.prototype.toLowerCase] *)
Fixpoint toLowerCase (s : string) : string :=
  match s with
  | EmptyString => EmptyString
  | String c s' => String (lower c) (toLowerCase s')
  end.

(** [s.replace(/c/g, by)]: every occurrence of the character is replaced. *)
Fixpoint replace_all (c : ascii) (by_ : string) (s : string) : string :=
  match s with
  | EmptyString => EmptyString
  | String x s' =>
      if Ascii.eqb x c then by_ +:+ replace_all c by_ s'
      else String x (replace_all c by_ s')
  end.

(** *** Numeric coercion of strings: [Number(s)] *)

(** The longest prefix of characters satisfying [p], and the rest. *)
Fixpoint span (p : ascii → bool) (s : string) : string * string :=
  match s with
  | String c s' =>
      if p c then let '(a, b) := span p s' in (String c a, b)
      else (EmptyString, s)
  | EmptyString => (EmptyString, EmptyString)
  end.

Definition digit_in_base (base : Z) (c : ascii) : option Z :=
  let n := Z.of_nat (nat_of_ascii c) in
  let v := if (48 <=? n) && (n <=? 57) then n - 48
           else if (97 <=? n) && (n <=? 102) then n - 87
           else if (65 <=? n) && (n <=? 70) then n - 55
           else 16 in
  if v <? base then Some v else None.

(** The value of a numeral in the given base; [None] when a character is
    not a digit of the base. *)
Fixpoint numeral (base : Z) (acc : Z) (s : string) : option Z :=
  match s with
  | EmptyString => Some acc
  | String c s' =>
      match digit_in_base base c with
      | Some v => numeral base (base * acc + v) s'
      | None => None
      end
  end.

Definition decimal_value (s : string) : Z := default 0 (numeral 10 0 s).

(** [0x..], [0o..] and [0b..] literals (no sign, at least one digit). *)
Definition non_decimal_literal (s : string) : option (option Z) :=
  match s with
  | String "0" (String k ds) =>
      let base :=
        if Ascii.eqb k "x" || Ascii.eqb k "X" then Some 16
        else if Ascii.eqb k "o" || Ascii.eqb k "O" then Some 8
        else if Ascii.eqb k "b" || Ascii.eqb k "B" then Some 2
        else None in
      match base with
      | Some b => Some (if is_empty ds then None else numeral b 0 ds)
      | None => None
      end
  | _ => None
  end.

(** The exponent part [e], [e+] or [e-] followed by digits; [Some 0] on
    the empty string. *)
Definition exponent_part (s : string) : option Z :=
  match s with
  | EmptyString => Some 0
  | String e s' =>
      if Ascii.eqb e "e" || Ascii.eqb e "E" then
        let '(neg, ds) :=
          match s' with
          | String "+" r => (false, r)
          | String "-" r => (true, r)
          | _ => (false, s')
          end in
        if is_empty ds then None
        else match numeral 10 0 ds with
             | Some v => Some (if neg then - v else v)
             | None => None
             end
      else None
  end.

(** An unsigned decimal literal: digits, an optional fraction, an
    optional exponent; digits are required before or after the point. *)
Definition unsigned_decimal (s : string) : option Q :=
  let '(ip, r1) := span is_digit s in
  let '(fp, r2) :=
    match r1 with
    | String "." r => span is_digit r
    | _ => (EmptyString, r1)
    end in
  if is_empty ip && is_empty fp then None
  else
    match exponent_part r2 with
    | Some e =>
        Some (scale10 (decimal_value (ip +:+ fp)) (e - Z.of_nat (String.length fp)))
    | None => None
    end.

Definition signed (neg : bool) (n : number) : number :=
  if neg then
    match n with
    | Fin q => Fin (Qred (- q))
    | PosInf => NegInf
    | NegInf => PosInf
    | NaN => NaN
    end
  else n.

Definition decimal_literal (s : string) : number :=
  let '(neg, body) :=
    match s with
    | String "+" r => (false, r)
    | String "-" r => (true, r)
    | _ => (false, s)
    end in
  if String.eqb body "Infinity" then signed neg PosInf
  else match unsigned_decimal body with
       | Some q => signed neg (to_double q)
       | None => NaN
       end.

(** [Number(s)] for a string [s]. *)
Definition Number_of_string (s : string) : number :=
  let t := trim s in
  if is_empty t then zero
  else match non_decimal_literal t with
       | Some (Some v) => to_double (inject_Z v)
       | Some None => NaN
       | None => decimal_literal t
       end.

(** *** Printing of numbers: [String(n)] *)

Definition digit_char (d : Z) : ascii := ascii_of_nat (48 + Z.to_nat d).

(** The decimal digits of [z] in front of [acc]; the fuel bounds their
    number. *)
Fixpoint decimal_digits (fuel : nat) (z : Z) (acc : string) : string :=
  match fuel with
  | O => acc
  | S fuel' =>
      let acc' := String (digit_char (z mod 10)) acc in
      if z / 10 =? 0 then acc' else decimal_digits fuel' (z / 10) acc'
  end.

(** The decimal numeral of a non-negative integer. *)
Definition decimal (z : Z) : string :=
  decimal_digits (S (Z.to_nat (Z.log2 z))) z EmptyString.

(** [String(n)] for a natural number. *)
Definition nat_to_string (n : nat) : string := decimal (Z.of_nat n).

(** [pow10_le n a b] decides [10^n <= a/b], for [0 < b]. *)
Definition pow10_le (n a b : Z) : bool :=
  if 0 <=? n then 10 ^ n * b <=? a else b <=? a * 10 ^ (- n).

(** The [n] with [10^(n-1) <= a/b < 10^n], for [0 < a] and [0 < b]. *)
Definition decimal_exponent (a b : Z) : Z :=
  let est := (Z.log2 a - Z.log2 b) * 30103 / 100000 in
  let fits := filter (λ f, pow10_le f a b = true)
                     [est + 2; est + 1; est; est - 1; est - 2] in
  default (est - 2) (head fits) + 1.

Definition same_number (x y : number) : bool :=
  match x, y with
  | Fin p, Fin q => Qeq_bool p q
  | NaN, NaN | PosInf, PosInf | NegInf, NegInf => true
  | _, _ => false
  end.

(** [v / 10^(n-k)] as a fraction of integers. *)
Definition shifted (v : Q) (n k : Z) : Z * Z :=
  if 0 <=? n - k then (Qnum v, Zpos (Qden v) * 10 ^ (n - k))
  else (Qnum v * 10 ^ (k - n), Zpos (Qden v)).

(** The [k]-digit numeral [s] with [s * 10^(n-k)] reading back as [v],
    closest to [v] when there are two. *)
Definition digits_of_length (v : Q) (n k : Z) : option Z :=
  let '(num, den) := shifted v n k in
  let lo := num / den in
  let hi := lo + 1 in
  let reads_back s := same_number (to_double (scale10 s (n - k))) (Fin v) in
  match reads_back lo, reads_back hi with
  | true, true =>
      let dlo := num - lo * den in
      let dhi := hi * den - num in
      Some (if dlo <? dhi then lo
            else if dhi <? dlo then hi
            else if Z.even lo then lo else hi)
  | true, false => Some lo
  | false, true => Some hi
  | false, false => None
  end.

(** The shortest numeral that reads back as [v]: its digits [s], their
    number [k] and the decimal exponent [n].  Seventeen digits always
    suffice for a double. *)
Fixpoint shortest_digits (v : Q) (n k : Z) (fuel : nat) : Z * Z * Z :=
  match fuel with
  | O => let '(num, den) := shifted v n k in (num / den, k, n)
  | S fuel' =>
      match digits_of_length v n k with
      | Some s => if s =? 10 ^ k then (1, 1, n + 1) else (s, k, n)
      | None => shortest_digits v n (k + 1) fuel'
      end
  end.

Definition zeros (n : Z) : string :=
  String.string_of_list_ascii (replicate (Z.to_nat n) "0"%char).

Definition positive_to_string (v : Q) : string :=
  let '(s, k, n) :=
    shortest_digits v (decimal_exponent (Qnum v) (Zpos (Qden v))) 1 17 in
  let ds := decimal s in
  if (k <=? n) && (n <=? 21) then ds +:+ zeros (n - k)
  else if (0 <? n) && (n <=? 21) then
    String.substring 0 (Z.to_nat n) ds +:+ "." +:+
    String.substring (Z.to_nat n) (Z.to_nat (k - n)) ds
  else if (-6 <? n) && (n <=? 0) then "0." +:+ zeros (- n) +:+ ds
  else
    let e := n - 1 in
    let exponent := (if e <? 0 then "e-" else "e+") +:+ decimal (Z.abs e) in
    if k =? 1 then ds +:+ exponent
    else String.substring 0 1 ds +:+ "." +:+
         String.substring 1 (Z.to_nat (k - 1)) ds +:+ exponent.

(** [String(n)] for a number. *)
Definition number_to_string (n : number) : string :=
  match n with
  | NaN => "NaN"
  | PosInf => "Infinity"
  | NegInf => "-Infinity"
  | Fin q =>
      match to_double q with
      | Fin v =>
          if Qnum v =? 0 then "0"
          else if Qnum v <? 0 then "-" +:+ positive_to_string (Qred (- v))
          else positive_to_string v
      | PosInf => "Infinity"
      | NegInf => "-Infinity"
      | NaN => "NaN"
      end
  end.

(** *** Values *)

(** The values that reach the code from parsed JSON and from the form. *)
Inductive value : Type :=
| VUndefined
| VNull
| VBool (b : bool)
| VNum (n : number)
| VStr (s : string).

(** [String(v)] *)
Definition to_string (v : value) : string :=
  match v with
  | VUndefined => "undefined"
  | VNull => "null"
  | VBool true => "true"
  | VBool false => "false"
  | VNum n => number_to_string n
  | VStr s => s
  end.

(** [Number(v)] *)
Definition Number (v : value) : number :=
  match v with
  | VUndefined => NaN
  | VNull => zero
  | VBool true => Fin 1%Q
  | VBool false => zero
  | VNum n => n
  | VStr s => Number_of_string s
  end.

(** [Number.isFinite(v)]: no coercion, only numbers qualify. *)
Definition Number_isFinite (v : value) : bool :=
  match v with
  | VNum n => number_isFinite n
  | _ => false
  end.

End Js.

(** ** Regular expressions

    The patterns of the sources, anchored at both ends, with a matcher by
    derivatives. *)

Module Regex.

Inductive re : Type :=
| Void
| Eps
| Class (p : ascii → bool)
| Seq (r1 r2 : re)
| Alt (r1 r2 : re)
| Star (r : re).

Definition Chr (c : ascii) : re := Class (Ascii.eqb c).
Definition Opt (r : re) : re := Alt r Eps.
Definition Plus (r : re) : re := Seq r (Star r).

Fixpoint nullable (r : re) : bool :=
  match r with
  | Void => false
  | Eps => true
  | Class _ => false
  | Seq r1 r2 => nullable r1 && nullable r2
  | Alt r1 r2 => nullable r1 || nullable r2
  | Star _ => true
  end.

Fixpoint deriv (c : ascii) (r : re) : re :=
  match r with
  | Void => Void
  | Eps => Void
  | Class p => if p c then Eps else Void
  | Seq r1 r2 =>
      if nullable r1 then Alt (Seq (deriv c r1) r2) (deriv c r2)
      else Seq (deriv c r1) r2
  | Alt r1 r2 => Alt (deriv c r1) (deriv c r2)
  | Star r1 => Seq (deriv c r1) (Star r1)
  end.

(** [/^r$/.test(s)] *)
Fixpoint test (r : re) (s : string) : bool :=
  match s with
  | EmptyString => nullable r
  | String c s' => test (deriv c r) s'
  end.

(** The words of a pattern. *)
Inductive Matches : re → string → Prop :=
| M_eps : Matches Eps EmptyString
| M_class p c : p c = true → Matches (Class p) (String c EmptyString)
| M_seq r1 r2 s1 s2 :
    Matches r1 s1 → Matches r2 s2 → Matches (Seq r1 r2) (s1 +:+ s2)
| M_alt_l r1 r2 s : Matches r1 s → Matches (Alt r1 r2) s
| M_alt_r r1 r2 s : Matches r2 s → Matches (Alt r1 r2) s
| M_star_nil r : Matches (Star r) EmptyString
| M_star_cons r s1 s2 :
    Matches r s1 → Matches (Star r) s2 → Matches (Star r) (s1 +:+ s2).

End Regex.

(** ** The records of [types.ts] *)

Inductive StockStatus : Type := InStock | LowStock | OutOfStock.
Inductive PriceTrend : Type := TrendUp | TrendDown | TrendStable.

Definition StockStatus_string (s : StockStatus) : string :=
  match s with
  | InStock => "In Stock"
  | LowStock => "Low Stock"
  | OutOfStock => "Out of Stock"
  end.

Definition PriceTrend_string (t : PriceTrend) : string :=
  match t with
  | TrendUp => "up"
  | TrendDown => "down"
  | TrendStable => "stable"
  end.

Module HistoricalPricePoint.
Record t : Type := mk {
  date : string;
  price : Js.number;
}.
End HistoricalPricePoint.

(** The objects come from [JSON.parse] cast to the declared type, and the
    mapper reads [price] and [currentPrice] as values of any type; these
    two fields are kept as [Js.value]. *)
Module Competitor.
Record t : Type := mk {
  url : string;
  productName : string;
  price : Js.value;
  originalPrice : option Js.number;
  discountPercentage : option Js.number;
  stockStatus : StockStatus;
  priceTrend : PriceTrend;
  historicalPrices : option (list HistoricalPricePoint.t);
}.
End Competitor.

Module UserProduct.
Record t : Type := mk {
  url : option string;
  productName : string;
  currentPrice : Js.value;
  originalPrice : option Js.number;
  discountPercentage : option Js.number;
  historicalPrices : option (list HistoricalPricePoint.t);
}.
End UserProduct.

Module Source.
Record t : Type := mk {
  uri : string;
  title : string;
}.
End Source.

(** [competitors] is [None] when the parsed object has no such array; the
    sources guard for it with [??] and [?.]. *)
Module ProductAnalysis.
Record t : Type := mk {
  userProduct : UserProduct.t;
  competitors : option (list Competitor.t);
  suggestedPrice : Js.number;
  reasoning : string;
  marketSummary : string;
  historicalPriceAnalysis : string;
  sources : option (list Source.t);
}.

(** [a.suggestedPrice = p] *)
Definition set_suggestedPrice (p : Js.number) (a : t) : t :=
  mk (userProduct a) (competitors a) p (reasoning a) (marketSummary a)
     (historicalPriceAnalysis a) (sources a).
End ProductAnalysis.

Abbreviation AnalysisResult := (list ProductAnalysis.t).

Module CsvProduct.
Record t : Type := mk {
  productName : string;
  currentPrice : Js.number;
  userProductUrl : string;
  competitorUrls : list string;
}.
End CsvProduct.

Module PredictPayload.
Record t : Type := mk {
  current_price : Js.number;
  competitor_prices : list Js.number;
  category : string;
}.
End PredictPayload.

(** ** [services/mlMapper.ts] *)

Module MlMapper.
Import Js.

Definition inferCategory (name : string) : string :=
  let n := toLowerCase name in
  if includes "shoe" n || includes "sneaker" n then "footwear"
  else if includes "phone" n || includes "mobile" n then "electronics"
  else if includes "shirt" n || includes "t-shirt" n then "apparel"
  else "general".

(** [/^-?\d+(\.\d+)?$/] *)
Definition strict_number : Regex.re :=
  Regex.Seq (Regex.Opt (Regex.Chr "-"))
    (Regex.Seq (Regex.Plus (Regex.Class is_digit))
       (Regex.Opt (Regex.Seq (Regex.Chr ".") (Regex.Plus (Regex.Class is_digit))))).

(** [None] is the [null] of the source. *)
Definition parseStrictNumber (v : value) : option number :=
  match v with
  | VNum n => if number_isFinite n then Some n else None
  | VStr s =>
      let trimmed := trim s in
      if Regex.test strict_number trimmed then Some (Number_of_string trimmed)
      else None
  | _ => None
  end.

(** [xs.filter(v => v !== null)] *)
Definition filter_non_null {A} (xs : list (option A)) : list A := omap id xs.

Definition analysisToPredictPayload (a : ProductAnalysis.t) : PredictPayload.t :=
  let competitors :=
    filter_non_null
      ((λ c, parseStrictNumber (Competitor.price c))
         <$> default [] (ProductAnalysis.competitors a)) in
  let userPrice :=
    parseStrictNumber (UserProduct.currentPrice (ProductAnalysis.userProduct a)) in
  {| PredictPayload.current_price := default zero userPrice;
     PredictPayload.competitor_prices :=
       if (0 <? length competitors)%nat then competitors
       else [default zero userPrice];
     PredictPayload.category :=
       inferCategory (UserProduct.productName (ProductAnalysis.userProduct a)) |}.

Definition analysesToPredictPayloads (analyses : list ProductAnalysis.t)
  : list PredictPayload.t :=
  analysisToPredictPayload <$> analyses.

End MlMapper.

(** ** [services/geminiService.ts]: batch orchestration *)

Module GeminiService.
Import Js.

Inductive UserIdentifier : Type :=
| ByUrl (url : string)
| ByName (name : string) (price : number).

(** The outcome of a promise after [Promise.allSettled]. *)
Inductive settled (A : Type) : Type :=
| Fulfilled (value : A)
| Rejected (reason : string).
Arguments Fulfilled {A} value.
Arguments Rejected {A} reason.

Definition allSettled {A} (promises : list (result A)) : list (settled A) :=
  (λ p, match p with Ok v => Fulfilled v | Throw e => Rejected e end) <$> promises.

(** [xs[i]] read for a property: a [TypeError] when out of range. *)
Definition array_get {A} (xs : list A) (i : nat) : result A :=
  match xs !! i with
  | Some x => Ok x
  | None => Throw "TypeError: Cannot read properties of undefined"
  end.

Definition all_failed_message (failedAnalyses : list string) : string :=
  "All product analyses failed. The following products could not be analyzed: "
  +:+ join ", " failedAnalyses
  +:+ ". Please check the console for more details.".

Section Collaborator.

(** The AI collaborator is opaque: [performSingleAnalysis i id urls] is the
    outcome of the call number [i] of a run, which resolves to an analysis
    or rejects with an error. *)
Variable performSingleAnalysis :
  nat → UserIdentifier → list string → result ProductAnalysis.t.

Definition analyzeSingleProduct (userProductUrl : string)
    (competitorUrls : list string) : result ProductAnalysis.t :=
  if is_empty userProductUrl
  then Throw "User product URL is required for single product analysis."
  else performSingleAnalysis 0 (ByUrl userProductUrl) competitorUrls.

Definition userIdentifier (product : CsvProduct.t) : UserIdentifier :=
  if is_empty (CsvProduct.userProductUrl product)
  then ByName (CsvProduct.productName product) (CsvProduct.currentPrice product)
  else ByUrl (CsvProduct.userProductUrl product).

(** The body of [results.forEach]: the two arrays being filled are the
    state; reading [products[index].productName] may throw. *)
Definition record_outcome (products : list CsvProduct.t)
    (acc : result (list ProductAnalysis.t * list string))
    (entry : nat * settled ProductAnalysis.t)
  : result (list ProductAnalysis.t * list string) :=
  '(successfulAnalyses, failedAnalyses) ← acc;
  match entry.2 with
  | Fulfilled v => Ok (successfulAnalyses ++ [v], failedAnalyses)
  | Rejected _ =>
      product ← array_get products entry.1;
      Ok (successfulAnalyses, failedAnalyses ++ [CsvProduct.productName product])
  end.

Definition analyzeBatchProducts (products : list CsvProduct.t)
  : result AnalysisResult :=
  let analysisPromises :=
    imap (λ i product,
            performSingleAnalysis i (userIdentifier product)
              (CsvProduct.competitorUrls product)) products in
  let results := allSettled analysisPromises in
  '(successfulAnalyses, failedAnalyses) ←
    foldl (record_outcome products) (Ok ([], [])) (imap pair results);
  if (length successfulAnalyses =? 0)%nat && (0 <? length results)%nat
  then Throw (all_failed_message failedAnalyses)
  else Ok successfulAnalyses.

End Collaborator.
End GeminiService.

(** ** The CSV exporters *)

Module CsvExport.
Import Js.

Definition escapeCsvField (field : value) : string :=
  match field with
  | VNull | VUndefined => EmptyString
  | _ =>
      let stringField := to_string field in
      if includes (chr comma) stringField
         || includes (chr dquote) stringField
         || includes (chr newline) stringField
      then
        let escapedField :=
          replace_all dquote (String dquote (chr dquote)) stringField in
        chr dquote +:+ escapedField +:+ chr dquote
      else stringField
  end.

(** [analysis.competitors?.length || 0] *)
Definition competitorCount (analysis : ProductAnalysis.t) : nat :=
  match ProductAnalysis.competitors analysis with
  | Some cs => length cs
  | None => 0
  end.

(** [Math.max(0, ...data.map(...))] *)
Definition maxCompetitors (data : AnalysisResult) : nat :=
  max_list (competitorCount <$> data).

Definition baseHeaders : list string :=
  [ "Product Name"; "Current Price"; "Suggested Price"; "Market Summary";
    "Historical Price Analysis"; "Reasoning" ].

(** The four headers pushed by one round of the header loop. *)
Definition competitorHeaderGroup (i : nat) : list string :=
  [ "Competitor " +:+ nat_to_string i +:+ " Name";
    "Competitor " +:+ nat_to_string i +:+ " Price";
    "Competitor " +:+ nat_to_string i +:+ " Stock Status";
    "Competitor " +:+ nat_to_string i +:+ " Price Trend" ].

Definition competitorHeaders (maxCompetitors : nat) : list string :=
  mjoin (competitorHeaderGroup <$> seq 1 maxCompetitors).

Definition headers (maxCompetitors : nat) : list string :=
  baseHeaders ++ competitorHeaders maxCompetitors.

Definition baseRow (analysis : ProductAnalysis.t) : list string :=
  let userProduct := ProductAnalysis.userProduct analysis in
  [ escapeCsvField (VStr (UserProduct.productName userProduct));
    escapeCsvField (UserProduct.currentPrice userProduct);
    escapeCsvField (VNum (ProductAnalysis.suggestedPrice analysis));
    escapeCsvField (VStr (ProductAnalysis.marketSummary analysis));
    escapeCsvField (VStr (ProductAnalysis.historicalPriceAnalysis analysis));
    escapeCsvField (VStr (ProductAnalysis.reasoning analysis)) ].

(** The four fields pushed by round [i] of the row loop;
    [competitors?.[i]] is [undefined] past the end of the array. *)
Definition competitorRowGroup (competitors : option (list Competitor.t))
    (i : nat) : list string :=
  match competitors ≫= (λ cs, cs !! i) with
  | Some competitor =>
      [ escapeCsvField (VStr (Competitor.productName competitor));
        escapeCsvField (Competitor.price competitor);
        escapeCsvField (VStr (StockStatus_string (Competitor.stockStatus competitor)));
        escapeCsvField (VStr (PriceTrend_string (Competitor.priceTrend competitor))) ]
  | None => [ EmptyString; EmptyString; EmptyString; EmptyString ]
  end.

Definition competitorRowData (maxCompetitors : nat)
    (analysis : ProductAnalysis.t) : list string :=
  mjoin (competitorRowGroup (ProductAnalysis.competitors analysis)
           <$> seq 0 maxCompetitors).

(** The fields of a row, before they are joined. *)
Definition rowFields (maxCompetitors : nat) (analysis : ProductAnalysis.t)
  : list string :=
  baseRow analysis ++ competitorRowData maxCompetitors analysis.

(** The text handed to the download, or [None] when there is nothing to
    export (a warning is logged and nothing happens). *)
Definition exportToCsv (data : AnalysisResult) : option string :=
  match data with
  | [] => None
  | _ =>
      let maxCompetitors := maxCompetitors data in
      let rows :=
        (λ analysis, join (chr comma) (rowFields maxCompetitors analysis))
          <$> data in
      Some (join (chr newline) (join (chr comma) (headers maxCompetitors) :: rows))
  end.

End CsvExport.

(** ** [parseCsv] of the product input form *)

Module InputForm.
Import Js.

Definition quoted (s : string) : string := chr dquote +:+ s +:+ chr dquote.

Definition on_row (rowNum : nat) (what : string) : string :=
  "CSV parsing failed on row " +:+ nat_to_string rowNum +:+ ": " +:+ what.

Definition empty_file_message : string :=
  "CSV parsing failed: The file is empty or contains only a header row.".

Definition missing_column_message (required : string) : string :=
  "CSV parsing failed: The header is missing the required column "
  +:+ quoted required +:+ ".".

Definition column_count_message (rowNum expected found : nat) : string :=
  on_row rowNum
    ("Incorrect number of columns. Expected " +:+ nat_to_string expected
     +:+ ", but found " +:+ nat_to_string found
     +:+ ". Please check for extra commas.").

Definition empty_name_message (rowNum : nat) : string :=
  on_row rowNum "The 'productName' column cannot be empty.".

Definition empty_price_message (rowNum : nat) : string :=
  on_row rowNum "The 'currentPrice' column cannot be empty.".

Definition not_a_number_message (rowNum : nat) (currentPriceStr : string) : string :=
  on_row rowNum
    ("The value " +:+ quoted currentPriceStr
     +:+ " in 'currentPrice' is not a valid number.").

Definition negative_price_message (rowNum : nat) (currentPriceStr : string) : string :=
  on_row rowNum
    ("The price " +:+ quoted currentPriceStr +:+ " cannot be negative.").

Definition requiredHeaders : list string := ["productName"; "currentPrice"].

(** The [for] loop over [requiredHeaders]. *)
Fixpoint check_required (header required : list string) : result () :=
  match required with
  | [] => Ok ()
  | r :: required' =>
      throw_unless (array_includes r header) (missing_column_message r);;
      check_required header required'
  end.

(** [header.reduce(...)]: the object filled column by column; a later
    column of the same name overwrites an earlier one. *)
Definition productData (header values : list string) : gmap string string :=
  foldl (λ obj entry,
           <[ entry.2 :=
                match values !! entry.1 with
                | Some v => if is_empty v then EmptyString else trim v
                | None => EmptyString
                end ]> obj)
        ∅ (imap pair header).

(** The callback of [rows.map]. *)
Definition parseRow (header : list string) (index : nat) (row : string)
  : result CsvProduct.t :=
  let rowNum := index + 2 in
  let values := split comma row in
  throw_unless (length values =? length header)%nat
    (column_count_message rowNum (length header) (length values));;
  let productData := productData header values in
  let productName := productData !! "productName" in
  let currentPriceStr := productData !! "currentPrice" in
  match productName with
  | None | Some EmptyString => Throw (empty_name_message rowNum)
  | Some productName =>
      match currentPriceStr with
      | None | Some EmptyString => Throw (empty_price_message rowNum)
      | Some currentPriceStr =>
          let priceAsNumber := Number_of_string currentPriceStr in
          throw_unless (number_isFinite priceAsNumber)
            (not_a_number_message rowNum currentPriceStr);;
          throw_unless (negb (number_ltz priceAsNumber))
            (negative_price_message rowNum currentPriceStr);;
          Ok {| CsvProduct.productName := productName;
                CsvProduct.currentPrice := priceAsNumber;
                CsvProduct.userProductUrl :=
                  default EmptyString (productData !! "userProductUrl");
                CsvProduct.competitorUrls :=
                  match productData !! "competitorUrls" with
                  | None | Some EmptyString => []
                  | Some urls =>
                      filter (λ u, is_empty u = false)
                             (trim <$> split semicolon urls)
                  end |}
      end
  end.

Definition nonblank (line : string) : bool := negb (is_empty (trim line)).

Definition parseCsv (text : string) : result (list CsvProduct.t) :=
  let lines := filter (λ line, nonblank line = true) (split_lines text) in
  throw_unless (2 <=? length lines)%nat empty_file_message;;
  let header := trim <$> split comma (default EmptyString (head lines)) in
  check_required header requiredHeaders;;
  let rows := drop 1 lines in
  map_throwing (parseRow header) 0 rows.

End InputForm.

(** ** [App.tsx]: [handleAnalysis] *)

Module App.
Import Js.

Inductive Input : Type :=
| InputUrl (userProductUrl : string) (competitorUrls : list string)
| InputCsv (products : list CsvProduct.t).

Inductive Status : Type := idle | loading | success | error.

Record AppState : Type := mkState {
  status : Status;
  data : option AnalysisResult;
  error_message : option string;
}.

Definition succeeded (result : AnalysisResult) : AppState :=
  mkState success (Some result) None.

Definition failed (errorMessage : string) : AppState :=
  mkState error None (Some errorMessage).

(** The body of [preds.forEach] over the array [analyses], which it
    updates in place: the array after the loop, and whether the loop
    completed or threw (at [analyses[i]] read past the end). *)
Fixpoint apply_predictions (preds : list value) (i : nat)
    (analyses : list ProductAnalysis.t)
  : list ProductAnalysis.t * result () :=
  match preds with
  | [] => (analyses, Ok ())
  | p :: preds' =>
      if Number_isFinite p then
        match analyses !! i with
        | Some a =>
            apply_predictions preds' (S i)
              (<[ i := ProductAnalysis.set_suggestedPrice
                         (Math_round (Number p)) a ]> analyses)
        | None =>
            (analyses, Throw "TypeError: Cannot set properties of undefined")
        end
      else apply_predictions preds' (S i) analyses
  end.

Section Collaborators.

(** The AI collaborator, as in [GeminiService]. *)
Variable performSingleAnalysis :
  nat → GeminiService.UserIdentifier → list string → result ProductAnalysis.t.

(** The prediction collaborator ([services/priceService]).  [predictPrice]
    resolves to a number, the numeric coercion of what the response
    holds, or rejects.  [predictBatch] resolves to whatever the response
    holds under [predicted_prices]: an array of values, or [None] for
    anything that is not an array; or it rejects. *)
Variable predictPrice : PredictPayload.t → result number.
Variable predictBatch : list PredictPayload.t → result (option (list value)).

(** Step 2 of the single mode: the [try] block and its [catch], which
    only logs. *)
Definition refine_single (singleResult : ProductAnalysis.t) : ProductAnalysis.t :=
  let payload := MlMapper.analysisToPredictPayload singleResult in
  match predictPrice payload with
  | Ok predicted =>
      if Number_isFinite (VNum predicted)
      then ProductAnalysis.set_suggestedPrice
             (Math_round (Number (VNum predicted))) singleResult
      else singleResult
  | Throw _ => singleResult
  end.

(** Step 2 of the batch mode: whatever the loop wrote before an exception
    stays written; the [catch] only logs. *)
Definition refine_batch (analyses : list ProductAnalysis.t)
  : list ProductAnalysis.t :=
  let payloads := MlMapper.analysesToPredictPayloads analyses in
  match predictBatch payloads with
  | Ok (Some preds) => (apply_predictions preds 0 analyses).1
  | Ok None => analyses
  | Throw _ => analyses
  end.

(** The state set last by [handleAnalysis]. *)
Definition handleAnalysis (input : Input) : AppState :=
  match input with
  | InputUrl userProductUrl competitorUrls =>
      match GeminiService.analyzeSingleProduct performSingleAnalysis
              userProductUrl competitorUrls with
      | Ok singleResult => succeeded [refine_single singleResult]
      | Throw errorMessage => failed errorMessage
      end
  | InputCsv products =>
      match GeminiService.analyzeBatchProducts performSingleAnalysis products with
      | Ok analyses => succeeded (refine_batch analyses)
      | Throw errorMessage => failed errorMessage
      end
  end.

End Collaborators.
End App.

(** ** [services/geminiService.ts]: the answer of the model *)

Module GeminiAnalysis.
Import Js GeminiService.

(** [s] without its prefix [p], when it starts with [p]. *)
Fixpoint strip_prefix (p s : string) : option string :=
  match p, s with
  | EmptyString, _ => Some s
  | String a p', String b s' => if Ascii.eqb a b then strip_prefix p' s' else None
  | String _ _, EmptyString => None
  end.

(** The first occurrence of [needle] in [hay]: the text before it and the
    text after it. *)
Fixpoint cut (needle hay : string) : option (string * string) :=
  match strip_prefix needle hay with
  | Some after => Some (EmptyString, after)
  | None =>
      match hay with
      | EmptyString => None
      | String c hay' =>
          match cut needle hay' with
          | Some (before, after) => Some (String c before, after)
          | None => None
          end
      end
  end.

Definition fence_open : string := "```json" +:+ chr newline.
Definition fence_close : string := chr newline +:+ "```".

(** The group captured by [text.match(/```json\n([\s\S]*?)\n```/)]: the
    match starts at the first opening fence that has a closing fence after
    it, and the lazy group ends at the first closing fence.  When the first
    opening fence has no closing fence after it, no later one has. *)
Definition fenced (text : string) : option string :=
  '(_, rest) ← cut fence_open text;
  '(body, _) ← cut fence_close rest;
  Some body.

(** An empty group is falsy, like no match at all. *)
Definition cleanJsonFromResponse (text : string) : string :=
  match fenced text with
  | Some body => if is_empty body then trim text else body
  | None => trim text
  end.

(** The prompt is a fixed text with two holes; these are their fillings. *)
Definition userProductPrompt (userProductIdentifier : UserIdentifier) : string :=
  match userProductIdentifier with
  | ByUrl url =>
      if is_empty url then EmptyString else "User's Product URL: " +:+ url
  | ByName name price =>
      "User's Product Name: " +:+ InputForm.quoted name
      +:+ ", Current Price: " +:+ number_to_string price +:+ " INR."
  end.

Definition competitorsPrompt (competitorUrls : list string) : string :=
  if (0 <? length competitorUrls)%nat
  then "Analyze the provided competitor URLs: " +:+ join ", " competitorUrls
  else "The user has not provided competitor URLs. You MUST use Google Search to find 2-3 of the most relevant e-commerce product pages for direct competitors to the user's product. Prioritize well-known retailers and direct product matches.".

(** What a [catch] clause receives: an [Error] with its message, or a
    value that is no [Error]. *)
Inductive exception : Type :=
| AnError (message : string)
| NotAnError.

(** A computation that returns, or throws any value. *)
Inductive attempt (A : Type) : Type :=
| Return (a : A)
| Raise (e : exception).
Arguments Return {A} a.
Arguments Raise {A} e.

#[global] Instance attempt_ret : MRet attempt := λ A a, Return a.
#[global] Instance attempt_bind : MBind attempt := λ A B k r,
  match r with
  | Return a => k a
  | Raise e => Raise e
  end.

(** Code that throws [Error]s only. *)
Definition of_result {A} (r : result A) : attempt A :=
  match r with
  | Ok a => Return a
  | Throw message => Raise (AnError message)
  end.

(** A value that the code takes for an [A] without a check: an object,
    read as an [A], or a value that is no object. *)
Inductive any (A : Type) : Type :=
| AnObject (a : A)
| NotAnObject (v : value).
Arguments AnObject {A} a.
Arguments NotAnObject {A} v.

(** What the code reads of the response of [generateContent]: its text,
    [None] for [undefined], and
    [candidates?.[0]?.groundingMetadata?.groundingChunks]. *)
Record WebChunk : Type := mkWeb {
  uri : option string;
  title : option string;
}.

Record GroundingChunk : Type := mkChunk {
  web : option WebChunk;
}.

(** The grounding chunks are missing when a link of the optional chain is
    missing or the value is falsy; they are an array of values; or they
    are another truthy value, which has no [filter]. *)
Inductive Grounding : Type :=
| NoChunks
| Chunks (chunks : list (any GroundingChunk))
| NotAnArray.

Record GenerateContentResponse : Type := mkResponse {
  text : option string;
  groundingChunks : Grounding;
}.

(** [chunk.web?.uri], when truthy. *)
Definition chunk_uri (chunk : GroundingChunk) : option string :=
  match web chunk ≫= uri with
  | Some u => if is_empty u then None else Some u
  | None => None
  end.

(** What [filter] and [map] make of a chunk: nothing without
    [chunk.web?.uri], and otherwise the source with that address and the
    title [chunk.web.title || chunk.web.uri]. *)
Definition source_of (chunk : GroundingChunk) : option Source.t :=
  match chunk_uri chunk with
  | Some u =>
      Some (Source.mk u
              (match web chunk ≫= title with
               | Some t => if is_empty t then u else t
               | None => u
               end))
  | None => None
  end.

(** The [TypeError]s of the [try] block, in the wording of V8. *)
Definition undefined_text_message : string :=
  "Cannot read properties of undefined (reading 'match')".

Definition not_an_array_message : string :=
  "response.candidates[0].groundingMetadata.groundingChunks.filter is not a function".

Definition no_chunk_message (chunk : string) : string :=
  "Cannot read properties of " +:+ chunk +:+ " (reading 'web')".

Definition not_an_object_message (v : value) : string :=
  match v with
  | VUndefined | VNull =>
      "Cannot set properties of " +:+ to_string v +:+ " (setting 'sources')"
  | VBool _ => "Cannot create property 'sources' on boolean '" +:+ to_string v +:+ "'"
  | VNum _ => "Cannot create property 'sources' on number '" +:+ to_string v +:+ "'"
  | VStr _ => "Cannot create property 'sources' on string '" +:+ to_string v +:+ "'"
  end.

(** The callback [chunk => chunk.web?.uri] of [filter] on an element of
    the array, with what [map] makes of a chunk that is kept: reading
    [web] throws on [null] and on [undefined]; other values that are no
    objects have no [web]. *)
Definition chunk_source (i : nat) (chunk : any GroundingChunk)
  : result (option Source.t) :=
  match chunk with
  | AnObject c => Ok (source_of c)
  | NotAnObject VNull => Throw (no_chunk_message "null")
  | NotAnObject VUndefined => Throw (no_chunk_message "undefined")
  | NotAnObject _ => Ok None
  end.

(** [.filter(chunk => chunk.web?.uri).map(chunk => ...)]: the callback of
    [map] reads [chunk.web] of kept chunks only and cannot throw. *)
Definition sources_of (chunks : list (any GroundingChunk)) : result (list Source.t) :=
  match map_throwing chunk_source 0 chunks with
  | Ok sources => Ok (omap id sources)
  | Throw message => Throw message
  end.

(** [result.sources = s] *)
Definition set_sources (s : option (list Source.t)) (a : ProductAnalysis.t)
  : ProductAnalysis.t :=
  ProductAnalysis.mk (ProductAnalysis.userProduct a) (ProductAnalysis.competitors a)
    (ProductAnalysis.suggestedPrice a) (ProductAnalysis.reasoning a)
    (ProductAnalysis.marketSummary a) (ProductAnalysis.historicalPriceAnalysis a) s.

(** The assignment [result.sources = s] in a module, which is strict
    code: a [TypeError] when [result] is no object. *)
Definition assign_sources (s : list Source.t) (target : any ProductAnalysis.t)
  : result (any ProductAnalysis.t) :=
  match target with
  | AnObject a => Ok (AnObject (set_sources (Some s) a))
  | NotAnObject v => Throw (not_an_object_message v)
  end.

Definition empty_response_message : string :=
  "Received an empty response from the AI. The analysis could not be completed. Please try again.".

Definition unprocessable_message : string :=
  "The AI returned a response that could not be processed. Please try your request again.".

Definition failed_message (message : string) : string :=
  "Failed to get analysis from AI: " +:+ message +:+ ".".

Definition unknown_error_message : string :=
  "An unknown error occurred during AI analysis.".

Section Model.

(** The call of the model, by the number of the call in the run and the
    fillings of the two holes of the prompt: it returns a response or
    throws any value.  [JSON.parse] returns a value of type [any], which
    the code casts to [ProductAnalysis], or throws a [SyntaxError]. *)
Variable generateContent : nat → string → string → attempt GenerateContentResponse.
Variable JSON_parse : string → result (any ProductAnalysis.t).

(** The [try] block of [performSingleAnalysis].  In the assignment to
    [result.sources] the right-hand side is evaluated first. *)
Definition analysis_attempt (call : nat) (userProductIdentifier : UserIdentifier)
    (competitorUrls : list string) : attempt (any ProductAnalysis.t) :=
  response ←
    generateContent call (userProductPrompt userProductIdentifier)
      (competitorsPrompt competitorUrls);
  responseText ←
    match text response with
    | Some t => Return t
    | None => Raise (AnError undefined_text_message)
    end;
  let jsonText := cleanJsonFromResponse responseText in
  of_result (throw_unless (negb (is_empty jsonText)) empty_response_message);;
  result ← of_result (JSON_parse jsonText);
  match groundingChunks response with
  | NoChunks => Return result
  | Chunks chunks =>
      sources ← of_result (sources_of chunks);
      of_result (assign_sources sources result)
  | NotAnArray => Raise (AnError not_an_array_message)
  end.

(** The [catch] block throws a new error for every value it receives. *)
Definition performSingleAnalysis (call : nat)
    (userProductIdentifier : UserIdentifier) (competitorUrls : list string)
  : result (any ProductAnalysis.t) :=
  match analysis_attempt call userProductIdentifier competitorUrls with
  | Return result => Ok result
  | Raise (AnError message) =>
      if includes "JSON" message then Throw unprocessable_message
      else Throw (failed_message message)
  | Raise NotAnError => Throw unknown_error_message
  end.

End Model.
End GeminiAnalysis.

(** ** The values of [JSON.parse] *)

Module Json.
Import Js.

#[warnings="-register-all"] Inductive t : Type :=
| Null
| Bool (b : bool)
| Num (n : number)
| Str (s : string)
| Arr (items : list t)
| Obj (fields : list (string * t)).

(** [v[key]] for a key that is no property of strings, numbers, booleans
    or arrays: the value of the last member of that name of an object,
    [None] for [undefined]. *)
Definition get (key : string) (v : t) : option t :=
  match v with
  | Obj fields =>
      snd <$> List.find (λ member, String.eqb member.1 key) (reverse fields)
  | _ => None
  end.

(** [String(v)]: an array prints its elements separated by commas, [null]
    as nothing. *)
Fixpoint to_string (v : t) : string :=
  match v with
  | Null => "null"
  | Bool true => "true"
  | Bool false => "false"
  | Num n => number_to_string n
  | Str s => s
  | Arr items =>
      join ","
        ((fix elements (l : list t) : list string :=
            match l with
            | [] => []
            | x :: l' =>
                match x with
                | Null => EmptyString
                | _ => to_string x
                end :: elements l'
            end) items)
  | Obj _ => "[object Object]"
  end.

(** [Number(v)]; [None] is [undefined]. *)
Definition Number (v : option t) : number :=
  match v with
  | None => NaN
  | Some Null => zero
  | Some (Bool true) => Fin 1%Q
  | Some (Bool false) => zero
  | Some (Num n) => n
  | Some x => Number_of_string (to_string x)
  end.

(** What [Number.isFinite] and, under its guard, [Number] see of a value:
    arrays and objects are, like [undefined], no numbers. *)
Definition as_value (v : t) : value :=
  match v with
  | Null => VNull
  | Bool b => VBool b
  | Num n => VNum n
  | Str s => VStr s
  | Arr _ | Obj _ => VUndefined
  end.

(** [typeof v === 'string'] *)
Definition is_string (v : t) : bool :=
  match v with
  | Str _ => true
  | _ => false
  end.

Definition string_of (v : t) : option string :=
  match v with
  | Str s => Some s
  | _ => None
  end.

End Json.

(** ** [services/geminiService.ts]: [suggestCompetitors] *)

Module Suggestions.
Import Js GeminiAnalysis.

Section Model.

(** The call of the model for the product page of the given URL, and
    [JSON.parse]. *)
Variable generateContent : string → result GenerateContentResponse.
Variable JSON_parse : string → result Json.t.

(** The [try] block of [suggestCompetitors]. *)
Definition suggestion_attempt (userProductUrl : string) : result (list string) :=
  response ← generateContent userProductUrl;
  responseText ←
    match text response with
    | Some t => Ok t
    | None => Throw undefined_text_message
    end;
  let jsonText := cleanJsonFromResponse responseText in
  if is_empty jsonText then Ok []
  else
    urls ← JSON_parse jsonText;
    Ok (match urls with
        | Json.Arr items =>
            if forallb Json.is_string items then omap Json.string_of items
            else []
        | _ => []
        end).

(** Every error is caught. *)
Definition suggestCompetitors (userProductUrl : string) : list string :=
  match suggestion_attempt userProductUrl with
  | Ok urls => urls
  | Throw _ => []
  end.

End Model.
End Suggestions.

(** ** [services/priceService.ts] *)

Module PriceService.
Import Js.

(** What the code reads of the response of [fetch]: [json] is the outcome
    of [res.json()]. *)
Record Response : Type := mkResponse {
  ok : bool;
  status : nat;
  json : result Json.t;
}.

(** [data.key]: a [TypeError] on [null]. *)
Definition property (key : string) (data : Json.t) : result (option Json.t) :=
  match data with
  | Json.Null =>
      Throw ("Cannot read properties of null (reading '" +:+ key +:+ "')")
  | _ => Ok (Json.get key data)
  end.

(** The message of the error thrown for a response that is not [ok]: the
    [detail] of the body when it is a string; a body that is no JSON
    counts as the empty object. *)
Definition failure_message (what : string) (res : Response) : string :=
  let detail := match json res with Ok d => d | Throw _ => Json.Obj [] end in
  match Json.get "detail" detail with
  | Some (Json.Str s) => s
  | _ => what +:+ " (" +:+ nat_to_string (status res) +:+ ")"
  end.

Section Fetch.

(** The two endpoints: the response to a request, or a rejection. *)
Variable fetch_predict : PredictPayload.t → result Response.
Variable fetch_batch : list PredictPayload.t → result Response.

Definition predictPrice (payload : PredictPayload.t) : result number :=
  res ← fetch_predict payload;
  throw_unless (ok res) (failure_message "Prediction failed" res);;
  data ← json res;
  predicted_price ← property "predicted_price" data;
  let value :=
    match predicted_price with
    | Some (Json.Arr items) => items !! 0
    | _ => predicted_price
    end in
  Ok (Json.Number value).

(** [predictBatch] resolves to whatever [predicted_prices] holds. *)
Definition predictBatch (payloads : list PredictPayload.t)
  : result (option Json.t) :=
  res ← fetch_batch payloads;
  throw_unless (ok res) (failure_message "Batch prediction failed" res);;
  data ← json res;
  property "predicted_prices" data.

(** [predictBatch] as [handleAnalysis] uses it: the array [preds.forEach]
    runs over; anything that is not an array has no [forEach]. *)
Definition predictions (payloads : list PredictPayload.t)
  : result (option (list value)) :=
  preds ← predictBatch payloads;
  Ok (match preds with
      | Some (Json.Arr items) => Some (Json.as_value <$> items)
      | _ => None
      end).

End Fetch.
End PriceService.

(** ** The CSV exporters of competitors and of price histories *)

Module CsvReports.
Import Js CsvExport.

(** How an export ends: the text handed to the download, or a message on
    the console or in an alert box and no download. *)
Inductive outcome : Type :=
| Downloaded (csvContent : string)
| Warned (message : string)
| Alerted (message : string).

(** An optional numeric field read from the record: [undefined] when it
    is absent. *)
Definition optional_number (n : option number) : value :=
  match n with
  | Some n => VNum n
  | None => VUndefined
  end.

(** [[headers.join(','), ...rows].join('\n')] *)
Definition csvContent (headers : list string) (rows : list string) : string :=
  join (chr newline) (join (chr comma) headers :: rows).

Module Competitors.

Definition headers : list string :=
  [ "Analyzed Product"; "Competitor Name"; "Competitor URL"; "Current Price";
    "Original Price"; "Stock Status"; "Price Trend" ].

(** The fields of the row of one competitor. *)
Definition row (userProduct : UserProduct.t) (competitor : Competitor.t)
  : list string :=
  [ escapeCsvField (VStr (UserProduct.productName userProduct));
    escapeCsvField (VStr (Competitor.productName competitor));
    escapeCsvField (VStr (Competitor.url competitor));
    escapeCsvField (Competitor.price competitor);
    escapeCsvField (optional_number (Competitor.originalPrice competitor));
    escapeCsvField (VStr (StockStatus_string (Competitor.stockStatus competitor)));
    escapeCsvField (VStr (PriceTrend_string (Competitor.priceTrend competitor))) ].

(** The rows pushed for one analysis. *)
Definition rows_of (analysis : ProductAnalysis.t) : list (list string) :=
  match ProductAnalysis.competitors analysis with
  | Some competitors =>
      if (0 <? length competitors)%nat
      then row (ProductAnalysis.userProduct analysis) <$> competitors
      else []
  | None => []
  end.

Definition exportCompetitorsToCsv (data : AnalysisResult) : outcome :=
  match data with
  | [] => Warned "No competitor data to export."
  | _ =>
      let rows := join (chr comma) <$> (data ≫= rows_of) in
      if (length rows =? 0)%nat
      then Alerted "No competitor data found in the analysis to export."
      else Downloaded (csvContent headers rows)
  end.

End Competitors.

Module PriceHistory.

Definition headers : list string :=
  [ "Analyzed Product"; "Source Product"; "Date"; "Price" ].

(** The fields of the row of one price point. *)
Definition row (analyzed source : string) (point : HistoricalPricePoint.t)
  : list string :=
  [ escapeCsvField (VStr analyzed);
    escapeCsvField (VStr source);
    escapeCsvField (VStr (HistoricalPricePoint.date point));
    escapeCsvField (VNum (HistoricalPricePoint.price point)) ].

(** The rows pushed for the history of one product. *)
Definition history_rows (analyzed source : string)
    (historicalPrices : option (list HistoricalPricePoint.t))
  : list (list string) :=
  match historicalPrices with
  | Some points => row analyzed source <$> points
  | None => []
  end.

(** The rows pushed for one analysis: the subject's own history, then
    the history of every competitor. *)
Definition rows_of (analysis : ProductAnalysis.t) : list (list string) :=
  let userProduct := ProductAnalysis.userProduct analysis in
  let analyzed := UserProduct.productName userProduct in
  history_rows analyzed analyzed (UserProduct.historicalPrices userProduct)
  ++ match ProductAnalysis.competitors analysis with
     | Some competitors =>
         competitors ≫= (λ competitor,
           history_rows analyzed (Competitor.productName competitor)
             (Competitor.historicalPrices competitor))
     | None => []
     end.

Definition exportPriceHistoryToCsv (data : AnalysisResult) : outcome :=
  match data with
  | [] => Warned "No price history data to export."
  | _ =>
      let rows := join (chr comma) <$> (data ≫= rows_of) in
      if (length rows =? 0)%nat
      then Alerted "No historical price data found in the analysis to export."
      else Downloaded (csvContent headers rows)
  end.

End PriceHistory.
End CsvReports.

(** ** The handlers of the product input form *)

Module FormHandlers.
Import Js.

Definition handleAddCompetitor (competitorUrls : list string) : list string :=
  competitorUrls ++ [EmptyString].

(** [competitorUrls.filter((_, i) => i !== index)] *)
Definition handleRemoveCompetitor (index : nat) (competitorUrls : list string)
  : list string :=
  snd <$> filter (λ entry, entry.1 ≠ index) (imap pair competitorUrls).

(** [u.trim() !== ''] *)
Definition filled (u : string) : bool := negb (is_empty (trim u)).

(** [while (combined.length < 2) combined.push('')], at most [rounds]
    rounds of it. *)
Fixpoint pad (rounds : nat) (combined : list string) : list string :=
  match rounds with
  | O => combined
  | S rounds' =>
      if (length combined <? 2)%nat then pad rounds' (combined ++ [EmptyString])
      else combined
  end.

(** The update of the competitor fields by the suggestions, inside
    [triggerSuggestions]; two rounds of the loop always suffice. *)
Definition mergeSuggestions (suggestions prev : list string) : list string :=
  let existing := filter (λ u, filled u = true) prev in
  let newSuggestions := filter (λ s, s ∉ existing) suggestions in
  let combined := existing ++ newSuggestions in
  pad 2 combined.

(** The competitor fields after [triggerSuggestions(url)];
    [suggestCompetitors] never rejects. *)
Definition triggerSuggestions (suggestCompetitors : string → list string)
    (url : string) (competitorUrls : list string) : list string :=
  if is_empty (trim url) then competitorUrls
  else
    let suggestions := suggestCompetitors url in
    if (0 <? length suggestions)%nat
    then mergeSuggestions suggestions competitorUrls
    else competitorUrls.

(** What a submit handler does: it shows an error, or calls [onAnalyze]. *)
Inductive submission : Type :=
| Refused (error : string)
| Analyze (input : App.Input).

Definition handleSubmitUrl (userProductUrl : string)
    (competitorUrls : list string) : submission :=
  if is_empty (trim userProductUrl)
  then Refused "Please enter a valid URL for your product."
  else
    let validCompetitorUrls := filter (λ url, filled url = true) competitorUrls in
    Analyze (App.InputUrl userProductUrl validCompetitorUrls).

(** The state of the CSV tab. *)
Record CsvState : Type := mkCsv {
  csvProducts : list CsvProduct.t;
  fileName : string;
  error : option string;
}.

(** The file of a change event: none chosen, one that cannot be read, or
    one of the given name and text. *)
Inductive chosen : Type :=
| NoFile
| Unreadable (name : string)
| Readable (name text : string).

(** The state after [handleFileChange] and the callback of the reader. *)
Definition handleFileChange (file : chosen) (state : CsvState) : CsvState :=
  match file with
  | NoFile => state
  | Unreadable _ => mkCsv [] EmptyString (Some "Error reading the file.")
  | Readable name text =>
      match InputForm.parseCsv text with
      | Ok products => mkCsv products name None
      | Throw message =>
          mkCsv [] EmptyString (Some ("Parsing error: " +:+ message))
      end
  end.

Definition handleSubmitCsv (state : CsvState) : submission :=
  if (length (csvProducts state) =? 0)%nat
  then Refused "No valid products to analyze. Please upload a CSV file with products."
  else Analyze (App.InputCsv (csvProducts state)).

End FormHandlers.

(** ** [components/PriceHistoryChart.tsx]: the data of the chart *)

Module Chart.
Import Js.

(** A point of the chart: an object with the key [date] and one key for
    every series. *)
Abbreviation ChartDataPoint := (gmap string value).

(** [point[key] = v] for a number [v]: the key [__proto__] is the
    accessor of the prototype, which passes over a number. *)
Definition assign (key : string) (v : value) (point : ChartDataPoint)
  : ChartDataPoint :=
  if String.eqb key "__proto__" then point else <[ key := v ]> point.

(** The [Map] from dates to points, in insertion order. *)
Abbreviation PricePoints := (list (string * ChartDataPoint)).

Definition has (date : string) (m : PricePoints) : bool :=
  existsb (λ entry, String.eqb entry.1 date) m.

(** The body of the inner [forEach]: the point of the date, made when the
    map has none, gets the price under the name of the series. *)
Definition record (productName : string) (m : PricePoints)
    (point : HistoricalPricePoint.t) : PricePoints :=
  let date := HistoricalPricePoint.date point in
  let m' := if has date m then m else m ++ [(date, {[ "date" := VStr date ]})] in
  (λ entry,
     if String.eqb entry.1 date
     then (entry.1, assign productName (VNum (HistoricalPricePoint.price point)) entry.2)
     else entry) <$> m'.

(** [[userProduct, ...competitors]], each with the name of its series. *)
Definition allProducts (userProduct : UserProduct.t) (competitors : list Competitor.t)
  : list (string * option (list HistoricalPricePoint.t)) :=
  ("Your Product", UserProduct.historicalPrices userProduct)
  :: ((λ c, (Competitor.productName c, Competitor.historicalPrices c))
        <$> competitors).

Definition allPricePoints (userProduct : UserProduct.t)
    (competitors : list Competitor.t) : PricePoints :=
  foldl (λ m product, foldl (record product.1) m (default [] product.2))
        [] (allProducts userProduct competitors).

Section Sort.

(** [Array.prototype.sort] with the comparison of the dates: a function
    of the host, of which the statements say what they need. *)
Variable sort : list ChartDataPoint → list ChartDataPoint.

Definition processDataForChart (userProduct : UserProduct.t)
    (competitors : list Competitor.t) : list ChartDataPoint :=
  sort (snd <$> allPricePoints userProduct competitors).

End Sort.
End Chart.

(** ** Notions used in the statements *)

Module Shape.
Import Js.

(** Every character of [s] satisfies [p]. *)
Fixpoint every (p : ascii → bool) (s : string) : bool :=
  match s with
  | EmptyString => true
  | String c s' => p c && every p s'
  end.

(** [c] occurs in [s]. *)
Definition occurs (c : ascii) (s : string) : Prop :=
  ∃ s1 s2, s = s1 +:+ String c s2.

(** [name] occurs in [text]. *)
Definition mentions (text name : string) : Prop :=
  ∃ before after, text = before +:+ name +:+ after.

(** A non-empty run of decimal digits. *)
Definition digits (s : string) : Prop :=
  s ≠ EmptyString ∧ every is_digit s = true.

(** An optional minus sign, digits, and optionally a point followed by
    digits: the strings of [^-?\d+(\.\d+)?$]. *)
Definition strict_decimal (s : string) : Prop :=
  ∃ sign int frac,
    s = sign +:+ int +:+ frac
    ∧ (sign = EmptyString ∨ sign = "-")
    ∧ digits int
    ∧ (frac = EmptyString ∨ ∃ f, frac = "." +:+ f ∧ digits f).

(** The keyword table of the category inference, in the words of the
    specification: the first keyword that occurs in the name, letter case
    ignored, gives the category; without any the category is [general]. *)
Definition keyword_table : list (string * string) :=
  [ ("shoe", "footwear"); ("sneaker", "footwear");
    ("phone", "electronics"); ("mobile", "electronics");
    ("shirt", "apparel"); ("t-shirt", "apparel") ].

Definition category_by_table (name : string) : string :=
  match List.find (λ entry, includes entry.1 (toLowerCase name)) keyword_table with
  | Some entry => entry.2
  | None => "general"
  end.

(** The text of a strict decimal with the given sign, integer digits and
    fraction digits (no point when there is no fraction digit). *)
Definition strict_text (negative : bool) (int frac : string) : string :=
  (if negative then "-" else EmptyString)
  +:+ int +:+ (if is_empty frac then EmptyString else "." +:+ frac).

(** The number denoted by a sign, integer digits and fraction digits:
    the decimal value, rounded to a double. *)
Definition decimal_number (negative : bool) (int frac : string) : number :=
  signed negative
    (to_double (scale10 (decimal_value (int +:+ frac))
                        (- Z.of_nat (String.length frac)))).

(** Neither a comma, nor a double quote, nor a newline occurs in [s]. *)
Definition plain (s : string) : Prop :=
  ¬ occurs comma s ∧ ¬ occurs dquote s ∧ ¬ occurs newline s.

(** The inverse of the quoting rule, in the words of the specification:
    inside the enclosing quotes every doubled quote stands for one. *)
Fixpoint undouble (s : string) : string :=
  match s with
  | EmptyString => EmptyString
  | String a s' =>
      match s' with
      | String b s'' =>
          if Ascii.eqb a dquote && Ascii.eqb b dquote
          then String dquote (undouble s'')
          else String a (undouble s')
      | EmptyString => String a EmptyString
      end
  end.

(** A field enclosed in double quotes loses them and has its doubled
    quotes undoubled; any other field is taken as it is. *)
Definition unescapeCsvField (field : string) : string :=
  match field with
  | String q body =>
      if Ascii.eqb q dquote then
        match String.rev body with
        | String q' ydob =>
            if Ascii.eqb q' dquote then undouble (String.rev ydob) else field
        | EmptyString => field
        end
      else field
  | EmptyString => EmptyString
  end.

(** A field in its quoted form: enclosed in double quotes, the quotes
    inside doubled. *)
Definition quoted_form (s : string) : string :=
  chr dquote +:+ replace_all dquote (chr dquote +:+ chr dquote) s +:+ chr dquote.

(** Reading CSV text by the same rule: a separator counts only outside
    quotes, and every double quote switches between inside and outside.
    [split_outside sep inside s] cuts [s] at the separators outside
    quotes and keeps the pieces as they are written. *)
Fixpoint split_outside (sep : ascii) (inside : bool) (s : string) : list string :=
  match s with
  | EmptyString => [EmptyString]
  | String c s' =>
      if Ascii.eqb c dquote then cons_first c (split_outside sep (negb inside) s')
      else if Ascii.eqb c sep && negb inside then EmptyString :: split_outside sep false s'
      else cons_first c (split_outside sep inside s')
  end.

(** Whether the reader is inside quotes after [s]. *)
Fixpoint quote_state (inside : bool) (s : string) : bool :=
  match s with
  | EmptyString => inside
  | String c s' =>
      quote_state (if Ascii.eqb c dquote then negb inside else inside) s'
  end.

(** No separator of [s] is outside quotes. *)
Fixpoint sep_free (sep : ascii) (inside : bool) (s : string) : bool :=
  match s with
  | EmptyString => true
  | String c s' =>
      if Ascii.eqb c dquote then sep_free sep (negb inside) s'
      else if Ascii.eqb c sep && negb inside then false
      else sep_free sep inside s'
  end.

(** A well-formed field for the separator [sep]: read from outside quotes
    it has no separator outside quotes and ends outside quotes. *)
Definition closed (sep : ascii) (field : string) : Prop :=
  sep_free sep false field = true ∧ quote_state false field = false.

(** Neither a comma, nor a double quote, nor a newline. *)
Definition ordinary (c : ascii) : bool :=
  negb (Ascii.eqb c comma) && negb (Ascii.eqb c dquote)
  && negb (Ascii.eqb c newline).

(** Puts [s] in front of the first piece of a split. *)
Definition prepend (s : string) (pieces : list string) : list string :=
  match pieces with
  | [] => [s]
  | p :: ps => (s +:+ p) :: ps
  end.

(** The records of a CSV text, each as the list of its fields. *)
Definition csv_records (content : string) : list (list string) :=
  split_outside comma false <$> split_outside newline false content.

End Shape.

Module Outcomes.

(** The outcome of the AI call of every item of a batch, in input order. *)
Definition batch_outcomes
    (performSingleAnalysis :
       nat → GeminiService.UserIdentifier → list string → result ProductAnalysis.t)
    (products : list CsvProduct.t) : list (result ProductAnalysis.t) :=
  imap (λ i product,
          performSingleAnalysis i (GeminiService.userIdentifier product)
            (CsvProduct.competitorUrls product)) products.

Definition is_success {A} (r : result A) : bool :=
  match r with Ok _ => true | Throw _ => false end.

(** The values of the successful outcomes, in order. *)
Definition successes {A} (outcomes : list (result A)) : list A :=
  omap (λ r, match r with Ok v => Some v | Throw _ => None end) outcomes.

(** The names of the products whose outcome is a failure, in order. *)
Definition failures {A} (products : list CsvProduct.t) (outcomes : list (result A))
  : list string :=
  omap (λ pr, match pr.2 with
              | Throw _ => Some (CsvProduct.productName pr.1)
              | Ok _ => None
              end)
       (zip products outcomes).

End Outcomes.

Module Refinement.
Import Js.

(** An analysis after the refinement step that saw the prediction
    [prediction] for it ([None]: no prediction at its position). *)
Definition refined (a : ProductAnalysis.t) (prediction : option value)
  : ProductAnalysis.t :=
  match prediction with
  | Some (VNum (Fin q)) => ProductAnalysis.set_suggestedPrice (Math_round (Fin q)) a
  | _ => a
  end.

(** Two analyses that agree on every field except, possibly,
    [suggestedPrice]. *)
Definition same_but_price (a b : ProductAnalysis.t) : Prop :=
  ProductAnalysis.userProduct a = ProductAnalysis.userProduct b
  ∧ ProductAnalysis.competitors a = ProductAnalysis.competitors b
  ∧ ProductAnalysis.reasoning a = ProductAnalysis.reasoning b
  ∧ ProductAnalysis.marketSummary a = ProductAnalysis.marketSummary b
  ∧ ProductAnalysis.historicalPriceAnalysis a
    = ProductAnalysis.historicalPriceAnalysis b
  ∧ ProductAnalysis.sources a = ProductAnalysis.sources b.

End Refinement.

Module Ingestion.
Import Js InputForm.

(** The lines of a text that are not blank. *)
Definition nonblank_lines (text : string) : list string :=
  filter (λ line, nonblank line = true) (split_lines text).

(** The trimmed names of the header, which is the first of these lines. *)
Definition header_of (text : string) : list string :=
  trim <$> split comma (default EmptyString (head (nonblank_lines text))).

(** The data rows: the lines after the header. *)
Definition data_rows (text : string) : list string :=
  drop 1 (nonblank_lines text).

(** The trimmed field of a row under the last column named [col]; a
    column without field reads as the empty string. *)
Fixpoint column (header values : list string) (col : string) : option string :=
  match header with
  | [] => None
  | h :: header' =>
      match column header' (tail values) col with
      | Some x => Some x
      | None =>
          if String.eqb h col then Some (trim (default EmptyString (head values)))
          else None
      end
  end.

(** The constraints on a data row, each with what its error reports. *)
Inductive violation : Type :=
| ColumnCount (expected found : nat)
| EmptyName
| EmptyPrice
| NotANumber (price : string)
| NegativePrice (price : string).

Definition field_is_empty (field : option string) : Prop :=
  field = None ∨ field = Some EmptyString.

(** [violates header row v]: [v] is the first constraint, in the order
    above, that the row does not meet. *)
Inductive violates (header : list string) (row : string) : violation → Prop :=
| V_columns :
    length (split comma row) ≠ length header →
    violates header row (ColumnCount (length header) (length (split comma row)))
| V_name :
    length (split comma row) = length header →
    field_is_empty (column header (split comma row) "productName") →
    violates header row EmptyName
| V_price :
    length (split comma row) = length header →
    ¬ field_is_empty (column header (split comma row) "productName") →
    field_is_empty (column header (split comma row) "currentPrice") →
    violates header row EmptyPrice
| V_number price :
    length (split comma row) = length header →
    ¬ field_is_empty (column header (split comma row) "productName") →
    column header (split comma row) "currentPrice" = Some price →
    price ≠ EmptyString →
    number_isFinite (Number_of_string price) = false →
    violates header row (NotANumber price)
| V_negative price :
    length (split comma row) = length header →
    ¬ field_is_empty (column header (split comma row) "productName") →
    column header (split comma row) "currentPrice" = Some price →
    price ≠ EmptyString →
    number_isFinite (Number_of_string price) = true →
    number_ltz (Number_of_string price) = true →
    violates header row (NegativePrice price).

(** The error of a violation on the row numbered [rowNum]. *)
Definition violation_message (rowNum : nat) (v : violation) : string :=
  match v with
  | ColumnCount expected found => column_count_message rowNum expected found
  | EmptyName => empty_name_message rowNum
  | EmptyPrice => empty_price_message rowNum
  | NotANumber price => not_a_number_message rowNum price
  | NegativePrice price => negative_price_message rowNum price
  end.

(** [accepted header row product]: the row meets every constraint and
    [product] is what it describes. *)
Definition accepted (header : list string) (row : string)
    (product : CsvProduct.t) : Prop :=
  let values := split comma row in
  length values = length header
  ∧ column header values "productName" = Some (CsvProduct.productName product)
  ∧ CsvProduct.productName product ≠ EmptyString
  ∧ (∃ price,
       column header values "currentPrice" = Some price
       ∧ price ≠ EmptyString
       ∧ CsvProduct.currentPrice product = Number_of_string price)
  ∧ number_isFinite (CsvProduct.currentPrice product) = true
  ∧ number_ltz (CsvProduct.currentPrice product) = false
  ∧ CsvProduct.userProductUrl product
    = default EmptyString (column header values "userProductUrl")
  ∧ CsvProduct.competitorUrls product
    = filter (λ u, u ≠ EmptyString)
        (trim <$> split semicolon
           (default EmptyString (column header values "competitorUrls"))).

End Ingestion.

(** Sample data for the instances below. *)
Module Sample.
Import Js GeminiService.

(** Two analyses with one and with three competitors: three groups of
    competitor columns. *)
Definition example_competitor (name : string) : Competitor.t :=
  Competitor.mk "https://shop.example/item" name (VNum (Fin (inject_Z 90)))
    None None InStock TrendStable None.

Definition example_analysis (name : string) (cs : list Competitor.t)
  : ProductAnalysis.t :=
  ProductAnalysis.mk
    (UserProduct.mk None name (VNum (Fin (inject_Z 100))) None None None)
    (Some cs) (Fin (inject_Z 95)) "reasoning" "summary" "history" None.

Definition example_one : ProductAnalysis.t :=
  example_analysis "Lamp" [example_competitor "A"].

Definition example_three : ProductAnalysis.t :=
  example_analysis "Desk"
    [example_competitor "B"; example_competitor "C"; example_competitor "D"].

(** A collaborator that fails on the call of index 1 and otherwise
    returns an analysis of the product it is asked about. *)
Definition example_ai (i : nat) (id : UserIdentifier) (urls : list string)
  : result ProductAnalysis.t :=
  if (i =? 1) then Throw "Failed to get analysis from AI: quota."
  else Ok (example_analysis
             (match id with ByName name _ => name | ByUrl url => url end) []).

Definition example_products : list CsvProduct.t :=
  [ CsvProduct.mk "Lamp" (Fin (inject_Z 10)) EmptyString [];
    CsvProduct.mk "Desk" (Fin (inject_Z 20)) EmptyString [];
    CsvProduct.mk "Sofa" (Fin (inject_Z 30)) EmptyString [] ].

(** An AI collaborator that suggests 500 for every product. *)
Definition ai_500 (i : nat) (id : GeminiService.UserIdentifier)
    (urls : list string) : result ProductAnalysis.t :=
  Ok (ProductAnalysis.mk
        (UserProduct.mk None "Lamp" (VNum (Fin (inject_Z 480))) None None None)
        (Some []) (Fin (inject_Z 500)) "reasoning" "summary" "history" None).

Definition no_batch (payloads : list PredictPayload.t)
  : result (option (list value)) :=
  Throw "Batch prediction failed (503)".

End Sample.

(** ** Notions for the remaining sources *)

Module Cleanliness.
Import Js Shape.

Definition comma_free (s : string) : Prop :=
  every (λ c, negb (Ascii.eqb c comma)) s = true.

(** A text as [trim] leaves it, and without a comma. *)
Definition clean (s : string) : Prop := trim s = s ∧ comma_free s.

(** The texts of an ingested product. *)
Definition clean_product (p : CsvProduct.t) : Prop :=
  CsvProduct.productName p ≠ EmptyString
  ∧ clean (CsvProduct.productName p)
  ∧ clean (CsvProduct.userProductUrl p)
  ∧ Forall (λ u, u ≠ EmptyString ∧ clean u
                 ∧ every (λ c, negb (Ascii.eqb c semicolon)) u = true)
           (CsvProduct.competitorUrls p).

(** Neither a line feed nor a carriage return. *)
Definition inline (c : ascii) : bool :=
  negb (Ascii.eqb c newline) && negb (Ascii.eqb c creturn).

Definition crlf : string := String creturn (chr newline).

End Cleanliness.

Module Occurrence.
Import GeminiAnalysis.

(** In front of an occurrence of [needle], no occurrence starts that
    reaches into it: a text that does not start with [needle] does not
    start with it either when [needle] follows it. *)
Definition first_at (needle : string) : Prop :=
  ∀ v rest,
    v ≠ EmptyString → strip_prefix needle v = None →
    strip_prefix needle (v +:+ needle +:+ rest) = None.

End Occurrence.

Module Prediction.
Import Js.


(** [handleAnalysis] with the price service behind the two endpoints. *)
Definition handle
    (performSingleAnalysis :
       nat → GeminiService.UserIdentifier → list string → result ProductAnalysis.t)
    (fetch_predict : PredictPayload.t → result PriceService.Response)
    (fetch_batch : list PredictPayload.t → result PriceService.Response)
  : App.Input → App.AppState :=
  App.handleAnalysis performSingleAnalysis
    (PriceService.predictPrice fetch_predict)
    (PriceService.predictions fetch_batch).

End Prediction.

Module Histories.

(** The number of price points of a history and of an analysis. *)
Definition history_length (h : option (list HistoricalPricePoint.t)) : nat :=
  length (default [] h).

Definition pointCount (analysis : ProductAnalysis.t) : nat :=
  history_length (UserProduct.historicalPrices (ProductAnalysis.userProduct analysis))
  + sum_list (history_length ∘ Competitor.historicalPrices
                <$> default [] (ProductAnalysis.competitors analysis)).

End Histories.

Module ChartNotions.
Import Js Chart.

(** The dates of all price points, in the order the chart reads them. *)
Definition dates_of (products : list (string * option (list HistoricalPricePoint.t)))
  : list string :=
  products ≫= (λ product, HistoricalPricePoint.date <$> default [] product.2).

(** The [date] of every point of the map is its key. *)
Definition dated (m : PricePoints) : Prop :=
  ∀ k p, (k, p) ∈ m → p !! "date" = Some (VStr k).

End ChartNotions.

Module Citations.
Import Js GeminiAnalysis.

(** An element of the array of chunks that can be asked for its [web]:
    neither [null] nor [undefined]. *)
Definition readable (chunk : any GroundingChunk) : Prop :=
  chunk ≠ NotAnObject VNull ∧ chunk ≠ NotAnObject VUndefined.

(** The first element of the array that is [null] or [undefined]. *)
Definition first_missing (chunks : list (any GroundingChunk)) (i : nat) (v : value)
  : Prop :=
  chunks !! i = Some (NotAnObject v) ∧ (v = VNull ∨ v = VUndefined)
  ∧ ∀ j chunk, j < i → chunks !! j = Some chunk → readable chunk.

(** An element with an address: an object whose [web] has a [uri] that is
    not empty. *)
Definition addressed (chunk : any GroundingChunk) : Prop :=
  ∃ c w u, chunk = AnObject c ∧ web c = Some w ∧ uri w = Some u ∧ u ≠ EmptyString.

(** [s] cites the chunk [c]: its address is the [uri] of the chunk, which
    is not empty, and its title is the [title] of the chunk, or the
    address when the chunk has no title or an empty one. *)
Definition cites (s : Source.t) (c : GroundingChunk) : Prop :=
  ∃ w,
    web c = Some w ∧ uri w = Some (Source.uri s) ∧ Source.uri s ≠ EmptyString
    ∧ ((∃ t, title w = Some t ∧ t ≠ EmptyString ∧ Source.title s = t)
       ∨ ((title w = None ∨ title w = Some EmptyString)
          ∧ Source.title s = Source.uri s)).

(** The sources cite the elements with an address, one for one, in their
    order. *)
Inductive sourced : list (any GroundingChunk) → list Source.t → Prop :=
| sourced_nil : sourced [] []
| sourced_cited c s chunks sources :
    cites s c → sourced chunks sources →
    sourced (AnObject c :: chunks) (s :: sources)
| sourced_passed chunk chunks sources :
    ¬ addressed chunk → sourced chunks sources →
    sourced (chunk :: chunks) sources.

End Citations.

Module Failures.
Import Js Shape GeminiService GeminiAnalysis Citations.

Section Model.
Variable generateContent : nat → string → string → attempt GenerateContentResponse.
Variable JSON_parse : string → result (any ProductAnalysis.t).
Variables (call : nat) (id : UserIdentifier) (urls : list string).

(** The response and its text, when the model returns one with a text
    that is not all white space, and what [JSON.parse] makes of the
    cleaned text. *)
Definition answered (response : GenerateContentResponse) (t : string) : Prop :=
  generateContent call (userProductPrompt id) (competitorsPrompt urls)
  = Return response
  ∧ text response = Some t ∧ every is_white t = false.

Definition parsed_as (response : GenerateContentResponse)
    (parsed : any ProductAnalysis.t) : Prop :=
  ∃ t, answered response t ∧ JSON_parse (cleanJsonFromResponse t) = Ok parsed.

(** The places of the [try] block of [performSingleAnalysis] where an
    exception arises, each with its exception. *)
Inductive thrown_in_try : exception → Prop :=
| thrown_by_model cause :
    generateContent call (userProductPrompt id) (competitorsPrompt urls)
    = Raise cause →
    thrown_in_try cause
| thrown_without_text response :
    generateContent call (userProductPrompt id) (competitorsPrompt urls)
    = Return response →
    text response = None →
    thrown_in_try (AnError undefined_text_message)
| thrown_on_blank_text response t :
    generateContent call (userProductPrompt id) (competitorsPrompt urls)
    = Return response →
    text response = Some t → every is_white t = true →
    thrown_in_try (AnError empty_response_message)
| thrown_by_parse response t message :
    answered response t →
    JSON_parse (cleanJsonFromResponse t) = Throw message →
    thrown_in_try (AnError message)
| thrown_by_filter response parsed :
    parsed_as response parsed →
    groundingChunks response = NotAnArray →
    thrown_in_try (AnError not_an_array_message)
| thrown_by_chunk response parsed chunks i v :
    parsed_as response parsed →
    groundingChunks response = Chunks chunks →
    first_missing chunks i v →
    thrown_in_try (AnError (no_chunk_message (to_string v)))
| thrown_by_assignment response chunks v :
    parsed_as response (NotAnObject v) →
    groundingChunks response = Chunks chunks →
    Forall readable chunks →
    thrown_in_try (AnError (not_an_object_message v)).

(** What the [try] block returns. *)
Definition returned (r : any ProductAnalysis.t) : Prop :=
  ∃ response parsed,
    parsed_as response parsed
    ∧ match groundingChunks response with
      | NoChunks => r = parsed
      | Chunks chunks =>
          ∃ a sources,
            parsed = AnObject a
            ∧ Forall readable chunks ∧ sourced chunks sources
            ∧ r = AnObject (set_sources (Some sources) a)
      | NotAnArray => False
      end.

End Model.
End Failures.

Module Casting.
Import Js GeminiService GeminiAnalysis.

(** The rest of the program takes what [performSingleAnalysis] returns at
    its declared type: an object as it is, and a value that is no object
    as [view] reads it. *)
Definition read (view : value → ProductAnalysis.t) (r : any ProductAnalysis.t)
  : ProductAnalysis.t :=
  match r with
  | AnObject a => a
  | NotAnObject v => view v
  end.

Definition typed (view : value → ProductAnalysis.t)
    (perform : nat → UserIdentifier → list string → result (any ProductAnalysis.t))
  : nat → UserIdentifier → list string → result ProductAnalysis.t :=
  λ call id urls, r ← perform call id urls; Ok (read view r).

End Casting.

(** More sample data. *)
Module Answers.
Import Js GeminiAnalysis.

(** A one followed by four hundred zeros. *)
Definition ten_to_the_400 : string :=
  String "1" (String.string_of_list_ascii (replicate 400 "0"%char)).

(** An answer of the model with a fenced block. *)
Definition example_answer : string :=
  "Here is the analysis." +:+ chr newline
  +:+ fence_open +:+ "{ }" +:+ fence_close +:+ chr newline.

(** A response with that answer and two grounding chunks, one of them
    without address. *)
Definition example_response : GenerateContentResponse :=
  mkResponse (Some example_answer)
    (Chunks [ AnObject (mkChunk (Some (mkWeb (Some "https://shop.example/lamp") None)));
              AnObject (mkChunk (Some (mkWeb None (Some "no address")))) ]).

(** A model that gives this response, and a parser that reads the
    analysis of the samples from the block. *)
Definition example_model (call : nat) (product competitors : string)
  : attempt GenerateContentResponse :=
  Return example_response.

Definition example_parse (jsonText : string) : result (any ProductAnalysis.t) :=
  if String.eqb jsonText "{ }" then Ok (AnObject Sample.example_one)
  else Throw "Unexpected token in JSON".

(** A price service that answers [null] for a price, one that answers
    the list of [null] alone, and one that answers a list with a number,
    a text and [null]. *)
Definition null_price (payload : PredictPayload.t) : result PriceService.Response :=
  Ok (PriceService.mkResponse true 200
        (Ok (Json.Obj [("predicted_price", Json.Null)]))).

Definition null_prices (payloads : list PredictPayload.t)
  : result PriceService.Response :=
  Ok (PriceService.mkResponse true 200
        (Ok (Json.Obj [("predicted_prices", Json.Arr [Json.Null])]))).

Definition mixed_prices (payloads : list PredictPayload.t)
  : result PriceService.Response :=
  Ok (PriceService.mkResponse true 200
        (Ok (Json.Obj
               [("predicted_prices",
                 Json.Arr [ Json.Num (Fin (Qmake 9 2)); Json.Str "451.2";
                            Json.Null ])]))).

(** The analysis that [Sample.ai_500] returns. *)
Definition lamp_analysis : ProductAnalysis.t :=
  ProductAnalysis.mk
    (UserProduct.mk None "Lamp" (VNum (Fin (inject_Z 480))) None None None)
    (Some []) (Fin (inject_Z 500)) "reasoning" "summary" "history" None.

(** The batch of one product for it. *)
Definition lamp_products : list CsvProduct.t :=
  [CsvProduct.mk "Lamp" (Fin (inject_Z 480)) EmptyString []].

(** A product with two prices on one day, and a competitor with a price
    on another day. *)
Definition charted_product : UserProduct.t :=
  UserProduct.mk None "Lamp" (VNum (Fin (inject_Z 10))) None None
    (Some [ HistoricalPricePoint.mk "2024-05-01" (Fin (inject_Z 10));
            HistoricalPricePoint.mk "2024-05-01" (Fin (inject_Z 11)) ]).

Definition charted_competitor : Competitor.t :=
  Competitor.mk "https://shop.example/item" "Desk lamp" (VNum (Fin (inject_Z 9)))
    None None InStock TrendStable
    (Some [ HistoricalPricePoint.mk "2024-05-02" (Fin (inject_Z 9)) ]).

Definition lamp_csv : string :=
  "productName,currentPrice" +:+ chr newline +:+ "Lamp,10" +:+ chr newline.

End Answers.

(** * Properties *)

(** ** Strings *)

Section StringFacts.

Lemma string_app_cons c s t : String c s +:+ t = String c (s +:+ t).
Proof. reflexivity. Qed.

Lemma string_app_nil_l s : EmptyString +:+ s = s.
Proof. reflexivity. Qed.

Lemma string_app_nil_r s : s +:+ EmptyString = s.
Proof. induction s as [|c s IH]; [done|]. by rewrite string_app_cons, IH. Qed.

Lemma string_app_assoc s t u : (s +:+ t) +:+ u = s +:+ t +:+ u.
Proof. induction s as [|c s IH]; [done|]. by rewrite !string_app_cons, IH. Qed.

Lemma string_app_eq_nil s t : s +:+ t = EmptyString → s = EmptyString ∧ t = EmptyString.
Proof. destruct s; [done|]. rewrite string_app_cons. discriminate. Qed.

Lemma string_app_eq_cons s t c u :
  s +:+ t = String c u →
  (s = EmptyString ∧ t = String c u) ∨ (∃ s', s = String c s' ∧ u = s' +:+ t).
Proof.
  destruct s as [|c' s]; [by left|].
  rewrite string_app_cons. intros [= -> <-]. right. by exists s.
Qed.

Lemma string_rev_app_spec s t : String.rev_app s t = String.rev s +:+ t.
Proof.
  unfold String.rev. revert t.
  induction s as [|c s IH]; intros t; simpl; [done|].
  rewrite IH, (IH (String c EmptyString)). by rewrite string_app_assoc.
Qed.

Lemma string_rev_cons c s : String.rev (String c s) = String.rev s +:+ Js.chr c.
Proof. unfold String.rev at 1. simpl. by rewrite string_rev_app_spec. Qed.

Lemma string_rev_snoc s c : String.rev (s +:+ Js.chr c) = String c (String.rev s).
Proof.
  induction s as [|x s IH]; [done|].
  by rewrite string_app_cons, !string_rev_cons, IH.
Qed.

Lemma string_rev_involutive s : String.rev (String.rev s) = s.
Proof.
  induction s as [|c s IH]; [done|]. by rewrite string_rev_cons, string_rev_snoc, IH.
Qed.

End StringFacts.

(** ** The host operations on numbers *)

Module JsFacts.
Import Js.
Local Open Scope Z_scope.

Lemma numeral_app base acc s t :
  numeral base acc (s +:+ t) = numeral base acc s ≫= λ v, numeral base v t.
Proof.
  revert acc. induction s as [|c s IH]; intros acc; [done|].
  rewrite string_app_cons. cbn [numeral].
  destruct (digit_in_base base c); [apply IH|done].
Qed.

Lemma digit_in_base_digit_char d :
  0 ≤ d < 10 → digit_in_base 10 (digit_char d) = Some d.
Proof.
  intros Hd.
  assert (d = 0 ∨ d = 1 ∨ d = 2 ∨ d = 3 ∨ d = 4 ∨ d = 5 ∨ d = 6 ∨ d = 7
          ∨ d = 8 ∨ d = 9) as Hcases by lia.
  repeat (destruct Hcases as [->|Hcases]; [reflexivity|]). by subst.
Qed.

(** The digits written for [z] read back as [z], behind any numeral read
    before them. *)
Lemma decimal_digits_value fuel z acc :
  0 ≤ z < 10 ^ Z.of_nat fuel →
  ∃ ds,
    decimal_digits fuel z acc = ds +:+ acc
    ∧ ∀ a, numeral 10 a ds = Some (a * 10 ^ Z.of_nat (String.length ds) + z).
Proof.
  revert z acc. induction fuel as [|fuel IH]; intros z acc Hz.
  { assert (z = 0) as -> by (simpl in Hz; lia).
    exists EmptyString. split; [done|]. intros a. simpl. f_equal. lia. }
  cbn [decimal_digits].
  assert (0 ≤ z mod 10 < 10) as Hmod by (apply Z.mod_pos_bound; lia).
  pose proof (Z.div_mod z 10 ltac:(lia)) as Hdiv.
  destruct (z / 10 =? 0) eqn:Hq.
  - apply Z.eqb_eq in Hq. exists (chr (digit_char (z mod 10))).
    split; [done|]. intros a. cbn [numeral chr].
    rewrite digit_in_base_digit_char by done. cbn [numeral].
    change (10 ^ Z.of_nat (String.length _)) with 10. f_equal. lia.
  - apply Z.eqb_neq in Hq.
    destruct (IH (z / 10) (String (digit_char (z mod 10)) acc))
      as (ds & Heq & Hvalue).
    { split; [apply Z.div_pos; lia|].
      apply Z.div_lt_upper_bound; [lia|].
      rewrite Nat2Z.inj_succ, Z.pow_succ_r in Hz by lia. lia. }
    exists (ds +:+ chr (digit_char (z mod 10))). split.
    + by rewrite Heq, string_app_assoc.
    + intros a. rewrite numeral_app, Hvalue. cbn [mbind option_bind numeral chr].
      rewrite digit_in_base_digit_char by done. cbn [numeral].
      f_equal.
      assert (String.length (ds +:+ chr (digit_char (z mod 10)))
              = S (String.length ds)) as ->.
      { clear. induction ds as [|c ds IH]; [done|].
        rewrite string_app_cons. cbn [String.length]. by rewrite IH. }
      rewrite Nat2Z.inj_succ, Z.pow_succ_r by lia. lia.
Qed.

(** The decimal numeral of a non-negative integer denotes it. *)
Lemma decimal_value_decimal z : 0 ≤ z → decimal_value (decimal z) = z.
Proof.
  intros Hz. unfold decimal_value, decimal.
  destruct (decimal_digits_value (S (Z.to_nat (Z.log2 z))) z EmptyString)
    as (ds & Heq & Hvalue).
  { split; [done|].
    destruct (decide (z = 0)) as [->|Hne]; [done|].
    pose proof (Z.log2_nonneg z) as Hlog.
    rewrite Nat2Z.inj_succ, Z2Nat.id by done.
    destruct (Z.log2_spec z ltac:(lia)) as [_ Hlt].
    eapply Z.lt_le_trans; [exact Hlt|].
    apply Z.pow_le_mono_l. lia. }
  rewrite Heq, string_app_nil_r, Hvalue. simpl. lia.
Qed.

Lemma nat_to_string_value n : decimal_value (nat_to_string n) = Z.of_nat n.
Proof. apply decimal_value_decimal. lia. Qed.

Lemma Qred_inject_Z z : Qred (inject_Z z) = inject_Z z.
Proof.
  unfold Qred, inject_Z.
  pose proof (Z.ggcd_gcd z 1) as Hg.
  pose proof (Z.ggcd_correct_divisors z 1) as Hd.
  destruct (Z.ggcd z 1) as [g [a b]]. cbn [fst snd] in *.
  rewrite Z.gcd_1_r in Hg. subst g. destruct Hd as [Ha Hb].
  assert (a = z) as -> by lia. assert (b = 1) as -> by lia. done.
Qed.

Lemma round_half_even_1 n : round_half_even n 1 = n.
Proof. unfold round_half_even. by rewrite Z.div_1_r, Z.mod_1_r. Qed.

(** The integers below [2^53] in absolute value are doubles: rounding
    leaves them as they are. *)
Lemma to_double_integer z :
  Z.abs z < 2 ^ 53 → to_double (inject_Z z) = Fin (inject_Z z).
Proof.
  intros Hz. unfold to_double. cbn [Qnum Qden inject_Z].
  destruct (Z.abs z =? 0) eqn:H0.
  { apply Z.eqb_eq in H0. by assert (z = 0) as -> by lia. }
  apply Z.eqb_neq in H0.
  assert (0 < Z.abs z) as Hn by lia.
  destruct (Z.log2_spec _ Hn) as [Hlo Hhi].
  pose proof (Z.log2_nonneg (Z.abs z)) as Hlog.
  assert (Z.log2 (Z.abs z) < 53) as Hlt by (by apply Z.log2_lt_pow2).
  assert (binade (Z.abs z) 1 = Z.log2 (Z.abs z)) as ->.
  { unfold binade, pow2_le. change (Z.log2 1) with 0. rewrite Z.sub_0_r.
    rewrite (proj2 (Z.leb_le 0 _)) by done.
    by rewrite (proj2 (Z.leb_le _ _)) by lia. }
  rewrite Z.max_l by lia.
  set (e := Z.log2 (Z.abs z)) in *.
  assert ((1023 <? e) = false) as -> by (apply Z.ltb_ge; lia).
  assert ((e =? 1023) = false) as -> by (apply Z.eqb_neq; lia).
  cbn [orb andb]. f_equal. unfold scale2.
  destruct (0 <=? e - 52) eqn:Hsh.
  - apply Z.leb_le in Hsh. assert (e - 52 = 0) as -> by lia.
    change (2 ^ 0) with 1. rewrite Z.mul_1_r, round_half_even_1.
    f_equal. lia.
  - apply Z.leb_gt in Hsh. rewrite round_half_even_1.
    assert (0 < 2 ^ (- (e - 52))) as Hpow by (apply Z.pow_pos_nonneg; lia).
    rewrite <- Qred_inject_Z. apply Qred_complete.
    unfold Qeq, inject_Z. cbn [Qnum Qden].
    rewrite Z2Pos.id by done. lia.
Qed.

End JsFacts.

(** ** Regular expressions: the matcher decides the words of a pattern *)

Module RegexFacts.
Import Regex.

Lemma nullable_Matches r : nullable r = true ↔ Matches r EmptyString.
Proof.
  induction r as [| |p|r1 IH1 r2 IH2|r1 IH1 r2 IH2|r IH]; simpl.
  - split; [done|]. inversion 1.
  - split; [constructor|done].
  - split; [done|]. inversion 1.
  - rewrite andb_true_iff, IH1, IH2. split.
    + intros [H1 H2]. apply (M_seq _ _ _ _ H1 H2).
    + inversion 1 as [| |? ? s1 s2 H1 H2 E1 E2| | | |]; subst.
      apply string_app_eq_nil in E2 as [-> ->]. done.
  - rewrite orb_true_iff, IH1, IH2. split.
    + intros [H|H]; [by apply M_alt_l|by apply M_alt_r].
    + inversion 1; subst; auto.
  - split; [constructor|done].
Qed.

(** A non-empty word of [Star r] starts with a non-empty word of [r]. *)
Lemma star_cons_inv r c s :
  Matches (Star r) (String c s) →
  ∃ s1 s2, s = s1 +:+ s2 ∧ Matches r (String c s1) ∧ Matches (Star r) s2.
Proof.
  intros H. remember (Star r) as r' eqn:Er. remember (String c s) as w eqn:Ew.
  revert s Ew.
  induction H as [| | | | | |r0 s1 s2 H1 _ H2 IH2]; try discriminate.
  injection Er as ->. intros s Ew.
  apply string_app_eq_cons in Ew as [[-> ->]|(s1' & -> & ->)].
  - by apply IH2.
  - by exists s1', s2.
Qed.

Lemma deriv_Matches c r s : Matches (deriv c r) s ↔ Matches r (String c s).
Proof.
  revert s.
  induction r as [| |p|r1 IH1 r2 IH2|r1 IH1 r2 IH2|r IH]; intros s; simpl.
  - split; inversion 1.
  - split; inversion 1.
  - destruct (p c) eqn:Hp; split.
    + inversion 1; subst. by constructor.
    + inversion 1; subst. constructor.
    + inversion 1.
    + inversion 1; subst. congruence.
  - assert (Matches (Seq (deriv c r1) r2) s ↔
            ∃ s1 s2, s = s1 +:+ s2 ∧ Matches r1 (String c s1) ∧ Matches r2 s2)
      as Hseq.
    { split.
      - inversion 1 as [| |? ? s1 s2 H1 H2| | | |]; subst.
        exists s1, s2. by rewrite <- IH1.
      - intros (s1 & s2 & -> & H1 & H2). constructor; [by apply IH1|done]. }
    split.
    + intros H.
      assert (Matches (Seq (deriv c r1) r2) s ∨
              (nullable r1 = true ∧ Matches (deriv c r2) s)) as [H'|[Hn H']].
      { destruct (nullable r1); [|by left].
        inversion H; subst; [by left|by right]. }
      * apply Hseq in H' as (s1 & s2 & -> & H1 & H2).
        rewrite <- string_app_cons. by constructor.
      * rewrite <- (string_app_nil_l (String c s)).
        constructor; [by apply nullable_Matches|by apply IH2].
    + inversion 1 as [| |? ? s1 s2 H1 H2 E1 E2| | | |]; subst.
      apply string_app_eq_cons in E2 as [[-> ->]|(s1' & -> & ->)].
      * apply nullable_Matches in H1 as Hn. rewrite Hn.
        apply M_alt_r. by apply IH2.
      * assert (Matches (Seq (deriv c r1) r2) (s1' +:+ s2)) as H'.
        { apply Hseq. by exists s1', s2. }
        destruct (nullable r1); [by apply M_alt_l|done].
  - split.
    + inversion 1; subst; [apply M_alt_l|apply M_alt_r]; [by apply IH1|by apply IH2].
    + inversion 1; subst; [apply M_alt_l|apply M_alt_r]; [by apply IH1|by apply IH2].
  - split.
    + inversion 1 as [| |? ? s1 s2 H1 H2| | | |]; subst.
      rewrite <- string_app_cons. constructor; [by apply IH|done].
    + intros (s1 & s2 & -> & H1 & H2)%star_cons_inv.
      constructor; [by apply IH|done].
Qed.

Lemma test_Matches r s : test r s = true ↔ Matches r s.
Proof.
  revert r. induction s as [|c s IH]; intros r; simpl.
  - apply nullable_Matches.
  - rewrite IH. apply deriv_Matches.
Qed.

End RegexFacts.

(** ** The strict number pattern *)

Module StrictNumberFacts.
Import Js Regex Shape.

Lemma Matches_star_class p s : Matches (Star (Class p)) s ↔ every p s = true.
Proof.
  split.
  - induction s as [|c s IH]; [done|].
    intros (s1 & s2 & -> & H1 & H2)%RegexFacts.star_cons_inv.
    inversion H1; subst. simpl. rewrite string_app_nil_l in IH.
    apply andb_true_iff. auto.
  - induction s as [|c s IH]; simpl; [constructor|].
    intros [Hc Hs]%andb_true_iff.
    change (String c s) with (String c EmptyString +:+ s).
    constructor; [by constructor|auto].
Qed.

Lemma Matches_plus_class p s :
  Matches (Plus (Class p)) s ↔ s ≠ EmptyString ∧ every p s = true.
Proof.
  unfold Plus. split.
  - inversion 1 as [| |? ? s1 s2 H1 H2| | | |]; subst.
    inversion H1; subst. rewrite string_app_cons, string_app_nil_l.
    split; [done|]. simpl. apply andb_true_iff. split; [done|].
    by apply Matches_star_class.
  - destruct s as [|c s]; [by intros [? _]|].
    simpl. intros [_ [Hc Hs]%andb_true_iff].
    change (String c s) with (String c EmptyString +:+ s).
    constructor; [by constructor|by apply Matches_star_class].
Qed.

Lemma Matches_opt r s : Matches (Opt r) s ↔ s = EmptyString ∨ Matches r s.
Proof.
  unfold Opt. split.
  - inversion 1 as [| | |? ? ? H1|? ? ? H1| |]; subst; [by right|].
    inversion H1. by left.
  - intros [->|H]; [apply M_alt_r; constructor|by apply M_alt_l].
Qed.

Lemma Matches_chr c s : Matches (Chr c) s ↔ s = chr c.
Proof.
  unfold Chr. split.
  - inversion 1 as [|? c' Hc| | | | |]; subst.
    by apply Ascii.eqb_eq in Hc as ->.
  - intros ->. constructor. apply Ascii.eqb_refl.
Qed.

Lemma Matches_seq r1 r2 s :
  Matches (Seq r1 r2) s ↔ ∃ s1 s2, s = s1 +:+ s2 ∧ Matches r1 s1 ∧ Matches r2 s2.
Proof.
  split.
  - inversion 1; subst. eauto.
  - intros (s1 & s2 & -> & H1 & H2). by constructor.
Qed.

(** The pattern of the source denotes the strict decimals. *)
Lemma strict_number_shape s :
  Regex.test MlMapper.strict_number s = true ↔ strict_decimal s.
Proof.
  rewrite RegexFacts.test_Matches. unfold MlMapper.strict_number, strict_decimal, digits.
  rewrite Matches_seq. split.
  - intros (sign & rest & -> & Hsign & Hrest).
    apply Matches_seq in Hrest as (int & frac & -> & Hint & Hfrac).
    exists sign, int, frac. split; [done|].
    apply Matches_opt in Hsign. rewrite Matches_chr in Hsign.
    apply Matches_plus_class in Hint.
    apply Matches_opt in Hfrac. repeat split; try tauto.
    destruct Hfrac as [->|Hfrac]; [by left|right].
    apply Matches_seq in Hfrac as (dot & f & -> & ->%Matches_chr & Hf).
    exists f. by apply Matches_plus_class in Hf.
  - intros (sign & int & frac & -> & Hsign & Hint & Hfrac).
    exists sign, (int +:+ frac). split; [done|]. split.
    + apply Matches_opt. rewrite Matches_chr. done.
    + apply Matches_seq. exists int, frac. split; [done|]. split.
      * by apply Matches_plus_class.
      * apply Matches_opt. destruct Hfrac as [->|(f & -> & Hf)]; [by left|right].
        apply Matches_seq. exists ".", f. split; [done|].
        split; [by apply Matches_chr|by apply Matches_plus_class].
Qed.

End StrictNumberFacts.

(** ** The value of a strict decimal *)

Module StrictValueFacts.
Import Js Shape.

Lemma digit_cases d :
  is_digit d = true →
  d = "0"%char ∨ d = "1"%char ∨ d = "2"%char ∨ d = "3"%char ∨ d = "4"%char
  ∨ d = "5"%char ∨ d = "6"%char ∨ d = "7"%char ∨ d = "8"%char ∨ d = "9"%char.
Proof.
  destruct d as [[] [] [] [] [] [] [] []]; intros Hd; vm_compute in Hd;
    try discriminate Hd; tauto.
Qed.

Ltac digit_cases d Hd :=
  destruct (digit_cases d Hd)
    as [->|[->|[->|[->|[->|[->|[->|[->|[->| ->]]]]]]]]].

Lemma digit_not_white d : is_digit d = true → is_white d = false.
Proof. intros Hd. digit_cases d Hd; reflexivity. Qed.

Lemma drop_white_keeps c s : is_white c = false → drop_white (String c s) = String c s.
Proof. intros Hc. simpl. by rewrite Hc. Qed.

(** Trimming does nothing to a string that neither starts nor ends with
    white space. *)
Lemma trim_id c s before l :
  String c s = before +:+ chr l →
  is_white c = false → is_white l = false →
  trim (String c s) = String c s.
Proof.
  intros Heq Hc Hl. unfold trim.
  rewrite drop_white_keeps by done.
  rewrite Heq, string_rev_snoc, drop_white_keeps by done.
  by rewrite <- string_rev_snoc, string_rev_involutive.
Qed.

Lemma every_last p s :
  s ≠ EmptyString → every p s = true →
  ∃ before l, s = before +:+ chr l ∧ p l = true.
Proof.
  induction s as [|c s IH]; [done|]. intros _ [Hc Hs]%andb_true_iff.
  destruct s as [|c' s].
  - by exists EmptyString, c.
  - destruct IH as (before & l & Heq & Hl); [done|done|].
    exists (String c before), l. by rewrite Heq.
Qed.

Lemma span_every p a b :
  every p a = true →
  (b = EmptyString ∨ ∃ c b', b = String c b' ∧ p c = false) →
  span p (a +:+ b) = (a, b).
Proof.
  intros Ha Hb. induction a as [|x a IH].
  - rewrite string_app_nil_l. destruct Hb as [->|(c & b' & -> & Hc)]; [done|].
    simpl. by rewrite Hc.
  - apply andb_true_iff in Ha as [Hx Ha].
    rewrite string_app_cons. simpl. by rewrite Hx, IH.
Qed.

Lemma non_decimal_literal_digit d s :
  is_digit d = true →
  (s = EmptyString
   ∨ ∃ k s', s = String k s' ∧ (is_digit k = true ∨ k = "."%char)) →
  non_decimal_literal (String d s) = None.
Proof.
  intros Hd Hs. digit_cases d Hd; try reflexivity.
  destruct Hs as [->|(k & s' & -> & [Hk| ->])]; try reflexivity.
  digit_cases k Hk; reflexivity.
Qed.

Lemma decimal_literal_digit d s :
  is_digit d = true →
  decimal_literal (String d s)
  = match unsigned_decimal (String d s) with
    | Some q => to_double q
    | None => NaN
    end.
Proof. intros Hd. digit_cases d Hd; reflexivity. Qed.

Lemma unsigned_decimal_strict int frac :
  digits int →
  (frac = EmptyString ∨ every is_digit frac = true) →
  unsigned_decimal
    (int +:+ (if is_empty frac then EmptyString else "." +:+ frac))
  = Some (scale10 (decimal_value (int +:+ frac))
                  (- Z.of_nat (String.length frac))).
Proof.
  intros [Hne Hint] Hfrac. unfold unsigned_decimal.
  destruct frac as [|c frac].
  - cbn [is_empty]. rewrite span_every; [|done|by left].
    cbn. destruct int; [done|]. by rewrite string_app_nil_r.
  - destruct Hfrac as [?|Hfrac]; [done|].
    cbn [is_empty]. rewrite span_every; [|done|right; by eexists _, _].
    change ("." +:+ String c frac) with (String "." (String c frac)).
    cbn iota beta.
    rewrite <- (string_app_nil_r (String c frac)) at 1.
    rewrite span_every; [|done|by left].
    destruct int; [done|]. cbn [is_empty andb exponent_part]. done.
Qed.

(** A strict decimal starts with its sign or a digit and ends with a
    digit. *)
Lemma strict_body_ends int frac :
  digits int →
  (frac = EmptyString ∨ every is_digit frac = true) →
  let body := int +:+ (if is_empty frac then EmptyString else "." +:+ frac) in
  (∃ d rest, body = String d rest ∧ is_digit d = true
             ∧ (rest = EmptyString
                ∨ ∃ k s', rest = String k s'
                          ∧ (is_digit k = true ∨ k = "."%char)))
  ∧ (∃ before l, body = before +:+ chr l ∧ is_digit l = true).
Proof.
  intros Hint Hfrac body. split.
  - destruct Hint as [Hne Hint]. subst body.
    destruct int as [|d int]; [done|].
    apply andb_true_iff in Hint as [Hd Hint].
    exists d, (int +:+ (if is_empty frac then EmptyString else "." +:+ frac)).
    split; [done|]. split; [done|].
    destruct int as [|k int].
    + destruct frac; [by left|right]. eexists _, _. split; [done|]. by right.
    + apply andb_true_iff in Hint as [Hk _]. right.
      eexists _, _. split; [done|]. by left.
  - subst body. destruct frac as [|c frac].
    + destruct Hint as [Hne Hint].
      destruct (every_last _ _ Hne Hint) as (b & l & -> & Hl).
      exists b, l. by rewrite string_app_nil_r.
    + destruct Hfrac as [?|Hfrac]; [done|].
      destruct (every_last is_digit (String c frac)) as (b & l & Heq & Hl);
        [done|done|].
      exists (int +:+ "." +:+ b), l. cbn [is_empty].
      by rewrite Heq, !string_app_assoc.
Qed.

Lemma trim_strict_text negative int frac :
  digits int →
  (frac = EmptyString ∨ every is_digit frac = true) →
  trim (strict_text negative int frac) = strict_text negative int frac.
Proof.
  intros Hint Hfrac. unfold strict_text.
  destruct (strict_body_ends int frac Hint Hfrac)
    as [(d & rest & Hbody & Hd & _) (before & l & Hlast & Hl)].
  cbv zeta in Hbody, Hlast. destruct negative.
  - change ("-" +:+ ?b) with (String "-" b).
    apply (trim_id _ _ (String "-" before) l);
      [by rewrite Hlast|done|by apply digit_not_white].
  - rewrite string_app_nil_l, Hbody.
    apply (trim_id _ _ before l);
      [by rewrite <- Hbody|by apply digit_not_white|by apply digit_not_white].
Qed.

(** The numeric coercion of a strict decimal is the decimal value of its
    digits, with its sign, rounded to a double. *)
Lemma Number_of_strict_decimal negative int frac :
  digits int →
  (frac = EmptyString ∨ every is_digit frac = true) →
  Number_of_string (strict_text negative int frac)
  = decimal_number negative int frac.
Proof.
  intros Hint Hfrac. unfold Number_of_string.
  rewrite trim_strict_text by done. unfold strict_text.
  destruct (strict_body_ends int frac Hint Hfrac)
    as [(d & rest & Hbody & Hd & Hrest) _].
  cbv zeta in Hbody.
  pose proof (unsigned_decimal_strict int frac Hint Hfrac) as Hvalue.
  unfold decimal_number. destruct negative.
  - change ("-" +:+ ?b) with (String "-" b).
    cbn [is_empty non_decimal_literal decimal_literal].
    rewrite Hbody. digit_cases d Hd; cbn; rewrite <- Hbody, Hvalue; done.
  - rewrite string_app_nil_l, Hbody.
    cbn [is_empty]. rewrite non_decimal_literal_digit by done.
    rewrite decimal_literal_digit by done. by rewrite <- Hbody, Hvalue.
Qed.

(** The strict decimals are the texts of this form. *)
Lemma strict_decimal_text s :
  strict_decimal s ↔
  ∃ negative int frac,
    s = strict_text negative int frac
    ∧ digits int ∧ (frac = EmptyString ∨ every is_digit frac = true).
Proof.
  unfold strict_decimal, strict_text. split.
  - intros (sign & int & frac & -> & Hsign & Hint & Hfrac).
    exists (negb (is_empty sign)), int.
    destruct Hfrac as [->|(f & -> & Hne & Hf)].
    + exists EmptyString. split; [|split; [done|by left]].
      by destruct Hsign as [-> | ->].
    + exists f. split; [|split; [done|by right]].
      destruct f; [done|]. by destruct Hsign as [-> | ->].
  - intros (negative & int & frac & -> & Hint & Hfrac).
    exists (if negative then "-" else EmptyString), int,
           (if is_empty frac then EmptyString else "." +:+ frac).
    split; [done|]. split; [destruct negative; auto|]. split; [done|].
    destruct frac as [|c frac]; [by left|right].
    exists (String c frac). split; [done|]. split; [done|].
    by destruct Hfrac.
Qed.

End StrictValueFacts.

(** ** The prediction payload *)

Module MlMapperFacts.
Import Js Shape MlMapper.

Lemma filter_non_null_map {A B} (f : A → option B) (l : list A) :
  filter_non_null (f <$> l) = omap f l.
Proof.
  unfold filter_non_null. induction l as [|x l IH]; [done|].
  csimpl. rewrite IH. by destruct (f x).
Qed.

(** C8: [parseStrictNumber] returns a number input itself exactly when it
    is finite; it returns a value for a string input exactly when the
    trimmed string is a strict decimal (an optional minus sign, digits,
    optionally a point and digits), and the value is then the number these
    digits denote in base ten, with the sign, as a double; every other
    input gives [null].  The function is total: no input makes it throw.
    So "123" gives 123 and "-4.5" gives -4.5, while the empty string,
    "1e3", "1,000" and "123abc" give [null]. *)
Theorem parseStrictNumber_accepts_strict_decimals :
  (∀ v : value,
     match v with
     | VNum n =>
         (number_isFinite n = true ∧ parseStrictNumber v = Some n)
         ∨ (number_isFinite n = false ∧ parseStrictNumber v = None)
     | VStr s =>
         (strict_decimal (trim s)
          ∧ ∃ negative int frac,
              trim s = strict_text negative int frac
              ∧ digits int ∧ every is_digit frac = true
              ∧ parseStrictNumber v = Some (decimal_number negative int frac))
         ∨ (¬ strict_decimal (trim s) ∧ parseStrictNumber v = None)
     | _ => parseStrictNumber v = None
     end)
  ∧ parseStrictNumber (VStr "123") = Some (Fin (inject_Z 123))
  ∧ parseStrictNumber (VStr "-4.5") = Some (Fin (Qmake (-9) 2))
  ∧ parseStrictNumber (VStr EmptyString) = None
  ∧ parseStrictNumber (VStr "1e3") = None
  ∧ parseStrictNumber (VStr "1,000") = None
  ∧ parseStrictNumber (VStr "123abc") = None.
Proof.
  split; [|by vm_compute].
  intros [| | |n|s]; simpl; try done.
  - destruct (number_isFinite n); auto.
  - destruct (Regex.test strict_number (trim s)) eqn:Ht.
    + left. apply StrictNumberFacts.strict_number_shape in Ht as Hshape.
      split; [done|].
      apply StrictValueFacts.strict_decimal_text in Hshape
        as (negative & int & frac & Heq & Hint & Hfrac).
      exists negative, int, frac. split; [done|]. split; [done|].
      split; [by destruct Hfrac as [->|?]|].
      by rewrite Heq, StrictValueFacts.Number_of_strict_decimal.
    + right. split; [|done].
      intros H%StrictNumberFacts.strict_number_shape. congruence.
Qed.

Lemma prefix_spec needle hay :
  String.prefix needle hay = true ↔ ∃ after, hay = needle +:+ after.
Proof.
  revert hay. induction needle as [|a needle IH]; intros hay.
  - split; [|by destruct hay]. intros _. by exists hay.
  - destruct hay as [|b hay]; cbn [String.prefix].
    + split; [done|]. intros [after Heq]. discriminate.
    + destruct (ascii_dec a b) as [->|Hne].
      * rewrite IH. split; intros [after Heq]; exists after.
        -- by rewrite Heq.
        -- rewrite string_app_cons in Heq. by injection Heq.
      * split; [done|]. intros [after Heq].
        rewrite string_app_cons in Heq. injection Heq as -> _. done.
Qed.

(** [includes] decides whether the needle occurs in the text. *)
Lemma includes_mentions needle hay :
  includes needle hay = true ↔ mentions hay needle.
Proof.
  unfold mentions. induction hay as [|c hay IH]; cbn [includes].
  - rewrite prefix_spec. split.
    + intros [after Heq]. by exists EmptyString, after.
    + intros (before & after & Heq). destruct before; [|done]. by exists after.
  - rewrite orb_true_iff, prefix_spec, IH. split.
    + intros [[after Heq]|(before & after & Heq)].
      * by exists EmptyString, after.
      * exists (String c before), after. by rewrite Heq.
    + intros ([|c' before] & after & Heq).
      * left. by exists after.
      * right. rewrite string_app_cons in Heq. injection Heq as -> ->.
        by exists before, after.
Qed.

(** The chain of tests of [inferCategory] is the table of the
    specification, read from the top. *)
Lemma inferCategory_table name : inferCategory name = category_by_table name.
Proof.
  unfold inferCategory, category_by_table, keyword_table. cbn [List.find fst snd].
  repeat match goal with
         | |- context [includes ?k (toLowerCase name)] =>
             destruct (includes k (toLowerCase name))
         end; reflexivity.
Qed.

Lemma category_by_table_general name :
  (∀ entry, entry ∈ keyword_table → ¬ mentions (toLowerCase name) entry.1) →
  category_by_table name = "general".
Proof.
  intros Hnone. unfold category_by_table.
  destruct (List.find _ keyword_table) as [entry|] eqn:Hfind; [|done].
  apply find_some in Hfind as [Hin Hinc].
  apply includes_mentions in Hinc. destruct (Hnone entry); [|done].
  by apply list_elem_of_In.
Qed.

(** C9: the payload derived from an analysis has, as [current_price], the
    strict parse of the subject's current price, or 0 when that fails; as
    [competitor_prices], the competitor prices that parse strictly, in
    order, or the one-element list of the subject's price when none does,
    so the list is never empty; and as [category], the category inferred
    from the subject's name, which is that of the first keyword of the
    table occurring in the name.  With no competitor, an unparseable
    subject price and a name without keyword the payload is
    [{current_price: 0, competitor_prices: [0], category: "general"}]. *)
Theorem analysisToPredictPayload_spec (a : ProductAnalysis.t) :
  let subject := ProductAnalysis.userProduct a in
  let userPrice := default zero (parseStrictNumber (UserProduct.currentPrice subject)) in
  let surviving :=
    omap (λ c, parseStrictNumber (Competitor.price c))
         (default [] (ProductAnalysis.competitors a)) in
  let payload := analysisToPredictPayload a in
  PredictPayload.current_price payload = userPrice
  ∧ ((surviving ≠ [] ∧ PredictPayload.competitor_prices payload = surviving)
     ∨ (surviving = [] ∧ PredictPayload.competitor_prices payload = [userPrice]))
  ∧ PredictPayload.competitor_prices payload ≠ []
  ∧ PredictPayload.category payload = inferCategory (UserProduct.productName subject)
  ∧ PredictPayload.category payload = category_by_table (UserProduct.productName subject)
  ∧ (default [] (ProductAnalysis.competitors a) = []
     ∧ parseStrictNumber (UserProduct.currentPrice subject) = None
     ∧ (∀ entry, entry ∈ keyword_table →
          ¬ mentions (toLowerCase (UserProduct.productName subject)) entry.1)
     → payload = PredictPayload.mk zero [zero] "general").
Proof.
  intros subject userPrice surviving payload.
  unfold payload, analysisToPredictPayload. simpl.
  rewrite filter_non_null_map. fold subject surviving userPrice.
  split; [done|].
  assert ((surviving ≠ [] ∧ (if (0 <? length surviving)%nat then surviving
                               else [userPrice]) = surviving)
          ∨ (surviving = [] ∧ (if (0 <? length surviving)%nat then surviving
                               else [userPrice]) = [userPrice])) as Hcases.
  { destruct surviving; [by right|by left]. }
  split; [done|]. split.
  { destruct Hcases as [[? ->]|[_ ->]]; done. }
  split; [done|]. split; [apply inferCategory_table|].
  intros (Hnone & Hprice & Hcat).
  apply category_by_table_general in Hcat.
  rewrite <- inferCategory_table in Hcat.
  unfold surviving, userPrice, subject in *.
  rewrite Hnone, Hprice, Hcat. done.
Qed.

(** The payload of an analysis without competitors, with the subject
    price "abc" and the subject name "Lamp". *)
Lemma analysisToPredictPayload_spec_witness :
  analysisToPredictPayload
    (ProductAnalysis.mk
       (UserProduct.mk None "Lamp" (VStr "abc") None None None)
       (Some []) (Fin (inject_Z 500)) "r" "m" "h" None)
  = PredictPayload.mk zero [zero] "general".
Proof.
  apply (analysisToPredictPayload_spec
           (ProductAnalysis.mk
              (UserProduct.mk None "Lamp" (VStr "abc") None None None)
              (Some []) (Fin (inject_Z 500)) "r" "m" "h" None)).
  split; [done|]. split; [done|].
  intros entry Hin Hm. apply includes_mentions in Hm.
  unfold keyword_table in Hin.
  repeat (apply elem_of_cons in Hin as [->|Hin]; [by vm_compute in Hm|]).
  by apply elem_of_nil in Hin.
Defined.

End MlMapperFacts.

(** ** Field escaping *)

Module EscapeFacts.
Import Js Shape CsvExport.

Lemma prefix_nil s : String.prefix EmptyString s = true.
Proof. by destruct s. Qed.

Lemma includes_chr c s : includes (chr c) s = true ↔ occurs c s.
Proof.
  unfold occurs. induction s as [|x s IH].
  - simpl. split; [done|]. intros ([|? ?] & s2 & H); discriminate.
  - cbn [includes]. rewrite orb_true_iff, IH. unfold chr. cbn [String.prefix].
    rewrite prefix_nil. split.
    + intros [H|(s1 & s2 & ->)].
      * destruct (ascii_dec c x) as [->|]; [|done]. by exists EmptyString, s.
      * by exists (String x s1), s2.
    + intros ([|y s1] & s2 & H).
      * rewrite string_app_nil_l in H. injection H as -> ->.
        left. by destruct (ascii_dec c c).
      * rewrite string_app_cons in H. injection H as -> ->. right. by exists s1, s2.
Qed.

Lemma includes_chr_false c s : includes (chr c) s = false ↔ ¬ occurs c s.
Proof. rewrite <- includes_chr. by destruct (includes (chr c) s). Qed.

(** The test of [escapeCsvField] decides [plain]. *)
Lemma special_plain s :
  includes (chr comma) s || includes (chr dquote) s || includes (chr newline) s = false
  ↔ plain s.
Proof.
  unfold plain. rewrite !orb_false_iff, !includes_chr_false. tauto.
Qed.

Lemma undouble_doubled s :
  undouble (String dquote (String dquote s)) = String dquote (undouble s).
Proof. reflexivity. Qed.

Lemma undouble_other a s :
  Ascii.eqb a dquote = false → undouble (String a s) = String a (undouble s).
Proof. intros Ha. destruct s; [done|]. cbn [undouble]. by rewrite Ha. Qed.

Lemma undouble_replace_all s :
  undouble (replace_all dquote (String dquote (chr dquote)) s) = s.
Proof.
  induction s as [|a s IH]; [done|].
  cbn [replace_all]. destruct (Ascii.eqb a dquote) eqn:Ha.
  - apply Ascii.eqb_eq in Ha as ->.
    unfold chr at 1. rewrite !string_app_cons, string_app_nil_l.
    by rewrite undouble_doubled, IH.
  - by rewrite undouble_other, IH.
Qed.

Lemma unescape_quoted s :
  unescapeCsvField
    (chr dquote +:+ replace_all dquote (String dquote (chr dquote)) s +:+ chr dquote)
  = s.
Proof.
  unfold chr at 1. rewrite string_app_cons, string_app_nil_l. cbn [unescapeCsvField].
  rewrite Ascii.eqb_refl, string_rev_snoc, Ascii.eqb_refl, string_rev_involutive.
  apply undouble_replace_all.
Qed.

Lemma unescape_plain s : ¬ occurs dquote s → unescapeCsvField s = s.
Proof.
  intros Hs. destruct s as [|q body]; [done|]. cbn [unescapeCsvField].
  destruct (Ascii.eqb q dquote) eqn:Hq; [|done].
  apply Ascii.eqb_eq in Hq as ->. destruct Hs. by exists EmptyString, body.
Qed.

Lemma escapeCsvField_cases field :
  field ≠ VNull → field ≠ VUndefined →
  (plain (to_string field) ∧ escapeCsvField field = to_string field)
  ∨ (¬ plain (to_string field) ∧ escapeCsvField field = quoted_form (to_string field)).
Proof.
  intros H1 H2.
  assert (escapeCsvField field =
    if includes (chr comma) (to_string field)
       || includes (chr dquote) (to_string field)
       || includes (chr newline) (to_string field)
    then quoted_form (to_string field)
    else to_string field) as -> by (by destruct field).
  destruct (includes (chr comma) (to_string field)
            || includes (chr dquote) (to_string field)
            || includes (chr newline) (to_string field)) eqn:Hs.
  - right. split; [|done]. intros Hp%special_plain. congruence.
  - left. split; [|done]. by apply special_plain.
Qed.

(** C6: [escapeCsvField] gives the empty string for [null] and
    [undefined]; otherwise it gives the string form of the field as it is
    when neither a comma, nor a double quote, nor a newline occurs in it,
    and else that string form with every double quote doubled, enclosed in
    double quotes.  Undoing the rule gives back every string.  The field
    [a,b] comes out enclosed in quotes, and the field [he said] followed
    by [hi] in quotes comes out with the two inner quotes doubled and the
    whole enclosed in quotes. *)
Theorem escapeCsvField_round_trip :
  (∀ field : value,
     match field with
     | VNull | VUndefined => escapeCsvField field = EmptyString
     | _ =>
         (plain (to_string field) ∧ escapeCsvField field = to_string field)
         ∨ (¬ plain (to_string field)
            ∧ escapeCsvField field
              = chr dquote
                +:+ replace_all dquote (chr dquote +:+ chr dquote) (to_string field)
                +:+ chr dquote)
     end)
  ∧ (∀ s : string, unescapeCsvField (escapeCsvField (VStr s)) = s)
  ∧ escapeCsvField (VStr "a,b") = chr dquote +:+ "a,b" +:+ chr dquote
  ∧ escapeCsvField (VStr ("he said " +:+ chr dquote +:+ "hi" +:+ chr dquote))
    = chr dquote +:+ "he said "
      +:+ chr dquote +:+ chr dquote +:+ "hi" +:+ chr dquote +:+ chr dquote
      +:+ chr dquote.
Proof.
  split; [|split; [|by vm_compute]].
  - intros [| |b|n|s]; try done; by apply escapeCsvField_cases.
  - intros s. destruct (escapeCsvField_cases (VStr s)) as [[Hp ->]|[_ ->]]; try done.
    + apply unescape_plain, Hp.
    + apply unescape_quoted.
Qed.

End EscapeFacts.

(** ** Reading back what the exporter writes *)

Module ReadingFacts.
Import Js Shape CsvExport.

Lemma every_app p s t : every p (s +:+ t) = every p s && every p t.
Proof.
  induction s as [|c s IH]; [done|].
  rewrite string_app_cons. simpl. by rewrite IH, andb_assoc.
Qed.

Lemma every_impl (p q : ascii → bool) s :
  (∀ c, p c = true → q c = true) → every p s = true → every q s = true.
Proof.
  intros Hpq. induction s as [|c s IH]; [done|]. simpl.
  intros [Hc Hs]%andb_true_iff. apply andb_true_iff. auto.
Qed.

Lemma includes_chr_every c s :
  includes (chr c) s = false ↔ every (λ x, negb (Ascii.eqb x c)) s = true.
Proof.
  induction s as [|x s IH]; [done|].
  cbn [includes every]. unfold chr at 1. cbn [String.prefix].
  rewrite EscapeFacts.prefix_nil, orb_false_iff, andb_true_iff, IH.
  destruct (ascii_dec c x) as [->|Hne].
  - rewrite Ascii.eqb_refl. simpl. intuition discriminate.
  - assert (Ascii.eqb x c = false) as -> by (apply Ascii.eqb_neq; congruence).
    simpl. tauto.
Qed.

Lemma every_and p q s :
  every (λ c, p c && q c) s = every p s && every q s.
Proof.
  induction s as [|c s IH]; [done|]. simpl. rewrite IH.
  destruct (p c), (q c), (every p s), (every q s); done.
Qed.

Lemma plain_ordinary s : plain s ↔ every ordinary s = true.
Proof.
  rewrite <- EscapeFacts.special_plain. unfold ordinary.
  rewrite !every_and, !andb_true_iff, !orb_false_iff, !includes_chr_every. tauto.
Qed.

Lemma ordinary_state s inside :
  every ordinary s = true → quote_state inside s = inside.
Proof.
  revert inside. induction s as [|c s IH]; intros inside; [done|]. simpl.
  intros [Hc Hs]%andb_true_iff. unfold ordinary in Hc.
  destruct (Ascii.eqb c dquote); [by rewrite !andb_false_r in Hc; simpl in Hc|].
  by apply IH.
Qed.

Lemma ordinary_sep_free sep s inside :
  sep = comma ∨ sep = newline →
  every ordinary s = true → sep_free sep inside s = true.
Proof.
  intros Hsep. revert inside.
  induction s as [|c s IH]; intros inside; [done|]. simpl.
  intros [Hc Hs]%andb_true_iff. unfold ordinary in Hc.
  apply andb_true_iff in Hc as [[Hc1 Hc2]%andb_true_iff Hc3].
  apply negb_true_iff in Hc1, Hc2, Hc3. rewrite Hc2.
  destruct Hsep as [-> | ->]; rewrite ?Hc1, ?Hc3; simpl; by apply IH.
Qed.

Lemma ordinary_closed sep s :
  sep = comma ∨ sep = newline → every ordinary s = true → closed sep s.
Proof.
  intros Hsep Hs. split; [by apply ordinary_sep_free|by apply ordinary_state].
Qed.

Lemma quote_state_app inside s t :
  quote_state inside (s +:+ t) = quote_state (quote_state inside s) t.
Proof.
  revert inside. induction s as [|c s IH]; intros inside; [done|].
  rewrite string_app_cons. simpl. apply IH.
Qed.

Lemma sep_free_app sep inside s t :
  sep_free sep inside (s +:+ t)
  = sep_free sep inside s && sep_free sep (quote_state inside s) t.
Proof.
  revert inside. induction s as [|c s IH]; intros inside; [done|].
  rewrite string_app_cons. simpl.
  destruct (Ascii.eqb c dquote); [apply IH|].
  destruct (Ascii.eqb c sep && negb inside); [done|apply IH].
Qed.

(** Inside quotes, text with its quotes doubled keeps the reader inside
    and shows it no separator. *)
Lemma doubled_inside sep s :
  sep_free sep true (replace_all dquote (String dquote (chr dquote)) s) = true
  ∧ quote_state true (replace_all dquote (String dquote (chr dquote)) s) = true.
Proof.
  induction s as [|c s [IH1 IH2]]; [done|].
  cbn [replace_all]. destruct (Ascii.eqb c dquote) eqn:Hc.
  - unfold chr at 1 3. rewrite !string_app_cons, string_app_nil_l. simpl. done.
  - simpl. rewrite Hc. simpl. rewrite andb_false_r. done.
Qed.

Lemma quoted_form_closed sep s :
  Ascii.eqb sep dquote = false → closed sep (quoted_form s).
Proof.
  intros Hsep. destruct (doubled_inside sep s) as [H1 H2].
  unfold quoted_form.
  change (chr dquote +:+ chr dquote) with (String dquote (chr dquote)).
  unfold chr at 1. rewrite string_app_cons, string_app_nil_l. split.
  - cbn [sep_free]. rewrite Ascii.eqb_refl. cbn [negb].
    rewrite sep_free_app, H1, H2. done.
  - cbn [quote_state]. rewrite Ascii.eqb_refl. cbn [negb].
    rewrite quote_state_app, H2. done.
Qed.

Lemma escapeCsvField_closed sep field :
  sep = comma ∨ sep = newline → closed sep (escapeCsvField field).
Proof.
  intros Hsep.
  assert (∀ f, f ≠ VNull → f ≠ VUndefined → closed sep (escapeCsvField f)) as H.
  { intros f H1 H2.
    destruct (EscapeFacts.escapeCsvField_cases f H1 H2) as [[Hp ->]|[_ ->]].
    - by apply ordinary_closed, plain_ordinary.
    - apply quoted_form_closed. by destruct Hsep as [-> | ->]. }
  destruct field; [done|done|by apply H..].
Qed.

Lemma cons_first_prepend c s pieces :
  cons_first c (prepend s pieces) = prepend (String c s) pieces.
Proof. by destruct pieces. Qed.

Lemma split_outside_nonempty sep inside s : split_outside sep inside s ≠ [].
Proof.
  revert inside. induction s as [|c s IH]; intros inside; [done|]. simpl.
  destruct (Ascii.eqb c dquote).
  - specialize (IH (negb inside)). by destruct (split_outside sep (negb inside) s).
  - destruct (Ascii.eqb c sep && negb inside); [done|].
    specialize (IH inside). by destruct (split_outside sep inside s).
Qed.

Lemma split_outside_app sep inside s rest :
  sep_free sep inside s = true →
  split_outside sep inside (s +:+ rest)
  = prepend s (split_outside sep (quote_state inside s) rest).
Proof.
  revert inside. induction s as [|c s IH]; intros inside Hs.
  - rewrite string_app_nil_l. simpl.
    pose proof (split_outside_nonempty sep inside rest).
    by destruct (split_outside sep inside rest).
  - rewrite string_app_cons. simpl in *.
    destruct (Ascii.eqb c dquote).
    + by rewrite IH, cons_first_prepend.
    + destruct (Ascii.eqb c sep && negb inside); [done|].
      by rewrite IH, cons_first_prepend.
Qed.

Lemma split_outside_closed sep s :
  closed sep s → split_outside sep false s = [s].
Proof.
  intros [H1 H2]. rewrite <- (string_app_nil_r s) at 1.
  rewrite split_outside_app by done. rewrite H2. simpl. by rewrite string_app_nil_r.
Qed.

(** Joining well-formed fields and reading the line back gives the
    fields. *)
Lemma split_outside_join sep field fields :
  Ascii.eqb sep dquote = false →
  Forall (closed sep) (field :: fields) →
  split_outside sep false (join (chr sep) (field :: fields)) = field :: fields.
Proof.
  intros Hsep. revert field.
  induction fields as [|g fields IH]; intros field Hall.
  - apply split_outside_closed. by inversion Hall.
  - inversion Hall as [|? ? [H1 H2] Hrest]; subst.
    change (join (chr sep) (field :: g :: fields))
      with (field +:+ chr sep +:+ join (chr sep) (g :: fields)).
    rewrite split_outside_app by done. rewrite H2.
    unfold chr at 1. rewrite string_app_cons, string_app_nil_l.
    cbn [split_outside]. rewrite Hsep, Ascii.eqb_refl. cbn [andb negb prepend].
    rewrite IH by done. by rewrite string_app_nil_r.
Qed.

(** A line of fields that are well formed for the newline is itself well
    formed for the newline. *)
Lemma join_closed_newline fields :
  Forall (closed newline) fields → closed newline (join (chr comma) fields).
Proof.
  induction fields as [|f fields IH]; [done|].
  intros Hall. inversion Hall as [|? ? [H1 H2] Hrest]; subst.
  destruct fields as [|g fields]; [done|].
  change (join (chr comma) (f :: g :: fields))
    with (f +:+ chr comma +:+ join (chr comma) (g :: fields)).
  destruct (IH Hrest) as [IH1 IH2].
  split.
  - rewrite sep_free_app, H1, H2. unfold chr at 1. rewrite string_app_cons, string_app_nil_l.
    simpl. done.
  - rewrite quote_state_app, H2. unfold chr at 1. rewrite string_app_cons, string_app_nil_l.
    simpl. done.
Qed.

End ReadingFacts.

(** ** The full CSV export *)

Module ExportFacts.
Import Js Shape CsvExport Sample.

Lemma digit_char_is_digit d : (0 ≤ d < 10)%Z → is_digit (digit_char d) = true.
Proof.
  intros Hd.
  assert (d = 0 ∨ d = 1 ∨ d = 2 ∨ d = 3 ∨ d = 4 ∨ d = 5 ∨ d = 6 ∨ d = 7
          ∨ d = 8 ∨ d = 9)%Z as Hcases by lia.
  repeat (destruct Hcases as [->|Hcases]; [reflexivity|]). by subst.
Qed.

Lemma decimal_digits_every fuel z acc :
  every is_digit acc = true → every is_digit (decimal_digits fuel z acc) = true.
Proof.
  revert z acc. induction fuel as [|fuel IH]; intros z acc Hacc; [done|].
  cbn [decimal_digits].
  assert (every is_digit (String (digit_char (z mod 10)) acc) = true) as Hacc'.
  { cbn [every]. rewrite Hacc, digit_char_is_digit; [done|].
    apply Z.mod_pos_bound. lia. }
  destruct (z / 10 =? 0)%Z; [done|by apply IH].
Qed.

Lemma nat_to_string_digits n : every is_digit (nat_to_string n) = true.
Proof. by apply decimal_digits_every. Qed.

Lemma is_digit_ordinary c : is_digit c = true → ordinary c = true.
Proof.
  unfold is_digit. intros [H1 H2]%andb_true_iff.
  apply Nat.leb_le in H1, H2.
  unfold ordinary, comma, dquote, newline.
  rewrite !andb_true_iff, !negb_true_iff, !Ascii.eqb_neq.
  repeat split; intros ->; vm_compute in H1, H2; lia.
Qed.

Lemma competitorHeaderGroup_ordinary i :
  Forall (λ h, every ordinary h = true) (competitorHeaderGroup i).
Proof.
  assert (every ordinary (nat_to_string i) = true) as Hi.
  { eapply ReadingFacts.every_impl; [apply is_digit_ordinary|].
    apply nat_to_string_digits. }
  unfold competitorHeaderGroup.
  repeat constructor; rewrite !ReadingFacts.every_app, Hi; done.
Qed.

Lemma headers_ordinary m : Forall (λ h, every ordinary h = true) (headers m).
Proof.
  unfold headers, competitorHeaders. apply Forall_app. split.
  - repeat constructor.
  - apply Forall_join, Forall_fmap, Forall_forall. intros i _.
    apply competitorHeaderGroup_ordinary.
Qed.

(** Groups of equal length, flattened: the position of a member. *)
Lemma lookup_join_groups {A} (n : nat) (groups : list (list A)) (i j : nat) :
  Forall (λ g, length g = n) groups → j < n →
  mjoin groups !! (n * i + j) = groups !! i ≫= (λ g, g !! j).
Proof.
  intros Hall Hj. revert i.
  induction Hall as [|g groups Hg Hall IH]; intros i; [done|].
  change (mjoin (g :: groups)) with (g ++ mjoin groups). destruct i as [|i].
  - rewrite Nat.mul_0_r, Nat.add_0_l. rewrite lookup_app_l by lia. done.
  - rewrite lookup_app_r by lia.
    replace (n * S i + j - length g) with (n * i + j) by lia.
    apply IH.
Qed.

Lemma length_join_groups {A} (n : nat) (groups : list (list A)) :
  Forall (λ g, length g = n) groups → length (mjoin groups) = n * length groups.
Proof.
  induction 1 as [|g groups Hg Hall IH]; [simpl; lia|].
  change (mjoin (g :: groups)) with (g ++ mjoin groups).
  rewrite length_app, IH, Hg. simpl. lia.
Qed.

Lemma length_competitorHeaders m : length (competitorHeaders m) = 4 * m.
Proof.
  unfold competitorHeaders.
  rewrite (length_join_groups 4), length_fmap, length_seq; [done|].
  apply Forall_fmap, Forall_forall. done.
Qed.

Lemma competitorRowGroup_length cs i : length (competitorRowGroup cs i) = 4.
Proof. unfold competitorRowGroup. by destruct (cs ≫= _). Qed.

Lemma length_competitorRowData m a : length (competitorRowData m a) = 4 * m.
Proof.
  unfold competitorRowData.
  rewrite (length_join_groups 4), length_fmap, length_seq; [done|].
  apply Forall_fmap, Forall_forall. intros i _. apply competitorRowGroup_length.
Qed.

Lemma rowFields_closed sep m a :
  sep = comma ∨ sep = newline → Forall (closed sep) (rowFields m a).
Proof.
  intros Hsep. unfold rowFields, baseRow, competitorRowData.
  apply Forall_app. split.
  - repeat (constructor; [by apply ReadingFacts.escapeCsvField_closed|]).
    constructor.
  - apply Forall_join, Forall_fmap, Forall_forall. intros i _.
    unfold compose, competitorRowGroup.
    destruct (ProductAnalysis.competitors a ≫= _) as [c|].
    + repeat (constructor; [by apply ReadingFacts.escapeCsvField_closed|]).
      constructor.
    + repeat (constructor; [done|]). constructor.
Qed.

Lemma rowFields_nonempty m a : ∃ f fs, rowFields m a = f :: fs.
Proof. unfold rowFields, baseRow. simpl. eauto. Qed.

Lemma headers_nonempty m : ∃ h hs, headers m = h :: hs.
Proof. unfold headers, baseHeaders. simpl. eauto. Qed.

(** Reading a written line gives back its fields. *)
Lemma read_line fields :
  fields ≠ [] → Forall (closed comma) fields →
  split_outside comma false (join (chr comma) fields) = fields.
Proof.
  destruct fields as [|f fs]; [done|]. intros _ Hall.
  by apply ReadingFacts.split_outside_join.
Qed.

(** Reading a written text gives back its lines. *)
Lemma read_lines lines :
  lines ≠ [] → Forall (closed newline) lines →
  split_outside newline false (join (chr newline) lines) = lines.
Proof.
  destruct lines as [|l ls]; [done|]. intros _ Hall.
  by apply ReadingFacts.split_outside_join.
Qed.

Lemma csv_records_export h hs (rows : list (list string)) :
  Forall (λ f, every ordinary f = true) (h :: hs) →
  Forall (λ r, r ≠ [] ∧ Forall (closed comma) r ∧ Forall (closed newline) r) rows →
  csv_records (join (chr newline)
                 (join (chr comma) (h :: hs) :: (join (chr comma) <$> rows)))
  = (h :: hs) :: rows.
Proof.
  intros Hh Hrows. unfold csv_records.
  assert (∀ sep, sep = comma ∨ sep = newline → Forall (closed sep) (h :: hs)) as Hhc.
  { intros sep Hsep. eapply Forall_impl; [exact Hh|].
    intros f Hf. by apply ReadingFacts.ordinary_closed. }
  rewrite read_lines; [|done|].
  - rewrite fmap_cons, read_line; [|done|by apply Hhc; left]. f_equal.
    rewrite <- list_fmap_compose.
    induction Hrows as [|r rows (Hne & Hc & _) _ IH]; [done|].
    rewrite fmap_cons. unfold compose at 1. by rewrite read_line, IH.
  - constructor.
    + apply ReadingFacts.join_closed_newline. apply Hhc. by right.
    + apply Forall_fmap. eapply Forall_impl; [exact Hrows|].
      intros r (_ & _ & Hn). by apply ReadingFacts.join_closed_newline.
Qed.

(** C7: for a result set that is not empty, with [max] the largest number
    of competitors of an analysis in the whole set, the header of the full
    CSV export is the six base columns followed by the four columns
    [Competitor N Name], [Competitor N Price], [Competitor N Stock Status]
    and [Competitor N Price Trend] for [N] from 1 to [max], so [6 + 4 * max]
    columns; every row has as many fields as the header, and in a row of an
    analysis with fewer competitors the groups past its own are four empty
    strings each.  The text handed to the download, read back by the
    quoting rule, has exactly these fields, line by line. *)
Theorem exportToCsv_uniform_columns
    (first : ProductAnalysis.t) (others : AnalysisResult) :
  let data := first :: others in
  let max := maxCompetitors data in
  (∀ a, a ∈ data → competitorCount a ≤ max)
  ∧ (∃ a, a ∈ data ∧ competitorCount a = max)
  ∧ take 6 (headers max)
    = [ "Product Name"; "Current Price"; "Suggested Price"; "Market Summary";
        "Historical Price Analysis"; "Reasoning" ]
  ∧ length (headers max) = 6 + 4 * max
  ∧ (∀ N, 1 ≤ N ≤ max →
       headers max !! (6 + 4 * (N - 1))
       = Some ("Competitor " +:+ nat_to_string N +:+ " Name")
       ∧ headers max !! (6 + 4 * (N - 1) + 1)
         = Some ("Competitor " +:+ nat_to_string N +:+ " Price")
       ∧ headers max !! (6 + 4 * (N - 1) + 2)
         = Some ("Competitor " +:+ nat_to_string N +:+ " Stock Status")
       ∧ headers max !! (6 + 4 * (N - 1) + 3)
         = Some ("Competitor " +:+ nat_to_string N +:+ " Price Trend"))
  ∧ (∀ a, a ∈ data →
       length (rowFields max a) = length (headers max)
       ∧ ∀ i j, competitorCount a ≤ i < max → j < 4 →
           rowFields max a !! (6 + 4 * i + j) = Some EmptyString)
  ∧ ∃ content,
      exportToCsv data = Some content
      ∧ csv_records content = headers max :: (rowFields max <$> data).
Proof.
  intros data max.
  assert (length (headers max) = 6 + 4 * max) as Hlen.
  { unfold headers. by rewrite length_app, length_competitorHeaders. }
  split.
  { intros a Ha. apply max_list_elem_of_le. by apply list_elem_of_fmap_2. }
  split.
  { assert (max_list (competitorCount <$> data) ∈ competitorCount <$> data) as Hmax
      by (by apply max_list_elem_of).
    apply list_elem_of_fmap in Hmax as (a & Ha & Hin).
    exists a. split; [done|]. symmetry. exact Ha. }
  split; [done|]. split; [done|]. split.
  { intros N HN.
    assert (∀ j, j < 4 →
              headers max !! (6 + 4 * (N - 1) + j) = competitorHeaderGroup N !! j)
      as Hgroup.
    { intros j Hj. unfold headers, competitorHeaders.
      rewrite lookup_app_r by (simpl; lia).
      replace (6 + 4 * (N - 1) + j - length baseHeaders) with (4 * (N - 1) + j)
        by (simpl; lia).
      rewrite (lookup_join_groups 4); [|by apply Forall_fmap, Forall_forall|done].
      rewrite list_lookup_fmap, lookup_seq_lt by lia. simpl.
      by replace (S (N - 1)) with N by lia. }
    rewrite <- (Nat.add_0_r (6 + 4 * (N - 1))) at 1.
    rewrite !Hgroup by lia. done. }
  split.
  { intros a Ha. split.
    - unfold rowFields. rewrite length_app, length_competitorRowData, Hlen. done.
    - intros i j Hi Hj. unfold rowFields, competitorRowData.
      rewrite lookup_app_r by (simpl; lia).
      replace (6 + 4 * i + j - length (baseRow a)) with (4 * i + j) by (simpl; lia).
      rewrite (lookup_join_groups 4); [| |done].
      + rewrite list_lookup_fmap, lookup_seq_lt by lia.
        assert (competitorRowGroup (ProductAnalysis.competitors a) (0 + i)
                = [EmptyString; EmptyString; EmptyString; EmptyString]) as Hpad.
        { unfold competitorRowGroup, competitorCount in *.
          destruct (ProductAnalysis.competitors a) as [cs|]; [|done].
          cbn [mbind option_bind]. by rewrite lookup_ge_None_2 by lia. }
        cbn [fmap option_fmap option_map mbind option_bind]. rewrite Hpad.
        do 4 (destruct j as [|j]; [done|]). lia.
      + apply Forall_fmap, Forall_forall. intros k _.
        apply competitorRowGroup_length. }
  exists (join (chr newline)
            (join (chr comma) (headers max)
             :: (join (chr comma) <$> (rowFields max <$> data)))).
  split; [unfold exportToCsv, data; by rewrite <- list_fmap_compose|].
  destruct (headers_nonempty max) as (h & hs & Hh).
  pose proof (headers_ordinary max) as Hord. rewrite Hh in *.
  apply csv_records_export; [done|].
  apply Forall_fmap, Forall_forall. intros a _. split; [|split].
  - destruct (rowFields_nonempty max a) as (f & fs & ->). done.
  - apply rowFields_closed. by left.
  - apply rowFields_closed. by right.
Qed.

Lemma exportToCsv_uniform_columns_witness :
  length (headers (maxCompetitors [example_one; example_three])) = 6 + 4 * 3
  ∧ drop 10 (rowFields (maxCompetitors [example_one; example_three]) example_one)
    = [ EmptyString; EmptyString; EmptyString; EmptyString;
        EmptyString; EmptyString; EmptyString; EmptyString ].
Proof.
  pose proof (exportToCsv_uniform_columns example_one [example_three]) as H.
  cbv zeta in H. destruct H as (_ & _ & _ & Hlen & _ & Hrows & _).
  split; [exact Hlen|].
  destruct (Hrows example_one) as [Hl Hpad]; [by left|].
  vm_compute. reflexivity.
Defined.

End ExportFacts.

(** ** Batch orchestration *)

Module BatchFacts.
Import Js Shape GeminiService Outcomes Sample.

Section WithCollaborator.
Variable performSingleAnalysis :
  nat → UserIdentifier → list string → result ProductAnalysis.t.

(** The [forEach] loop from index [k] on, started with arrays that hold
    [s0] and [f0]. *)
Lemma record_outcomes products k (outcomes : list (result ProductAnalysis.t)) s0 f0 :
  k + length outcomes ≤ length products →
  foldl (record_outcome products) (Ok (s0, f0))
        (imap (λ j r, (k + j, r)) (allSettled outcomes))
  = Ok (s0 ++ successes outcomes, f0 ++ failures (drop k products) outcomes).
Proof.
  revert k s0 f0. induction outcomes as [|r outcomes IH]; intros k s0 f0 Hlen.
  - unfold failures. rewrite zip_with_nil_r. simpl. by rewrite !app_nil_r.
  - simpl in Hlen.
    destruct (lookup_lt_is_Some_2 products k) as [p Hp]; [lia|].
    rewrite (drop_S _ _ _ Hp).
    unfold allSettled. rewrite fmap_cons, imap_cons. cbn [foldl].
    rewrite (imap_ext _ (λ j r, (S k + j, r)))
      by (intros; unfold compose; f_equal; lia).
    destruct r as [v|e].
    + assert (record_outcome products (Ok (s0, f0)) (k + 0, Fulfilled v)
              = Ok (s0 ++ [v], f0)) as -> by done.
      fold (allSettled outcomes). rewrite IH by lia.
      unfold successes, failures. csimpl. by rewrite <- (assoc_L (++)).
    + assert (record_outcome products (Ok (s0, f0)) (k + 0, Rejected e)
              = Ok (s0, f0 ++ [CsvProduct.productName p])) as ->.
      { unfold record_outcome, array_get. cbn. by rewrite Nat.add_0_r, Hp. }
      fold (allSettled outcomes). rewrite IH by lia.
      unfold successes, failures. csimpl. by rewrite <- (assoc_L (++)).
Qed.

(** What [analyzeBatchProducts] computes, in terms of the outcomes. *)
Lemma analyzeBatchProducts_outcomes products :
  let outcomes := batch_outcomes performSingleAnalysis products in
  analyzeBatchProducts performSingleAnalysis products
  = if (length (successes outcomes) =? 0) && (0 <? length products)
    then Throw (all_failed_message (failures products outcomes))
    else Ok (successes outcomes).
Proof.
  intros outcomes. unfold analyzeBatchProducts.
  fold (batch_outcomes performSingleAnalysis products). fold outcomes.
  assert (length outcomes = length products) as Hlen
    by apply length_imap.
  rewrite (imap_ext pair (λ j r, (0 + j, r))) by done.
  rewrite record_outcomes by (rewrite Hlen; lia).
  cbn [mbind result_bind]. rewrite drop_0, !app_nil_l.
  unfold allSettled. by rewrite length_fmap, Hlen.
Qed.

Lemma successes_filter {A} (outcomes : list (result A)) :
  Ok <$> successes outcomes = filter (λ r, is_success r = true) outcomes.
Proof.
  unfold successes. induction outcomes as [|[v|e] outcomes IH]; [done|..].
  - csimpl. rewrite filter_cons_True by done. by rewrite IH.
  - csimpl. rewrite filter_cons_False by done. exact IH.
Qed.

Lemma successes_nonempty {A} (outcomes : list (result A)) v :
  Ok v ∈ outcomes → successes outcomes ≠ [].
Proof.
  unfold successes. induction outcomes as [|[w|e] outcomes IH]; csimpl.
  - by intros ?%elem_of_nil.
  - done.
  - intros [?|?]%elem_of_cons; [done|auto].
Qed.

Lemma all_failures (products : list CsvProduct.t)
    (outcomes : list (result ProductAnalysis.t)) :
  length outcomes = length products →
  Forall (λ r, is_success r = false) outcomes →
  successes outcomes = []
  ∧ failures products outcomes = CsvProduct.productName <$> products.
Proof.
  revert products. induction outcomes as [|[v|e] outcomes IH];
    intros [|p products] Hlen Hall; try done.
  - by inversion Hall.
  - inversion Hall; subst. injection Hlen as Hlen.
    destruct (IH products Hlen) as [Hs Hf]; [done|].
    split; [done|]. unfold failures in *. csimpl. by rewrite Hf.
Qed.

Lemma join_mentions sep names name :
  name ∈ names → mentions (join sep names) name.
Proof.
  induction names as [|n names IH]; [by intros ?%elem_of_nil|].
  intros [->|Hin]%elem_of_cons.
  - destruct names as [|n' names].
    + exists EmptyString, EmptyString. simpl. by rewrite string_app_nil_r.
    + exists EmptyString, (sep +:+ join sep (n' :: names)). done.
  - destruct names as [|n' names]; [by apply elem_of_nil in Hin|].
    destruct (IH Hin) as (before & after & Heq).
    exists (n +:+ sep +:+ before), after.
    change (join sep (n :: n' :: names)) with (n +:+ sep +:+ join sep (n' :: names)).
    by rewrite Heq, !string_app_assoc.
Qed.

End WithCollaborator.

(** C2: when the AI analysis of at least one item of a batch succeeds,
    [analyzeBatchProducts] returns the analyses of the successful items and
    nothing else, in input order: the outcomes with the failures removed,
    no reordering and no padding.  For three items of which the second
    fails, the result is the analysis of the first followed by that of the
    third. *)
Theorem analyzeBatchProducts_successes_in_order
    (performSingleAnalysis :
       nat → UserIdentifier → list string → result ProductAnalysis.t) :
  (∀ products,
     let outcomes := batch_outcomes performSingleAnalysis products in
     (∃ a, Ok a ∈ outcomes) →
     ∃ analyses,
       analyzeBatchProducts performSingleAnalysis products = Ok analyses
       ∧ Ok <$> analyses = filter (λ r, is_success r = true) outcomes
       ∧ analyses ≠ [])
  ∧ (∀ p1 p2 p3 a1 e a3,
       batch_outcomes performSingleAnalysis [p1; p2; p3] = [Ok a1; Throw e; Ok a3] →
       analyzeBatchProducts performSingleAnalysis [p1; p2; p3] = Ok [a1; a3]).
Proof.
  split.
  - intros products outcomes [a Ha].
    exists (successes outcomes).
    pose proof (successes_nonempty _ _ Ha) as Hne.
    rewrite analyzeBatchProducts_outcomes. fold outcomes.
    split; [|split; [apply successes_filter|done]].
    destruct (successes outcomes); done.
  - intros p1 p2 p3 a1 e a3 Hout.
    rewrite analyzeBatchProducts_outcomes. cbv zeta. by rewrite Hout.
Qed.

Lemma analyzeBatchProducts_successes_in_order_witness :
  analyzeBatchProducts example_ai example_products
  = Ok [ example_analysis "Lamp" [];
         example_analysis "Sofa" [] ].
Proof.
  apply (proj2 (analyzeBatchProducts_successes_in_order example_ai)
           _ _ _ _ "Failed to get analysis from AI: quota." _).
  reflexivity.
Defined.

(** C5: when the batch is not empty and the AI analysis of every item
    fails, [analyzeBatchProducts] fails with one error, whose message lists
    the names of all the products, each of them occurring in it; it does
    not return an empty list.  On an empty batch it returns the empty list
    and raises no error. *)
Theorem analyzeBatchProducts_all_failed
    (performSingleAnalysis :
       nat → UserIdentifier → list string → result ProductAnalysis.t) :
  (∀ products,
     products ≠ [] →
     Forall (λ r, is_success r = false)
            (batch_outcomes performSingleAnalysis products) →
     let message := all_failed_message (CsvProduct.productName <$> products) in
     analyzeBatchProducts performSingleAnalysis products = Throw message
     ∧ ∀ p, p ∈ products → mentions message (CsvProduct.productName p))
  ∧ analyzeBatchProducts performSingleAnalysis [] = Ok [].
Proof.
  split; [|done].
  intros products Hne Hall message.
  destruct (all_failures products (batch_outcomes performSingleAnalysis products))
    as [Hs Hf]; [apply length_imap|done|].
  split.
  - rewrite analyzeBatchProducts_outcomes. cbv zeta. rewrite Hs, Hf.
    by destruct products.
  - intros p Hp. unfold message, all_failed_message.
    destruct (join_mentions ", " (CsvProduct.productName <$> products)
                (CsvProduct.productName p)) as (before & after & Heq).
    { by apply list_elem_of_fmap_2. }
    rewrite Heq.
    exists ("All product analyses failed. The following products could not be analyzed: "
            +:+ before),
           (after +:+ ". Please check the console for more details.").
    by rewrite !string_app_assoc.
Qed.

Lemma analyzeBatchProducts_all_failed_witness :
  analyzeBatchProducts (λ _ _ _, Throw "offline") example_products
  = Throw "All product analyses failed. The following products could not be analyzed: Lamp, Desk, Sofa. Please check the console for more details.".
Proof.
  apply (proj1 (analyzeBatchProducts_all_failed (λ _ _ _, Throw "offline"))
           example_products).
  - discriminate.
  - repeat constructor.
Defined.

End BatchFacts.

(** ** Prediction refinement *)

Module RefinementFacts.
Import Js Refinement App Sample.

Lemma refined_step a p :
  (if Number_isFinite p
   then ProductAnalysis.set_suggestedPrice (Math_round (Number p)) a
   else a)
  = refined a (Some p).
Proof. by destruct p as [| | |[]|]. Qed.

(** The array after the loop, position by position; an exception of the
    loop leaves what was written before it. *)
Lemma apply_predictions_lookup preds i analyses j :
  (apply_predictions preds i analyses).1 !! j
  = if decide (j < i) then analyses !! j
    else (λ a, refined a (preds !! (j - i))) <$> analyses !! j.
Proof.
  revert i analyses.
  induction preds as [|p preds IH]; intros i analyses.
  - simpl. case_decide; [done|]. by destruct (analyses !! j).
  - cbn [apply_predictions].
    destruct (Number_isFinite p) eqn:Hp.
    + destruct (analyses !! i) as [a|] eqn:Hi.
      * rewrite IH. pose proof (lookup_lt_Some _ _ _ Hi) as Hlt.
        destruct (decide (j = i)) as [->|Hne].
        -- rewrite decide_True, decide_False by lia.
           rewrite list_lookup_insert_eq by done.
           rewrite Hi, Nat.sub_diag.
           change ((p :: preds) !! 0) with (Some p).
           cbn [fmap option_fmap option_map].
           by rewrite <- refined_step, Hp.
        -- rewrite list_lookup_insert_ne by done.
           repeat case_decide; try lia; try done.
           by replace (j - i) with (S (j - S i)) by lia.
      * simpl. case_decide; [done|].
        rewrite (lookup_ge_None_2 analyses j); [done|].
        apply lookup_ge_None_1 in Hi. lia.
    + rewrite IH. repeat case_decide; try lia; try done.
      * assert (j = i) as -> by lia. rewrite Nat.sub_diag.
        change ((p :: preds) !! 0) with (Some p).
        destruct (analyses !! i) as [a|]; [|done].
        cbn [fmap option_fmap option_map].
        by rewrite <- refined_step, Hp.
      * by replace (j - i) with (S (j - S i)) by lia.
Qed.

Lemma apply_predictions_imap preds analyses :
  (apply_predictions preds 0 analyses).1
  = imap (λ j a, refined a (preds !! j)) analyses.
Proof.
  apply list_eq. intros j.
  rewrite apply_predictions_lookup, list_lookup_imap.
  rewrite decide_False by lia. by rewrite Nat.sub_0_r.
Qed.

Lemma same_but_price_refined a p : same_but_price a (refined a p).
Proof. by destruct p as [[| | |[]|]|]. Qed.

(** [Math.round] of a finite number is the integer [z] with
    [z - 1/2 <= q < z + 1/2]. *)
Lemma Math_round_nearest q :
  ∃ z : Z,
    Math_round (Fin q) = Fin (inject_Z z)
    ∧ (inject_Z z - (1 # 2) <= q)%Q ∧ (q < inject_Z z + (1 # 2))%Q.
Proof.
  exists (Qfloor (q + (1 # 2))). split; [done|].
  pose proof (Qfloor_le (q + (1 # 2))) as Hle.
  pose proof (Qlt_floor (q + (1 # 2))) as Hlt.
  rewrite inject_Z_plus in Hlt.
  split.
  - apply (Qplus_le_l _ _ (1 # 2)). ring_simplify.
    ring_simplify in Hle. exact Hle.
  - apply (Qplus_lt_l _ _ (1 # 2)).
    eapply Qlt_le_trans; [exact Hlt|]. ring_simplify. apply Qle_refl.
Qed.

Section WithCollaborators.
Variable performSingleAnalysis :
  nat → GeminiService.UserIdentifier → list string → result ProductAnalysis.t.
Variable predictPrice : PredictPayload.t → result number.
Variable predictBatch : list PredictPayload.t → result (option (list value)).

Lemma refine_single_refined a :
  refine_single predictPrice a
  = refined a (match predictPrice (MlMapper.analysisToPredictPayload a) with
               | Ok predicted => Some (VNum predicted)
               | Throw _ => None
               end).
Proof.
  unfold refine_single.
  destruct (predictPrice _) as [predicted|e]; [|done].
  apply (refined_step a (VNum predicted)).
Qed.

Lemma refine_batch_refined analyses :
  refine_batch predictBatch analyses
  = imap (λ j a,
            refined a
              (match predictBatch (MlMapper.analysesToPredictPayloads analyses) with
               | Ok (Some preds) => preds !! j
               | _ => None
               end)) analyses.
Proof.
  unfold refine_batch.
  destruct (predictBatch _) as [[preds|]|e].
  - apply apply_predictions_imap.
  - apply list_eq. intros j. rewrite list_lookup_imap. by destruct (analyses !! j).
  - apply list_eq. intros j. rewrite list_lookup_imap. by destruct (analyses !! j).
Qed.

End WithCollaborators.

Lemma refined_not_finite a v :
  Number_isFinite v = false → refined a (Some v) = a.
Proof. by destruct v as [| | |[]|]. Qed.

(** The refinement step, by what the prediction function does, whatever
    function it is: after a successful AI analysis the step overwrites
    [suggestedPrice] with the rounded prediction when the function
    resolves to a finite number, and keeps the price of the AI when it
    rejects or resolves to something that is not a finite number; in
    every case [handleAnalysis] ends in the success state.  In batch mode
    this holds item by item, a rejected collective request keeping every
    price.  The rounded value is a whole number, the nearest one: 450.7
    becomes 451.  What the price service resolves to for an answer it
    cannot use is the matter of [PriceFacts]. *)
Theorem refinement_overwrites_or_keeps_price
    (performSingleAnalysis :
       nat → GeminiService.UserIdentifier → list string → result ProductAnalysis.t)
    (predictPrice : PredictPayload.t → result number)
    (predictBatch : list PredictPayload.t → result (option (list value))) :
  let handle := handleAnalysis performSingleAnalysis predictPrice predictBatch in
  (∀ url urls a,
     GeminiService.analyzeSingleProduct performSingleAnalysis url urls = Ok a →
     let outcome := predictPrice (MlMapper.analysisToPredictPayload a) in
     (∀ q, outcome = Ok (Fin q) →
        handle (InputUrl url urls)
        = succeeded [ProductAnalysis.set_suggestedPrice (Math_round (Fin q)) a])
     ∧ (∀ e, outcome = Throw e → handle (InputUrl url urls) = succeeded [a])
     ∧ (∀ n, outcome = Ok n → number_isFinite n = false →
          handle (InputUrl url urls) = succeeded [a]))
  ∧ (∀ products analyses,
       GeminiService.analyzeBatchProducts performSingleAnalysis products
       = Ok analyses →
       let outcome := predictBatch (MlMapper.analysesToPredictPayloads analyses) in
       ∃ result,
         handle (InputCsv products) = succeeded result
         ∧ length result = length analyses
         ∧ (∀ preds j a q,
              outcome = Ok (Some preds) → analyses !! j = Some a →
              preds !! j = Some (VNum (Fin q)) →
              result !! j
              = Some (ProductAnalysis.set_suggestedPrice (Math_round (Fin q)) a))
         ∧ (∀ preds j a,
              outcome = Ok (Some preds) → analyses !! j = Some a →
              preds !! j = None
              ∨ (∃ v, preds !! j = Some v ∧ Number_isFinite v = false) →
              result !! j = Some a)
         ∧ (∀ e, outcome = Throw e → result = analyses)
         ∧ (outcome = Ok None → result = analyses))
  ∧ (∀ q, ∃ z : Z,
       Math_round (Fin q) = Fin (inject_Z z)
       ∧ (inject_Z z - (1 # 2) <= q)%Q ∧ (q < inject_Z z + (1 # 2))%Q)
  ∧ Math_round (Number_of_string "450.7") = Fin (inject_Z 451).
Proof.
  intros handle. unfold handle, handleAnalysis.
  split; [|split; [|split; [apply Math_round_nearest|by vm_compute]]].
  - intros url urls a ->. rewrite refine_single_refined.
    split; [|split].
    + by intros q ->.
    + by intros e ->.
    + intros n -> Hn. by rewrite refined_not_finite.
  - intros products analyses ->.
    exists (refine_batch predictBatch analyses). split; [done|].
    rewrite refine_batch_refined. split; [apply length_imap|].
    assert (∀ (f : nat → option value),
              (∀ j, f j = None) →
              imap (λ j a, refined a (f j)) analyses = analyses) as Hkeep.
    { intros f Hf. apply list_eq. intros j. rewrite list_lookup_imap, Hf.
      by destruct (analyses !! j). }
    split; [|split; [|split]].
    + intros preds j a q -> Ha Hp.
      by rewrite list_lookup_imap, Ha, Hp.
    + intros preds j a -> Ha Hp. rewrite list_lookup_imap, Ha.
      destruct Hp as [-> | (v & -> & Hv)]; [done|].
      cbn [fmap option_fmap option_map]. by rewrite refined_not_finite.
    + intros e ->. by apply Hkeep.
    + intros ->. by apply Hkeep.
Qed.

(** C10: the refinement step changes no field of an analysis other than
    [suggestedPrice]: whatever the prediction collaborator does, the
    analyses [handleAnalysis] ends with are those of the AI, one for one,
    with the same [userProduct], [competitors], [reasoning],
    [marketSummary], [historicalPriceAnalysis] and [sources], in single and
    in batch mode. *)
Theorem refinement_changes_only_suggestedPrice
    (performSingleAnalysis :
       nat → GeminiService.UserIdentifier → list string → result ProductAnalysis.t)
    (predictPrice : PredictPayload.t → result number)
    (predictBatch : list PredictPayload.t → result (option (list value))) :
  let handle := handleAnalysis performSingleAnalysis predictPrice predictBatch in
  (∀ url urls a,
     GeminiService.analyzeSingleProduct performSingleAnalysis url urls = Ok a →
     ∃ a', handle (InputUrl url urls) = succeeded [a'] ∧ same_but_price a a')
  ∧ (∀ products analyses,
       GeminiService.analyzeBatchProducts performSingleAnalysis products
       = Ok analyses →
       ∃ result,
         handle (InputCsv products) = succeeded result
         ∧ Forall2 same_but_price analyses result).
Proof.
  intros handle. unfold handle, handleAnalysis. split.
  - intros url urls a ->. eexists. split; [done|].
    rewrite refine_single_refined. apply same_but_price_refined.
  - intros products analyses ->. eexists. split; [done|].
    rewrite refine_batch_refined.
    apply Forall2_same_length_lookup. split; [by rewrite length_imap|].
    intros j a b Ha. rewrite list_lookup_imap, Ha. intros [= <-].
    apply same_but_price_refined.
Qed.

Lemma refinement_overwrites_or_keeps_price_witness :
  handleAnalysis ai_500 (λ _, Throw "Model not trained") no_batch
    (InputUrl "https://shop.example/lamp" [])
  = succeeded
      [ProductAnalysis.mk
         (UserProduct.mk None "Lamp" (VNum (Fin (inject_Z 480))) None None None)
         (Some []) (Fin (inject_Z 500)) "reasoning" "summary" "history" None]
  ∧ handleAnalysis ai_500 (λ _, Ok (Number_of_string "450.7")) no_batch
      (InputUrl "https://shop.example/lamp" [])
    = succeeded
        [ProductAnalysis.mk
           (UserProduct.mk None "Lamp" (VNum (Fin (inject_Z 480))) None None None)
           (Some []) (Fin (inject_Z 451)) "reasoning" "summary" "history" None].
Proof.
  split.
  - pose proof (proj1 (refinement_overwrites_or_keeps_price ai_500
                         (λ _, Throw "Model not trained") no_batch)
                  "https://shop.example/lamp" [] _ eq_refl) as H.
    cbv zeta in H. destruct H as (_ & H & _).
    apply (H "Model not trained"). reflexivity.
  - pose proof (proj1 (refinement_overwrites_or_keeps_price ai_500
                         (λ _, Ok (Number_of_string "450.7")) no_batch)
                  "https://shop.example/lamp" [] _ eq_refl) as H.
    cbv zeta in H. destruct H as [H _].
    apply (H (7928798250218291 # 17592186044416)%Q). by vm_compute.
Defined.

Lemma refinement_changes_only_suggestedPrice_witness :
  ∃ a',
    handleAnalysis ai_500 (λ _, Ok (Number_of_string "450.7")) no_batch
      (InputUrl "https://shop.example/lamp" []) = succeeded [a']
    ∧ ProductAnalysis.reasoning a' = "reasoning".
Proof.
  destruct (proj1 (refinement_changes_only_suggestedPrice ai_500
                     (λ _, Ok (Number_of_string "450.7")) no_batch)
              "https://shop.example/lamp" [] _ eq_refl)
    as (a' & Heq & Hsame).
  exists a'. split; [exact Heq|].
  destruct Hsame as (_ & _ & <- & _). reflexivity.
Defined.

End RefinementFacts.

(** ** CSV ingestion *)

Module IngestionFacts.
Import Js Shape InputForm Ingestion.

(** [map_throwing] returns when the callback returns on every element. *)
Lemma map_throwing_Ok {A B} (f : nat → A → result B) k l ys :
  map_throwing f k l = Ok ys →
  length ys = length l
  ∧ ∀ j x y, l !! j = Some x → ys !! j = Some y → f (k + j) x = Ok y.
Proof.
  revert k ys. induction l as [|x l IH]; intros k ys; simpl.
  - intros [= <-]. done.
  - destruct (f k x) as [y|e] eqn:Hx; [|done].
    destruct (map_throwing f (S k) l) as [ys'|e] eqn:Hl; [|done].
    intros [= <-]. destruct (IH _ _ Hl) as [Hlen Hall]. split; [simpl; lia|].
    intros [|j] x' y' Hx' Hy'.
    + injection Hx' as <-. injection Hy' as <-. by rewrite Nat.add_0_r.
    + rewrite Nat.add_succ_r. by apply (Hall j).
Qed.

(** [map_throwing] throws what the callback throws on the first element
    on which it throws. *)
Lemma map_throwing_Throw {A B} (f : nat → A → result B) k l e :
  map_throwing f k l = Throw e →
  ∃ i x,
    l !! i = Some x ∧ f (k + i) x = Throw e
    ∧ ∀ j x', j < i → l !! j = Some x' → ∃ y, f (k + j) x' = Ok y.
Proof.
  revert k. induction l as [|x l IH]; intros k; simpl; [done|].
  destruct (f k x) as [y|e'] eqn:Hx.
  - destruct (map_throwing f (S k) l) as [ys'|e'] eqn:Hl; [done|].
    intros [= ->]. destruct (IH _ Hl) as (i & x' & Hi & Hfi & Hbefore).
    exists (S i), x'. split; [done|]. split; [by rewrite Nat.add_succ_r|].
    intros [|j] x'' Hj Hx''.
    + injection Hx'' as <-. exists y. by rewrite Nat.add_0_r.
    + rewrite Nat.add_succ_r. apply (Hbefore j x''); [lia|done].
  - intros [= ->]. exists 0, x. split; [done|].
    split; [by rewrite Nat.add_0_r|]. intros j x' Hj. lia.
Qed.

Lemma trim_empty : trim EmptyString = EmptyString.
Proof. reflexivity. Qed.

Lemma is_empty_true s : is_empty s = true ↔ s = EmptyString.
Proof. by destruct s. Qed.

Lemma is_empty_false s : is_empty s = false ↔ s ≠ EmptyString.
Proof. by destruct s. Qed.

(** The field stored for the column of index [i]. *)
Lemma stored_field (values : list string) i :
  match values !! i with
  | Some v => if is_empty v then EmptyString else trim v
  | None => EmptyString
  end
  = trim (default EmptyString (values !! i)).
Proof. destruct (values !! i) as [[|c v]|]; done. Qed.

Lemma tail_drop {A} (l : list A) k : tail (drop k l) = drop (S k) l.
Proof.
  replace (S k) with (k + 1) by lia. rewrite <- drop_drop.
  by destruct (drop k l).
Qed.

(** The object built by [header.reduce] holds, under each name, the field
    of the last column of that name. *)
Lemma productData_from header values k (obj : gmap string string) col :
  foldl (λ obj entry,
           <[ entry.2 :=
                match values !! entry.1 with
                | Some v => if is_empty v then EmptyString else trim v
                | None => EmptyString
                end ]> obj)
        obj (imap (λ j h, (k + j, h)) header) !! col
  = match column header (drop k values) col with
    | Some x => Some x
    | None => obj !! col
    end.
Proof.
  revert k obj. induction header as [|h header IH]; intros k obj; [done|].
  rewrite imap_cons. cbn [foldl column].
  rewrite (imap_ext _ (λ j h, (S k + j, h)))
    by (intros; unfold compose; f_equal; lia).
  rewrite IH, tail_drop. cbn [fst snd].
  destruct (column header (drop (S k) values) col); [done|].
  rewrite Nat.add_0_r, stored_field, lookup_insert.
  rewrite head_lookup, lookup_drop, Nat.add_0_r.
  destruct (String.eqb_spec h col) as [->|Hne].
  - by rewrite decide_True.
  - by rewrite decide_False.
Qed.

Lemma productData_column header values col :
  productData header values !! col = column header values col.
Proof.
  unfold productData.
  rewrite (imap_ext pair (λ j h, (0 + j, h))) by done.
  rewrite productData_from, drop_0, lookup_empty.
  by destruct (column header values col).
Qed.

Lemma field_is_empty_cases (field : option string) :
  field_is_empty field ∨ ∃ s, field = Some s ∧ s ≠ EmptyString.
Proof.
  destruct field as [[|c s]|].
  - left. by right.
  - right. by exists (String c s).
  - left. by left.
Qed.

(** The callback of [rows.map] throws the error of the first constraint
    the row violates, and returns the product of a row that meets them
    all. *)
Lemma parseRow_spec header index row :
  match parseRow header index row with
  | Ok product => accepted header row product
  | Throw message =>
      ∃ v, violates header row v ∧ message = violation_message (index + 2) v
  end.
Proof.
  unfold parseRow.
  destruct (length (split comma row) =? length header) eqn:Hlen.
  2:{ apply Nat.eqb_neq in Hlen. cbn.
      exists (ColumnCount (length header) (length (split comma row))).
      split; [by constructor|done]. }
  apply Nat.eqb_eq in Hlen. cbn [throw_unless mbind result_bind].
  rewrite !productData_column.
  destruct (field_is_empty_cases (column header (split comma row) "productName"))
    as [Hname|(name & Hname & Hname_ne)].
  { assert (violates header row EmptyName) as Hv by (by constructor).
    destruct Hname as [E|E]; rewrite E; by exists EmptyName. }
  assert (¬ field_is_empty (column header (split comma row) "productName")) as Hname'.
  { rewrite Hname. intros [?|[= ?]]; done. }
  rewrite Hname. destruct name as [|c name]; [done|].
  destruct (field_is_empty_cases (column header (split comma row) "currentPrice"))
    as [Hprice|(price & Hprice & Hprice_ne)].
  { assert (violates header row EmptyPrice) as Hv by (by constructor).
    destruct Hprice as [E|E]; rewrite E; by exists EmptyPrice. }
  rewrite Hprice. destruct price as [|c' price]; [done|].
  destruct (number_isFinite (Number_of_string (String c' price))) eqn:Hfinite.
  2:{ cbn. exists (NotANumber (String c' price)). split; [|done].
      by apply V_number. }
  destruct (number_ltz (Number_of_string (String c' price))) eqn:Hneg.
  { cbn. exists (NegativePrice (String c' price)). split; [|done].
    by apply V_negative. }
  cbn [negb throw_unless mbind result_bind].
  unfold accepted. cbn [CsvProduct.productName CsvProduct.currentPrice
                        CsvProduct.userProductUrl CsvProduct.competitorUrls].
  repeat split; try done.
  - exists (String c' price). done.
  - destruct (column header (split comma row) "competitorUrls") as [[|c'' urls]|];
      try done.
    apply list_filter_iff. intros u. by rewrite is_empty_false.
Qed.

(** A row is accepted or violates a constraint, never both. *)
Lemma accepted_not_violates header row product v :
  accepted header row product → ¬ violates header row v.
Proof.
  intros (Hlen & Hname & Hname_ne & (price & Hprice & Hprice_ne & Hvalue)
          & Hfinite & Hneg & _) Hv.
  rewrite Hvalue in Hfinite, Hneg.
  assert (¬ field_is_empty (column header (split comma row) "productName")) as Hn.
  { rewrite Hname. intros [?|[= ?]]; done. }
  assert (¬ field_is_empty (column header (split comma row) "currentPrice")) as Hp.
  { rewrite Hprice. intros [?|[= ?]]; done. }
  inversion Hv as [Hl|Hl He|Hl _ He|price' Hl _ He _ Hf|price' Hl _ He _ _ Hf];
    subst; try done.
  - rewrite Hprice in He. injection He as <-. congruence.
  - rewrite Hprice in He. injection He as <-. congruence.
Qed.

Lemma array_includes_false x l : array_includes x l = false → x ∉ l.
Proof.
  unfold array_includes. intros Hex Hin.
  assert (existsb (String.eqb x) l = true) as Htrue; [|congruence].
  apply existsb_exists. exists x. split; [|apply String.eqb_refl].
  by apply list_elem_of_In.
Qed.

(** What the error of a violation says. *)
Lemma violation_message_mentions rowNum v :
  mentions (violation_message rowNum v) ("row " +:+ nat_to_string rowNum)
  ∧ match v with
    | ColumnCount expected found =>
        mentions (violation_message rowNum v)
                 ("Expected " +:+ nat_to_string expected)
        ∧ mentions (violation_message rowNum v)
                   ("found " +:+ nat_to_string found)
    | NotANumber price =>
        mentions (violation_message rowNum v)
                 (quoted price +:+ " in 'currentPrice' is not a valid number")
    | NegativePrice price =>
        mentions (violation_message rowNum v)
                 (quoted price +:+ " cannot be negative")
    | EmptyName =>
        mentions (violation_message rowNum v)
                 "'productName' column cannot be empty"
    | EmptyPrice =>
        mentions (violation_message rowNum v)
                 "'currentPrice' column cannot be empty"
    end.
Proof.
  split.
  - exists "CSV parsing failed on ".
    destruct v; eexists; cbn [violation_message];
      unfold column_count_message, empty_name_message, empty_price_message,
        not_a_number_message, negative_price_message, on_row;
      rewrite ?string_app_assoc; reflexivity.
  - destruct v; cbn [violation_message];
      unfold column_count_message, empty_name_message, empty_price_message,
        not_a_number_message, negative_price_message, on_row.
    + split.
      * exists ("CSV parsing failed on row " +:+ nat_to_string rowNum
                +:+ ": Incorrect number of columns. ").
        eexists. rewrite ?string_app_assoc. reflexivity.
      * exists ("CSV parsing failed on row " +:+ nat_to_string rowNum
                +:+ ": Incorrect number of columns. Expected "
                +:+ nat_to_string expected +:+ ", but ").
        eexists. rewrite ?string_app_assoc. reflexivity.
    + exists ("CSV parsing failed on row " +:+ nat_to_string rowNum +:+ ": The ").
      exists ".". rewrite ?string_app_assoc. reflexivity.
    + exists ("CSV parsing failed on row " +:+ nat_to_string rowNum +:+ ": The ").
      exists ".". rewrite ?string_app_assoc. reflexivity.
    + exists ("CSV parsing failed on row " +:+ nat_to_string rowNum
              +:+ ": The value ").
      exists ".". rewrite ?string_app_assoc. reflexivity.
    + exists ("CSV parsing failed on row " +:+ nat_to_string rowNum
              +:+ ": The price ").
      exists ".". rewrite ?string_app_assoc. reflexivity.
Qed.

(** C3: ingestion returns a product for every data row, each row meeting
    every constraint, or it fails as a whole and returns no list.  Apart
    from a text with fewer than two non-blank lines and a header without a
    required column, it fails on the first data row that violates a
    constraint, with the error of that constraint: a number of
    comma-separated fields other than the header's (the error names the
    row and both numbers), an empty product name after trimming, a missing
    or empty current price, a current price whose numeric coercion is not
    finite (the error quotes the trimmed field), or a negative price
    (the error says the price cannot be negative).  The row named is the
    position of the row among the non-blank lines of the text, the header
    being row 1. *)
Theorem parseCsv_all_or_first_violation :
  (∀ text : string,
     let lines := nonblank_lines text in
     let header := header_of text in
     let rows := data_rows text in
     match parseCsv text with
     | Ok products =>
         Forall2 (accepted header) rows products
         ∧ Forall (λ row, ∀ v, ¬ violates header row v) rows
     | Throw message =>
         (length lines < 2 ∧ message = empty_file_message)
         ∨ (∃ required,
              required ∈ requiredHeaders ∧ (required ∉ header)
              ∧ message = missing_column_message required)
         ∨ (∃ i row v,
              rows !! i = Some row
              ∧ violates header row v
              ∧ message = violation_message (i + 2) v
              ∧ ∀ j earlier, j < i → rows !! j = Some earlier →
                  ∀ v', ¬ violates header earlier v')
     end)
  ∧ (∀ rowNum v,
       mentions (violation_message rowNum v) ("row " +:+ nat_to_string rowNum)
       ∧ match v with
         | ColumnCount expected found =>
             mentions (violation_message rowNum v)
                      ("Expected " +:+ nat_to_string expected)
             ∧ mentions (violation_message rowNum v)
                        ("found " +:+ nat_to_string found)
         | NotANumber price =>
             mentions (violation_message rowNum v)
                      (quoted price +:+ " in 'currentPrice' is not a valid number")
         | NegativePrice price =>
             mentions (violation_message rowNum v)
                      (quoted price +:+ " cannot be negative")
         | EmptyName =>
             mentions (violation_message rowNum v)
                      "'productName' column cannot be empty"
         | EmptyPrice =>
             mentions (violation_message rowNum v)
                      "'currentPrice' column cannot be empty"
         end).
Proof.
  split; [|apply violation_message_mentions].
  intros text lines header rows. subst lines header rows.
  unfold parseCsv, header_of, data_rows, nonblank_lines.
  set (lines := filter _ (split_lines text)).
  set (header := trim <$> _). set (rows := drop 1 lines).
  destruct (2 <=? length lines) eqn:Hlen.
  2:{ apply Nat.leb_gt in Hlen. cbn. by left. }
  cbn [throw_unless mbind result_bind].
  unfold requiredHeaders, check_required.
  destruct (array_includes "productName" header) eqn:Hname.
  2:{ cbn. right. left. exists "productName".
      split; [by left|]. split; [by apply array_includes_false|done]. }
  destruct (array_includes "currentPrice" header) eqn:Hprice.
  2:{ cbn. right. left. exists "currentPrice".
      split; [right; by left|]. split; [by apply array_includes_false|done]. }
  cbn [throw_unless mbind result_bind].
  destruct (map_throwing (parseRow header) 0 rows) as [products|message] eqn:Hmap.
  - apply map_throwing_Ok in Hmap as [Hlength Hall].
    assert (Forall2 (accepted header) rows products) as Haccepted.
    { apply Forall2_same_length_lookup. split; [done|].
      intros j row product Hrow Hproduct.
      pose proof (parseRow_spec header (0 + j) row) as Hspec.
      by rewrite (Hall j row product Hrow Hproduct) in Hspec. }
    split; [done|].
    apply Forall_forall. intros row Hrow v.
    apply list_elem_of_lookup in Hrow as [j Hj].
    destruct (Forall2_lookup_l _ _ _ _ _ Haccepted Hj) as (product & _ & Hacc).
    by eapply accepted_not_violates.
  - apply map_throwing_Throw in Hmap as (i & row & Hrow & Hthrow & Hbefore).
    right. right.
    pose proof (parseRow_spec header (0 + i) row) as Hspec.
    rewrite Hthrow in Hspec. destruct Hspec as (v & Hv & ->).
    exists i, row, v. split; [done|]. split; [done|]. split; [done|].
    intros j earlier Hj Hearlier v'.
    destruct (Hbefore j earlier Hj Hearlier) as [product Hok].
    pose proof (parseRow_spec header (0 + j) earlier) as Hspec.
    rewrite Hok in Hspec. by eapply accepted_not_violates.
Qed.

Lemma filter_lookup_prefix {A} (P : A → Prop) `{!∀ x, Decision (P x)}
    (l : list A) k :
  (∀ j x, j ≤ k → l !! j = Some x → P x) → filter P l !! k = l !! k.
Proof.
  revert k. induction l as [|x l IH]; intros k Hall; [done|].
  rewrite filter_cons_True by (apply (Hall 0); [lia|done]).
  destruct k as [|k]; [done|]. cbn [lookup list_lookup].
  apply IH. intros j y Hj Hy. apply (Hall (S j)); [lia|done].
Qed.

(** C4: the row named by an error is the position of the row among the
    non-blank lines.  It is the position of the row in the text when no
    line up to the row is blank.  After a blank line it is not: for the
    text made of a header, a blank line, and a data row with one field too
    many, the data row is the third line of the text, and the error names
    row 2. *)
Theorem parseCsv_row_number_skips_blank_lines :
  (∀ text k,
     (∀ j line, j ≤ k → split_lines text !! j = Some line → nonblank line = true) →
     nonblank_lines text !! k = split_lines text !! k)
  ∧ let text :=
      "productName,currentPrice" +:+ chr newline +:+ chr newline
      +:+ "Lamp,10,extra" in
    split_lines text !! 2 = Some "Lamp,10,extra"
    ∧ data_rows text !! 0 = Some "Lamp,10,extra"
    ∧ parseCsv text
      = Throw "CSV parsing failed on row 2: Incorrect number of columns. Expected 2, but found 3. Please check for extra commas.".
Proof.
  split; [|by vm_compute].
  intros text k Hall. by apply filter_lookup_prefix.
Qed.

End IngestionFacts.

(** ** Trimming and splitting *)

Module TrimFacts.
Import Js Shape.

Lemma drop_white_cases s :
  drop_white s = EmptyString
  ∨ ∃ c t, drop_white s = String c t ∧ is_white c = false.
Proof.
  induction s as [|c s IH]; simpl; [by left|].
  destruct (is_white c) eqn:Hc; [done|]. right. by exists c, s.
Qed.

Lemma drop_white_snoc s c :
  is_white c = false → drop_white (s +:+ chr c) = drop_white s +:+ chr c.
Proof.
  intros Hc. induction s as [|a s IH].
  - change (drop_white (chr c) = chr c). unfold chr. simpl. by rewrite Hc.
  - rewrite string_app_cons. simpl. destruct (is_white a); [done|].
    by rewrite string_app_cons.
Qed.

(** A trimmed string is empty or starts and ends with a character that is
    not white space. *)
Lemma trim_cases s :
  trim s = EmptyString
  ∨ ∃ c t before l,
      trim s = String c t ∧ String c t = before +:+ chr l
      ∧ is_white c = false ∧ is_white l = false.
Proof.
  unfold trim. destruct (drop_white_cases s) as [->|(c & t & -> & Hc)]; [by left|].
  right. rewrite string_rev_cons, drop_white_snoc by done.
  rewrite string_rev_snoc.
  destruct (drop_white_cases (String.rev t)) as [->|(l & u & -> & Hl)].
  - exists c, EmptyString, EmptyString, c. done.
  - exists c, (String.rev (String l u)), (String c (String.rev u)), l.
    split; [done|]. split; [|done].
    by rewrite string_rev_cons, string_app_cons.
Qed.

Lemma trim_idempotent s : trim (trim s) = trim s.
Proof.
  destruct (trim_cases s) as [->|(c & t & before & l & -> & Heq & Hc & Hl)]; [done|].
  by eapply StrictValueFacts.trim_id.
Qed.

Lemma every_rev p s : every p (String.rev s) = every p s.
Proof.
  induction s as [|c s IH]; [done|].
  rewrite string_rev_cons, ReadingFacts.every_app, IH. simpl.
  rewrite andb_true_r. apply andb_comm.
Qed.

Lemma every_drop_white p s : every p s = true → every p (drop_white s) = true.
Proof.
  induction s as [|c s IH]; [done|]. simpl. intros [Hc Hs]%andb_true_iff.
  destruct (is_white c); [by apply IH|]. simpl. by rewrite Hc, Hs.
Qed.

Lemma every_trim p s : every p s = true → every p (trim s) = true.
Proof.
  intros H. unfold trim. rewrite every_rev. apply every_drop_white.
  rewrite every_rev. by apply every_drop_white.
Qed.

Lemma drop_white_empty s : drop_white s = EmptyString → every is_white s = true.
Proof.
  induction s as [|c s IH]; [done|]. simpl.
  destruct (is_white c); [done|discriminate].
Qed.

Lemma string_rev_empty s : String.rev s = EmptyString → s = EmptyString.
Proof.
  intros H. rewrite <- (string_rev_involutive s). by rewrite H.
Qed.

(** [trim] leaves nothing exactly of the texts made of white space. *)
Lemma trim_blank s : trim s = EmptyString ↔ every is_white s = true.
Proof.
  unfold trim. split.
  - intros H%string_rev_empty%drop_white_empty.
    rewrite every_rev in H.
    destruct (drop_white_cases s) as [Hs|(c & t & Hs & Hc)].
    + by apply drop_white_empty.
    + rewrite Hs in H. simpl in H. by rewrite Hc in H.
  - intros H. assert (drop_white s = EmptyString) as ->; [|done].
    induction s as [|c s IH]; [done|]. simpl in *.
    apply andb_true_iff in H as [-> Hs]. by apply IH.
Qed.

(** No piece of a split holds the separator. *)
Lemma split_pieces sep s :
  Forall (λ piece, every (λ c, negb (Ascii.eqb c sep)) piece = true) (split sep s).
Proof.
  induction s as [|c s IH]; simpl; [by constructor|].
  destruct (Ascii.eqb c sep) eqn:Hc; [by constructor|].
  destruct (split sep s) as [|p ps]; simpl.
  - constructor; [|done]. simpl. by rewrite Hc.
  - inversion IH as [|? ? Hp Hps]; subst. constructor; [|done].
    simpl. by rewrite Hc, Hp.
Qed.

(** The pieces of a split are made of the characters of the text. *)
Lemma split_every p sep s :
  every p s = true → Forall (λ piece, every p piece = true) (split sep s).
Proof.
  induction s as [|c s IH]; simpl; [by constructor|].
  intros [Hc Hs]%andb_true_iff. specialize (IH Hs).
  destruct (Ascii.eqb c sep); [by constructor|].
  destruct (split sep s) as [|x xs]; simpl.
  - constructor; [|done]. simpl. by rewrite Hc.
  - inversion IH; subst. constructor; [|done]. simpl. by rewrite Hc.
Qed.

Lemma filter_all {A} (P : A → Prop) `{!∀ x, Decision (P x)} (l : list A) :
  Forall P l → filter P l = l.
Proof.
  induction 1 as [|x l Hx Hl IH]; [done|].
  by rewrite filter_cons_True, IH.
Qed.

Lemma filter_none {A} (P : A → Prop) `{!∀ x, Decision (P x)} (l : list A) :
  Forall (λ x, ¬ P x) l → filter P l = [].
Proof.
  induction 1 as [|x l Hx Hl IH]; [done|]. by rewrite filter_cons_False.
Qed.

End TrimFacts.

(** ** The products [parseCsv] returns *)

Module ProductFacts.
Import Js Shape InputForm Ingestion Cleanliness IngestionFacts TrimFacts.

(** What [parseCsv] returns, row by row. *)
Lemma parseCsv_Ok text products :
  parseCsv text = Ok products →
  2 ≤ length (nonblank_lines text)
  ∧ Forall2 (accepted (header_of text)) (data_rows text) products.
Proof.
  unfold parseCsv, header_of, data_rows, nonblank_lines.
  set (lines := filter _ (split_lines text)).
  set (header := trim <$> _). set (rows := drop 1 lines).
  destruct (2 <=? length lines) eqn:Hlen; [|done].
  apply Nat.leb_le in Hlen. cbn [throw_unless mbind result_bind].
  destruct (check_required header requiredHeaders); [|done].
  cbn [mbind result_bind]. intros Hmap. split; [done|].
  apply map_throwing_Ok in Hmap as [Hlength Hall].
  apply Forall2_same_length_lookup. split; [done|].
  intros j row product Hrow Hproduct.
  pose proof (parseRow_spec header (0 + j) row) as Hspec.
  by rewrite (Hall j row product Hrow Hproduct) in Hspec.
Qed.

(** A column reads a trimmed field of the row. *)
Lemma column_field header values col x :
  column header values col = Some x →
  ∃ v, x = trim v ∧ (v ∈ values ∨ v = EmptyString).
Proof.
  revert values. induction header as [|h header IH]; intros values; [done|].
  simpl. destruct (column header (tail values) col) as [y|] eqn:Hy.
  - intros [= <-]. destruct (IH _ Hy) as (v & -> & [Hv| ->]).
    + exists v. split; [done|]. left. destruct values; [done|]. by right.
    + exists EmptyString. split; [done|]. by right.
  - destruct (String.eqb h col); [|done]. intros [= <-].
    destruct values as [|v values]; simpl.
    + exists EmptyString. split; [done|]. by right.
    + exists v. split; [done|]. left. by left.
Qed.

Lemma column_clean header row col x :
  column header (split comma row) col = Some x → clean x.
Proof.
  intros (v & -> & Hv)%column_field. split; [apply trim_idempotent|].
  apply every_trim. destruct Hv as [Hv| ->]; [|done].
  pose proof (split_pieces comma row) as Hall.
  rewrite Forall_forall in Hall. by apply Hall.
Qed.

Lemma accepted_clean header row product :
  accepted header row product → clean_product product.
Proof.
  intros (_ & Hname & Hnonempty & _ & _ & _ & Hurl & Hurls).
  split; [done|]. split; [by eapply column_clean|]. split.
  - rewrite Hurl. destruct (column header (split comma row) "userProductUrl") eqn:Hc.
    + by eapply column_clean.
    + done.
  - rewrite Hurls. apply Forall_forall. intros u [Hu Hin]%list_elem_of_filter.
    apply list_elem_of_fmap in Hin as (piece & -> & Hpiece).
    split; [done|]. split; [split; [apply trim_idempotent|]|].
    + apply every_trim.
      assert (comma_free
                (default EmptyString
                   (column header (split comma row) "competitorUrls"))) as Hfree.
      { destruct (column header (split comma row) "competitorUrls") eqn:Hc; [|done].
        by eapply column_clean. }
      pose proof (split_every _ semicolon _ Hfree) as Hall.
      rewrite Forall_forall in Hall. by apply Hall.
    + apply every_trim.
      pose proof (split_pieces semicolon
                    (default EmptyString
                       (column header (split comma row) "competitorUrls"))) as Hall.
      rewrite Forall_forall in Hall. by apply Hall.
Qed.

(** X1: when [parseCsv] returns, it returns one product for every
    non-blank line after the header, and at least one: a text it accepts
    never gives an empty list of products. *)
Theorem parseCsv_one_product_per_row (text : string) (products : list CsvProduct.t) :
  parseCsv text = Ok products →
  products ≠ []
  ∧ S (length products) = length (nonblank_lines text)
  ∧ length products < length (split_lines text).
Proof.
  intros [Hlines Hall]%parseCsv_Ok.
  apply Forall2_length in Hall. unfold data_rows in Hall.
  rewrite length_drop in Hall.
  split; [intros ->; simpl in Hall; lia|]. split; [lia|].
  pose proof (length_filter (λ line, nonblank line = true) (split_lines text)).
  unfold nonblank_lines in *. lia.
Qed.

Lemma parseCsv_one_product_per_row_witness :
  S (length [CsvProduct.mk "Lamp" (Fin (inject_Z 10)) EmptyString []])
  = length (nonblank_lines Answers.lamp_csv).
Proof.
  destruct (parseCsv_one_product_per_row Answers.lamp_csv
              [CsvProduct.mk "Lamp" (Fin (inject_Z 10)) EmptyString []]
              ltac:(vm_compute; reflexivity)) as (_ & H & _).
  exact H.
Defined.

(** X2: the texts of every product [parseCsv] returns are clean: the
    product name is not empty, and the name, the product URL and every
    competitor URL are as [trim] leaves them and hold no comma; no
    competitor URL is empty or holds a semicolon.  So a name with a comma
    in it cannot be ingested, quoted or not. *)
Theorem parseCsv_products_clean (text : string) (products : list CsvProduct.t) :
  parseCsv text = Ok products → Forall clean_product products.
Proof.
  intros [_ Hall]%parseCsv_Ok. apply Forall_forall. intros p Hp.
  apply list_elem_of_lookup in Hp as [j Hj].
  destruct (Forall2_lookup_r _ _ _ _ _ Hall Hj) as (row & _ & Hacc).
  by eapply accepted_clean.
Qed.

Lemma parseCsv_products_clean_witness :
  Forall clean_product [CsvProduct.mk "Lamp" (Fin (inject_Z 10)) EmptyString []].
Proof.
  exact (parseCsv_products_clean Answers.lamp_csv
           [CsvProduct.mk "Lamp" (Fin (inject_Z 10)) EmptyString []]
           ltac:(vm_compute; reflexivity)).
Defined.

End ProductFacts.

(** ** Line terminators *)

Module LineFacts.
Import Js Shape InputForm Ingestion Cleanliness.

Lemma split_lines_cons c s :
  inline c = true → split_lines (String c s) = cons_first c (split_lines s).
Proof.
  unfold inline. intros [Hn Hr]%andb_true_iff.
  apply negb_true_iff in Hn, Hr.
  destruct s as [|c' s']; cbn [split_lines]; rewrite Hn; [done|].
  by rewrite Hr.
Qed.

Lemma split_lines_line line :
  every inline line = true →
  split_lines line = [line]
  ∧ ∀ rest,
      split_lines (line +:+ chr newline +:+ rest) = line :: split_lines rest
      ∧ split_lines (line +:+ crlf +:+ rest) = line :: split_lines rest.
Proof.
  induction line as [|c line IH].
  - intros _. split; [done|]. intros rest. split; [done|].
    rewrite string_app_nil_l. unfold crlf. rewrite !string_app_cons.
    by destruct rest.
  - cbn [every]. intros [Hc Hline]%andb_true_iff.
    destruct (IH Hline) as [IH1 IH2]. split.
    + by rewrite split_lines_cons, IH1.
    + intros rest. destruct (IH2 rest) as [IHn IHr].
      rewrite !string_app_cons, !split_lines_cons by done.
      by rewrite IHn, IHr.
Qed.

(** Splitting into lines undoes joining them, with either terminator. *)
Lemma split_lines_join sep line lines :
  sep = chr newline ∨ sep = crlf →
  Forall (λ l, every inline l = true) (line :: lines) →
  split_lines (join sep (line :: lines)) = line :: lines.
Proof.
  intros Hsep. revert line. induction lines as [|l lines IH]; intros line Hall.
  - inversion Hall; subst. simpl. by apply split_lines_line.
  - inversion Hall as [|? ? Hline Hrest]; subst.
    change (join sep (line :: l :: lines))
      with (line +:+ sep +:+ join sep (l :: lines)).
    destruct (split_lines_line line Hline) as [_ H2].
    destruct (H2 (join sep (l :: lines))) as [Hn Hr].
    destruct Hsep as [-> | ->]; [rewrite Hn | rewrite Hr]; by rewrite IH.
Qed.

(** X3: the two line terminators are interchangeable: lines without line
    feed and carriage return, joined by CR LF or by LF, are split into
    the same lines again, and [parseCsv] gives the same outcome for both
    texts. *)
Theorem parseCsv_line_endings (lines : list string) :
  Forall (λ l, every inline l = true) lines →
  parseCsv (join crlf lines) = parseCsv (join (chr newline) lines)
  ∧ (lines ≠ [] →
     split_lines (join crlf lines) = lines
     ∧ split_lines (join (chr newline) lines) = lines).
Proof.
  intros Hall. destruct lines as [|line lines]; [done|].
  assert (split_lines (join crlf (line :: lines)) = line :: lines) as Hcrlf
    by (apply split_lines_join; [by right|done]).
  assert (split_lines (join (chr newline) (line :: lines)) = line :: lines) as Hlf
    by (apply split_lines_join; [by left|done]).
  split; [|done]. unfold parseCsv. by rewrite Hcrlf, Hlf.
Qed.

Lemma parseCsv_line_endings_witness :
  parseCsv (join crlf ["productName,currentPrice"; "Lamp,10"])
  = parseCsv (join (chr newline) ["productName,currentPrice"; "Lamp,10"]).
Proof.
  apply (parseCsv_line_endings ["productName,currentPrice"; "Lamp,10"]).
  repeat constructor.
Defined.

End LineFacts.

(** ** The two parts of a batch *)

Module PartitionFacts.
Import Js GeminiService Outcomes BatchFacts.

Lemma successes_failures_length {A} (products : list CsvProduct.t)
    (outcomes : list (result A)) :
  length outcomes = length products →
  length (successes outcomes) + length (failures products outcomes)
  = length products.
Proof.
  revert outcomes. induction products as [|p products IH];
    intros [|r outcomes]; try done.
  intros [= Hlen]. specialize (IH _ Hlen).
  unfold successes, failures in *. destruct r; csimpl; lia.
Qed.

Lemma no_success_all_failed {A} (outcomes : list (result A)) :
  length (successes outcomes) = 0 →
  Forall (λ r, is_success r = false) outcomes.
Proof.
  induction outcomes as [|[a|e] outcomes IH]; csimpl; [done|done|].
  intros H. constructor; [done|]. by apply IH.
Qed.

(** X4: when [analyzeBatchProducts] returns, the analyses it returns and
    the products recorded as failed make up the batch: their numbers add
    up to the number of products, and for a batch that is not empty the
    list returned is not empty. *)
Theorem analyzeBatchProducts_partition
    (performSingleAnalysis :
       nat → UserIdentifier → list string → result ProductAnalysis.t)
    (products : list CsvProduct.t) (analyses : AnalysisResult) :
  analyzeBatchProducts performSingleAnalysis products = Ok analyses →
  let outcomes := batch_outcomes performSingleAnalysis products in
  analyses = successes outcomes
  ∧ length analyses + length (failures products outcomes) = length products
  ∧ (products ≠ [] → analyses ≠ []).
Proof.
  intros Hok outcomes. rewrite analyzeBatchProducts_outcomes in Hok.
  fold outcomes in Hok. cbv zeta in Hok.
  assert (length outcomes = length products) as Hlen
    by (unfold outcomes, batch_outcomes; apply length_imap).
  destruct (length (successes outcomes) =? 0) eqn:Hnone;
    destruct (0 <? length products) eqn:Hsome; simpl in Hok;
    try discriminate; injection Hok as <-.
  - apply Nat.ltb_ge in Hsome. split; [done|].
    split; [by apply successes_failures_length|].
    intros Hne. destruct products; [done|simpl in Hsome; lia].
  - apply Nat.eqb_neq in Hnone. split; [done|].
    split; [by apply successes_failures_length|].
    intros _ Heq. by rewrite Heq in Hnone.
  - apply Nat.eqb_neq in Hnone. split; [done|].
    split; [by apply successes_failures_length|].
    intros _ Heq. by rewrite Heq in Hnone.
Qed.

Lemma analyzeBatchProducts_partition_witness :
  ∃ analyses,
    analyzeBatchProducts Sample.example_ai Sample.example_products = Ok analyses
    ∧ length analyses
      + length (failures Sample.example_products
                  (batch_outcomes Sample.example_ai Sample.example_products))
      = 3.
Proof.
  eexists. split; [reflexivity|].
  pose proof (analyzeBatchProducts_partition Sample.example_ai
                Sample.example_products _ eq_refl) as H.
  cbv zeta in H. by destruct H as (_ & H & _).
Defined.

End PartitionFacts.

(** ** The category cascade *)

Module CategoryFacts.
Import Js Shape MlMapper MlMapperFacts.

Lemma lower_idempotent c : lower (lower c) = lower c.
Proof. by destruct c as [[] [] [] [] [] [] [] []]. Qed.

Lemma toLowerCase_idempotent s : toLowerCase (toLowerCase s) = toLowerCase s.
Proof.
  induction s as [|c s IH]; [done|]. simpl. by rewrite lower_idempotent, IH.
Qed.

Lemma mentions_inside text a b c :
  mentions text (a +:+ b +:+ c) → mentions text b.
Proof.
  intros (before & after & ->). exists (before +:+ a), (c +:+ after).
  by rewrite !string_app_assoc.
Qed.

(** X5: the test for [t-shirt] never decides the category, since a name
    with [t-shirt] in it has [shirt] in it: [inferCategory] is the
    cascade without that test.  The category does not depend on the
    letter case of the name, and a name that mentions a footwear keyword
    is footwear whatever else it mentions. *)
Theorem inferCategory_cascade (name : string) :
  let n := toLowerCase name in
  inferCategory name
  = (if includes "shoe" n || includes "sneaker" n then "footwear"
     else if includes "phone" n || includes "mobile" n then "electronics"
     else if includes "shirt" n then "apparel"
     else "general")
  ∧ inferCategory (toLowerCase name) = inferCategory name
  ∧ (mentions n "shoe" ∨ mentions n "sneaker" → inferCategory name = "footwear").
Proof.
  intros n. split; [|split].
  - unfold inferCategory. fold n.
    destruct (includes "shirt" n) eqn:Hshirt; [done|].
    destruct (includes "t-shirt" n) eqn:Htshirt; [|done].
    apply includes_mentions in Htshirt.
    apply (mentions_inside n "t-" "shirt" EmptyString) in Htshirt.
    apply includes_mentions in Htshirt. congruence.
  - unfold inferCategory. by rewrite toLowerCase_idempotent.
  - unfold inferCategory. fold n.
    intros [H|H]; apply includes_mentions in H; rewrite H; [done|].
    by rewrite orb_true_r.
Qed.

End CategoryFacts.

(** ** The range of the strict parser *)

Module RangeFacts.
Import Js Shape MlMapper StrictNumberFacts StrictValueFacts.

Lemma to_double_not_NaN q : to_double q ≠ NaN.
Proof.
  unfold to_double. cbv zeta.
  repeat match goal with |- context [if ?b then _ else _] => destruct b end;
    done.
Qed.

Lemma signed_not_NaN negative n : n ≠ NaN → signed negative n ≠ NaN.
Proof. destruct negative, n; done. Qed.

Lemma parseStrictNumber_not_NaN v n : parseStrictNumber v = Some n → n ≠ NaN.
Proof.
  destruct v as [| |b|m|s]; simpl; try done.
  - destruct m; simpl; try done. by intros [= <-].
  - destruct (Regex.test strict_number (trim s)) eqn:Htest; [|done].
    intros [= <-].
    apply strict_number_shape, strict_decimal_text in Htest
      as (negative & int & frac & -> & Hint & Hfrac).
    rewrite Number_of_strict_decimal by done.
    apply signed_not_NaN, to_double_not_NaN.
Qed.

(** X6: [parseStrictNumber] never returns [NaN], and it returns an
    infinite number only for a text: the text of a decimal too large for
    a double, such as a one followed by four hundred zeros, passes the
    pattern and is read as [Infinity].  So no number of a prediction
    payload is [NaN]. *)
Theorem parseStrictNumber_never_NaN :
  (∀ v n, parseStrictNumber v = Some n →
     n ≠ NaN ∧ (number_isFinite n = false → ∃ s, v = VStr s))
  ∧ parseStrictNumber (VStr Answers.ten_to_the_400) = Some PosInf
  ∧ ∀ a,
      PredictPayload.current_price (analysisToPredictPayload a) ≠ NaN
      ∧ Forall (λ n, n ≠ NaN)
          (PredictPayload.competitor_prices (analysisToPredictPayload a)).
Proof.
  split; [|split].
  - intros v n Hv. split; [by eapply parseStrictNumber_not_NaN|].
    destruct v as [| |b|m|s]; simpl in Hv; try done; [|by exists s].
    destruct (number_isFinite m) eqn:Hm; [|done]. injection Hv as <-. congruence.
  - vm_compute. reflexivity.
  - intros a. unfold analysisToPredictPayload. cbn [PredictPayload.current_price
      PredictPayload.competitor_prices].
    assert (default zero
              (parseStrictNumber
                 (UserProduct.currentPrice (ProductAnalysis.userProduct a)))
            ≠ NaN) as Huser.
    { destruct (parseStrictNumber _) as [n|] eqn:Hn; simpl;
        [by eapply parseStrictNumber_not_NaN|done]. }
    split; [done|].
    destruct (0 <? length _) eqn:Hsome; [|by constructor].
    rewrite MlMapperFacts.filter_non_null_map. apply Forall_forall.
    intros n (c & _ & Hn)%list_elem_of_omap.
    by eapply parseStrictNumber_not_NaN.
Qed.

End RangeFacts.

(** ** The fenced block of an answer *)

Module FenceFacts.
Import Js Shape GeminiAnalysis Occurrence MlMapperFacts TrimFacts.

Lemma strip_prefix_spec p s r : strip_prefix p s = Some r ↔ s = p +:+ r.
Proof.
  revert s. induction p as [|a p IH]; intros s; simpl.
  - rewrite string_app_nil_l. split; [by intros [= ->]|by intros ->].
  - destruct s as [|b s]; [done|]. rewrite string_app_cons.
    destruct (Ascii.eqb_spec a b) as [->|Hab].
    + rewrite IH. split; [by intros ->|by intros [= ->]].
    + split; [done|]. intros [= ? ?]. congruence.
Qed.

Lemma strip_prefix_prefix p s :
  String.prefix p s = true ↔ ∃ r, strip_prefix p s = Some r.
Proof.
  rewrite prefix_spec. split; intros [r Hr]; exists r; by apply strip_prefix_spec.
Qed.

Lemma strip_prefix_None p s : strip_prefix p s = None ↔ String.prefix p s = false.
Proof.
  destruct (strip_prefix p s) as [r|] eqn:Hr.
  - assert (String.prefix p s = true) as -> by (apply strip_prefix_prefix; eauto).
    done.
  - split; [|done]. intros _. apply not_true_is_false.
    intros [r Hr']%strip_prefix_prefix. congruence.
Qed.

(** [cut] finds an occurrence, and the first one. *)
Lemma cut_Some needle hay before after :
  cut needle hay = Some (before, after) →
  hay = before +:+ needle +:+ after
  ∧ ∀ before' after',
      hay = before' +:+ needle +:+ after' →
      String.length before ≤ String.length before'.
Proof.
  revert before. induction hay as [|c hay IH]; intros before; simpl.
  - destruct (strip_prefix needle EmptyString) as [r|] eqn:Hr; [|done].
    intros [= <- <-]. apply strip_prefix_spec in Hr.
    split; [done|]. intros; simpl; lia.
  - destruct (strip_prefix needle (String c hay)) as [r|] eqn:Hr.
    + intros [= <- <-]. apply strip_prefix_spec in Hr.
      split; [done|]. intros; simpl; lia.
    + destruct (cut needle hay) as [[b a]|] eqn:Hcut; [|done].
      intros [= <- <-]. destruct (IH _ eq_refl) as [-> Hfirst].
      split; [done|]. intros [|c' before'] after' Heq.
      * rewrite string_app_nil_l in Heq. apply strip_prefix_spec in Heq.
        congruence.
      * rewrite string_app_cons in Heq. injection Heq as -> Heq.
        simpl. apply le_n_S. by eapply Hfirst.
Qed.

(** [cut] finds nothing exactly when there is no occurrence. *)
Lemma cut_None needle hay : cut needle hay = None ↔ includes needle hay = false.
Proof.
  induction hay as [|c hay IH]; cbn [cut includes].
  - rewrite <- strip_prefix_None.
    by destruct (strip_prefix needle EmptyString).
  - rewrite orb_false_iff, <- strip_prefix_None, <- IH.
    destruct (strip_prefix needle (String c hay)); [split; [done|by intros []]|].
    destruct (cut needle hay) as [[b a]|]; [split; [done|by intros []]|done].
Qed.

Lemma cut_prefix needle hay after :
  strip_prefix needle hay = Some after → cut needle hay = Some (EmptyString, after).
Proof. intros H. destruct hay; simpl; by rewrite H. Qed.

Lemma cut_first needle before after :
  first_at needle → includes needle before = false →
  cut needle (before +:+ needle +:+ after) = Some (before, after).
Proof.
  intros Hfirst. induction before as [|c before IH].
  - intros _. rewrite string_app_nil_l. apply cut_prefix.
    by apply strip_prefix_spec.
  - cbn [includes]. intros [Hhere Hlater]%orb_false_iff.
    apply strip_prefix_None in Hhere.
    pose proof (Hfirst (String c before) after ltac:(done) Hhere) as Hnone.
    rewrite string_app_cons in *. cbn [cut]. rewrite Hnone.
    by rewrite (IH Hlater).
Qed.

(** One more character of [v] compared with the needle. *)
Ltac overlap v H :=
  destruct v as [|? v]; [reflexivity|];
  rewrite ?string_app_cons in *; cbn [strip_prefix] in H |- *;
  match goal with
  | |- context [Ascii.eqb ?a ?c] =>
      let E := fresh "E" in
      destruct (Ascii.eqb a c) eqn:E; [rewrite ?E in H | reflexivity]
  end.

Lemma fence_close_first : first_at fence_close.
Proof.
  intros v rest Hv H. destruct v as [|c v]; [done|]. clear Hv.
  change fence_close with (String "010"%char "```") in *.
  rewrite ?string_app_cons in *. cbn [strip_prefix] in H |- *.
  destruct (Ascii.eqb "010" c) eqn:E; [rewrite ?E in H | reflexivity].
  do 3 overlap v H. done.
Qed.

Lemma fence_open_first : first_at fence_open.
Proof.
  intros v rest Hv H. destruct v as [|c v]; [done|]. clear Hv.
  change fence_open with ("```json" +:+ String "010"%char EmptyString) in *.
  change ("```json" +:+ String "010"%char EmptyString)
    with (String "`" (String "`" (String "`" (String "j" (String "s" (String "o"
            (String "n" (String "010"%char EmptyString)))))))) in *.
  rewrite ?string_app_cons in *. cbn [strip_prefix] in H |- *.
  destruct (Ascii.eqb "`" c) eqn:E; [rewrite ?E in H | reflexivity].
  do 7 overlap v H. done.
Qed.

Lemma blank_no_fence text :
  every is_white text = true → cut fence_open text = None.
Proof.
  intros Hwhite. destruct (cut fence_open text) as [[before after]|] eqn:Hcut; [|done].
  apply cut_Some in Hcut as [-> _].
  rewrite !ReadingFacts.every_app in Hwhite.
  apply andb_true_iff in Hwhite as [_ Hwhite].
  apply andb_true_iff in Hwhite as [Hwhite _]. done.
Qed.

Lemma cleanJsonFromResponse_cases text :
  cleanJsonFromResponse text = trim text
  ∨ ∃ before body after,
      text = before +:+ fence_open +:+ body +:+ fence_close +:+ after
      ∧ body ≠ EmptyString ∧ cleanJsonFromResponse text = body.
Proof.
  unfold cleanJsonFromResponse, fenced.
  destruct (cut fence_open text) as [[before rest]|] eqn:Hopen; [|by left].
  cbn [mbind option_bind].
  destruct (cut fence_close rest) as [[body after]|] eqn:Hclose; [|by left].
  cbn. destruct (is_empty body) eqn:Hbody; [by left|]. right.
  apply cut_Some in Hopen as [-> _]. apply cut_Some in Hclose as [-> _].
  exists before, body, after. split; [done|]. split; [|done].
  by apply IngestionFacts.is_empty_false.
Qed.

Lemma cleanJsonFromResponse_blank text :
  cleanJsonFromResponse text = EmptyString ↔ every is_white text = true.
Proof.
  split.
  - intros Hempty. apply trim_blank.
    destruct (cleanJsonFromResponse_cases text)
      as [Heq|(before & body & after & _ & Hbody & Heq)]; congruence.
  - intros Hwhite. unfold cleanJsonFromResponse, fenced.
    rewrite (blank_no_fence _ Hwhite). cbn. by apply trim_blank.
Qed.

(** X7: [cleanJsonFromResponse] returns the body of the first fenced
    block, as it is written, whatever surrounds the block: for a body that
    is not empty and holds no closing fence, after a text that holds no
    opening fence. *)
Theorem cleanJsonFromResponse_fenced (before body after : string) :
  body ≠ EmptyString →
  includes fence_open before = false →
  includes fence_close body = false →
  cleanJsonFromResponse
    (before +:+ fence_open +:+ body +:+ fence_close +:+ after)
  = body.
Proof.
  intros Hbody Hbefore Hclose. unfold cleanJsonFromResponse, fenced.
  rewrite (cut_first _ _ _ fence_open_first Hbefore). cbn [mbind option_bind].
  rewrite (cut_first _ _ _ fence_close_first Hclose). cbn.
  by destruct body.
Qed.

Lemma cleanJsonFromResponse_fenced_witness :
  cleanJsonFromResponse Answers.example_answer = "{ }".
Proof.
  apply (cleanJsonFromResponse_fenced ("Here is the analysis." +:+ chr newline)
           "{ }" (chr newline)); done.
Defined.

(** X8: [cleanJsonFromResponse] returns either the whole text trimmed or
    the body, not empty, of a fenced block of the text.  Without an
    opening fence it is the text trimmed.  It is empty exactly for a text
    of white space.  A block with an empty body does not count: the text
    that is only such a block is returned whole, fences included. *)
Theorem cleanJsonFromResponse_fallback :
  (∀ text,
     cleanJsonFromResponse text = trim text
     ∨ ∃ before body after,
         text = before +:+ fence_open +:+ body +:+ fence_close +:+ after
         ∧ body ≠ EmptyString ∧ cleanJsonFromResponse text = body)
  ∧ (∀ text, includes fence_open text = false →
       cleanJsonFromResponse text = trim text)
  ∧ (∀ text, cleanJsonFromResponse text = EmptyString ↔ every is_white text = true)
  ∧ cleanJsonFromResponse (fence_open +:+ fence_close)
    = fence_open +:+ fence_close.
Proof.
  split; [apply cleanJsonFromResponse_cases|]. split; [|split].
  - intros text Hnone. apply cut_None in Hnone.
    unfold cleanJsonFromResponse, fenced. by rewrite Hnone.
  - apply cleanJsonFromResponse_blank.
  - vm_compute. reflexivity.
Qed.

End FenceFacts.

(** ** [performSingleAnalysis] *)

Module AnalysisFacts.
Import Js Shape GeminiService GeminiAnalysis FenceFacts Citations Failures.

Lemma string_length_app s t :
  String.length (s +:+ t) = String.length s + String.length t.
Proof.
  induction s as [|c s IH]; [done|]. rewrite string_app_cons. simpl. by rewrite IH.
Qed.

Lemma source_of_Some c s : source_of c = Some s → cites s c.
Proof.
  unfold source_of, chunk_uri. destruct (web c) as [w|] eqn:Hweb; [|done]. simpl.
  destruct (uri w) as [u|] eqn:Huri; [|done].
  destruct (is_empty u) eqn:Hu; [done|]. apply IngestionFacts.is_empty_false in Hu.
  intros [= <-]. exists w. simpl. split; [done|]. split; [done|]. split; [done|].
  destruct (title w) as [t|]; [|right; split; [by left|done]].
  destruct (is_empty t) eqn:Ht.
  - apply IngestionFacts.is_empty_true in Ht as ->. right. split; [by right|done].
  - apply IngestionFacts.is_empty_false in Ht. left. by exists t.
Qed.

Lemma source_of_None c : source_of c = None → ¬ addressed (AnObject c).
Proof.
  unfold source_of, chunk_uri.
  intros Hnone (c' & w & u & [= <-] & Hweb & Huri & Hu). rewrite Hweb in Hnone.
  simpl in Hnone. rewrite Huri in Hnone.
  apply IngestionFacts.is_empty_false in Hu. by rewrite Hu in Hnone.
Qed.

(** The two passes over the array of chunks: they throw on the first
    element that is [null] or [undefined], and otherwise give the sources
    of the elements with an address. *)
Lemma chunk_sources_cases k chunks :
  match map_throwing chunk_source k chunks with
  | Ok marks => Forall readable chunks ∧ sourced chunks (omap id marks)
  | Throw message =>
      ∃ i v, first_missing chunks i v ∧ message = no_chunk_message (to_string v)
  end.
Proof.
  revert k. induction chunks as [|chunk chunks IH]; intros k.
  { simpl. split; constructor. }
  cbn [map_throwing]. specialize (IH (S k)).
  assert (∀ message v,
            chunk = NotAnObject v → v = VNull ∨ v = VUndefined →
            message = no_chunk_message (to_string v) →
            ∃ i v, first_missing (chunk :: chunks) i v
                   ∧ message = no_chunk_message (to_string v)) as Hfirst.
  { intros message v -> Hv ->. exists 0, v. split; [|done].
    split; [done|]. split; [done|]. intros j chunk Hj. lia. }
  assert (∀ mark,
            chunk_source k chunk = Ok mark →
            readable chunk
            ∧ match mark with
              | Some s => ∃ c, chunk = AnObject c ∧ cites s c
              | None => ¬ addressed chunk
              end) as Hmark.
  { intros mark. destruct chunk as [c|v]; simpl.
    - intros [= <-]. split; [done|].
      destruct (source_of c) as [s|] eqn:Hs.
      + exists c. split; [done|]. by apply source_of_Some.
      + by apply source_of_None.
    - destruct v; try done; intros [= <-]; (split; [done|]);
        by intros (? & ? & ? & [=] & _). }
  destruct (chunk_source k chunk) as [mark|message] eqn:Hchunk.
  - destruct (Hmark mark eq_refl) as [Hreadable Hcites].
    destruct (map_throwing chunk_source (S k) chunks) as [marks|message].
    + destruct IH as [Hall Hsourced]. split; [by constructor|].
      destruct mark as [s|]; simpl.
      * destruct Hcites as (c & -> & Hcites). by constructor.
      * by apply sourced_passed.
    + destruct IH as (i & v & (Hi & Hv & Hbefore) & ->).
      exists (S i), v. split; [|done]. split; [done|]. split; [done|].
      intros [|j] chunk' Hj; [by intros [= <-]|].
      apply Hbefore. lia.
  - destruct chunk as [c|[]]; try done; simpl in Hchunk; injection Hchunk as <-.
    + apply (Hfirst _ VUndefined); auto.
    + apply (Hfirst _ VNull); auto.
Qed.

Lemma sources_of_cases chunks :
  match sources_of chunks with
  | Ok sources => Forall readable chunks ∧ sourced chunks sources
  | Throw message =>
      ∃ i v, first_missing chunks i v ∧ message = no_chunk_message (to_string v)
  end.
Proof.
  unfold sources_of. pose proof (chunk_sources_cases 0 chunks) as H.
  by destruct (map_throwing chunk_source 0 chunks).
Qed.

Lemma first_missing_unreadable chunks i v :
  first_missing chunks i v → ¬ Forall readable chunks.
Proof.
  intros (Hi & Hv & _) Hall.
  apply (Forall_lookup_1 _ _ _ _ Hall) in Hi as [Hnull Hundefined].
  by destruct Hv as [-> | ->].
Qed.

Lemma first_missing_unique chunks i v j w :
  first_missing chunks i v → first_missing chunks j w → v = w.
Proof.
  intros (Hi & Hv & Hbefore) (Hj & Hw & Hbefore').
  destruct (Nat.lt_trichotomy i j) as [Hlt|[->|Hlt]].
  - destruct (Hbefore' i _ Hlt Hi) as [? ?]. by destruct Hv as [-> | ->].
  - rewrite Hi in Hj. by injection Hj.
  - destruct (Hbefore j _ Hlt Hj) as [? ?]. by destruct Hw as [-> | ->].
Qed.

Lemma sources_of_readable chunks :
  Forall readable chunks → ∃ sources, sources_of chunks = Ok sources.
Proof.
  intros Hall. pose proof (sources_of_cases chunks) as H.
  destruct (sources_of chunks) as [sources|message]; [by exists sources|].
  destruct H as (i & v & Hfirst & _).
  by apply first_missing_unreadable in Hfirst.
Qed.

Lemma sources_of_missing chunks i v :
  first_missing chunks i v →
  sources_of chunks = Throw (no_chunk_message (to_string v)).
Proof.
  intros Hfirst. pose proof (sources_of_cases chunks) as H.
  destruct (sources_of chunks) as [sources|message].
  - destruct H as [Hall _]. by apply first_missing_unreadable in Hfirst.
  - destruct H as (j & w & Hfirst' & ->).
    by rewrite (first_missing_unique _ _ _ _ _ Hfirst Hfirst').
Qed.

Section Model.
Variable generateContent : nat → string → string → attempt GenerateContentResponse.
Variable JSON_parse : string → result (any ProductAnalysis.t).
Variables (call : nat) (id : UserIdentifier) (urls : list string).

(** How the [try] block goes after the text of the response is known. *)
Lemma analysis_attempt_text response t :
  generateContent call (userProductPrompt id) (competitorsPrompt urls)
  = Return response →
  text response = Some t →
  analysis_attempt generateContent JSON_parse call id urls
  = if every is_white t then Raise (AnError empty_response_message)
    else
      result ← of_result (JSON_parse (cleanJsonFromResponse t));
      match groundingChunks response with
      | NoChunks => Return result
      | Chunks chunks =>
          sources ← of_result (sources_of chunks);
          of_result (assign_sources sources result)
      | NotAnArray => Raise (AnError not_an_array_message)
      end.
Proof.
  intros Hasked Htext. unfold analysis_attempt. rewrite Hasked.
  cbn [mbind attempt_bind]. rewrite Htext. cbn [mbind attempt_bind].
  pose proof (cleanJsonFromResponse_blank t) as Hblank.
  destruct (every is_white t) eqn:Hwhite.
  - rewrite (proj2 Hblank eq_refl). reflexivity.
  - destruct (is_empty (cleanJsonFromResponse t)) eqn:Hempty; [|done].
    apply IngestionFacts.is_empty_true, Hblank in Hempty. done.
Qed.

(** The ways the [try] block ends. *)
Lemma analysis_attempt_cases :
  match analysis_attempt generateContent JSON_parse call id urls with
  | Return r => returned generateContent JSON_parse call id urls r
  | Raise cause => thrown_in_try generateContent JSON_parse call id urls cause
  end.
Proof.
  destruct (generateContent call (userProductPrompt id) (competitorsPrompt urls))
    as [response|cause] eqn:Hasked.
  2:{ unfold analysis_attempt. rewrite Hasked. by apply thrown_by_model. }
  destruct (text response) as [t|] eqn:Htext.
  2:{ unfold analysis_attempt. rewrite Hasked. cbn [mbind attempt_bind].
      rewrite Htext. by apply (thrown_without_text _ _ _ _ _ response). }
  rewrite (analysis_attempt_text response t Hasked Htext).
  destruct (every is_white t) eqn:Hwhite.
  { by apply (thrown_on_blank_text _ _ _ _ _ response t). }
  assert (answered generateContent call id urls response t) as Hanswered by done.
  destruct (JSON_parse (cleanJsonFromResponse t)) as [parsed|message] eqn:Hparse;
    cbn [of_result mbind attempt_bind].
  2:{ by apply (thrown_by_parse _ _ _ _ _ response t). }
  assert (parsed_as generateContent JSON_parse call id urls response parsed)
    as Hparsed by (by exists t).
  destruct (groundingChunks response) as [|chunks|] eqn:Hchunks.
  - exists response, parsed. by rewrite Hchunks.
  - pose proof (sources_of_cases chunks) as Hsources.
    destruct (sources_of chunks) as [sources|message];
      cbn [of_result mbind attempt_bind].
    + destruct Hsources as [Hall Hsourced].
      destruct parsed as [a|v]; cbn [assign_sources of_result].
      * exists response, (AnObject a). rewrite Hchunks. split; [done|].
        by exists a, sources.
      * by apply (thrown_by_assignment _ _ _ _ _ response chunks).
    + destruct Hsources as (i & v & Hfirst & ->).
      by apply (thrown_by_chunk _ _ _ _ _ response parsed chunks i).
  - by apply (thrown_by_filter _ _ _ _ _ response parsed).
Qed.

(** Every place of the list throws, and what it throws. *)
Lemma thrown_in_try_raised cause :
  thrown_in_try generateContent JSON_parse call id urls cause →
  analysis_attempt generateContent JSON_parse call id urls = Raise cause.
Proof.
  intros Hthrown.
  destruct Hthrown
    as [cause Hasked|response Hasked Htext|response t Hasked Htext Hwhite
        |response t message (Hasked & Htext & Hwhite) Hparse
        |response parsed (t & (Hasked & Htext & Hwhite) & Hparse) Hchunks
        |response parsed chunks i v (t & (Hasked & Htext & Hwhite) & Hparse)
           Hchunks Hfirst
        |response chunks v (t & (Hasked & Htext & Hwhite) & Hparse)
           Hchunks Hall];
    try (rewrite (analysis_attempt_text response t Hasked Htext), Hwhite, ?Hparse;
         cbn [of_result mbind attempt_bind]; rewrite ?Hchunks).
  - unfold analysis_attempt. by rewrite Hasked.
  - unfold analysis_attempt. rewrite Hasked. cbn [mbind attempt_bind].
    by rewrite Htext.
  - done.
  - done.
  - done.
  - by rewrite (sources_of_missing chunks i v Hfirst).
  - destruct (sources_of_readable chunks Hall) as [sources ->]. done.
Qed.

End Model.

(** The message the [catch] block gives is never the message it received. *)
Lemma rewritten_message_differs message :
  (if includes "JSON" message then unprocessable_message
   else failed_message message) ≠ message.
Proof.
  destruct (includes "JSON" message) eqn:Hjson.
  - intros <-. by vm_compute in Hjson.
  - intros Heq. apply (f_equal String.length) in Heq. unfold failed_message in Heq.
    rewrite !string_length_app in Heq. simpl in Heq. lia.
Qed.

(** X9: [performSingleAnalysis] passes no exception on as it is.  It
    throws exactly when an exception arises in its [try] block: from the
    call of the model, from reading the text of a response without text,
    from the check for an empty answer, from [JSON.parse], from [filter]
    on grounding chunks that are no array or on a chunk that is [null] or
    [undefined], or from setting [sources] on a parsed value that is no
    object.  The message thrown is the fixed one about a response that
    could not be processed when the exception is an [Error] whose message
    has [JSON] in it; [Failed to get analysis from AI: ], the message and
    a full stop for any other [Error]; and the fixed one about an unknown
    error for a value that is no [Error].  It is never the message of the
    exception itself. *)
Theorem performSingleAnalysis_rewrites_errors
    (generateContent : nat → string → string → attempt GenerateContentResponse)
    (JSON_parse : string → result (any ProductAnalysis.t))
    (call : nat) (id : UserIdentifier) (urls : list string) :
  let thrown := thrown_in_try generateContent JSON_parse call id urls in
  let outcome := performSingleAnalysis generateContent JSON_parse call id urls in
  (∀ message,
     outcome = Throw message
     ↔ ∃ cause,
         thrown cause
         ∧ message
           = match cause with
             | AnError inner =>
                 if includes "JSON" inner
                 then "The AI returned a response that could not be processed. Please try your request again."
                 else "Failed to get analysis from AI: " +:+ inner +:+ "."
             | NotAnError => "An unknown error occurred during AI analysis."
             end)
  ∧ (∀ inner message,
       thrown (AnError inner) → outcome = Throw message → message ≠ inner)
  ∧ (thrown NotAnError
     → generateContent call (userProductPrompt id) (competitorsPrompt urls)
       = Raise NotAnError).
Proof.
  intros thrown outcome.
  pose proof (analysis_attempt_cases generateContent JSON_parse call id urls)
    as Hcases.
  assert (∀ cause,
            thrown cause →
            outcome
            = Throw match cause with
                    | AnError inner =>
                        if includes "JSON" inner then unprocessable_message
                        else failed_message inner
                    | NotAnError => unknown_error_message
                    end) as Hraised.
  { intros cause Hcause. unfold outcome, performSingleAnalysis.
    rewrite (thrown_in_try_raised _ _ _ _ _ _ Hcause).
    destruct cause as [inner|]; [|done]. by destruct (includes "JSON" inner). }
  split; [|split].
  - intros message. split.
    + intros Hthrow. unfold outcome, performSingleAnalysis in Hthrow.
      destruct (analysis_attempt _ _ _ _ _) as [r|cause]; [done|].
      exists cause. split; [done|].
      destruct cause as [inner|]; [|by injection Hthrow].
      by destruct (includes "JSON" inner); injection Hthrow.
    + intros (cause & Hcause & ->). by rewrite (Hraised _ Hcause).
  - intros inner message Hcause Hthrow. rewrite (Hraised _ Hcause) in Hthrow.
    injection Hthrow as <-. apply rewritten_message_differs.
  - intros Hcause. by inversion Hcause.
Qed.

(** X10: when the text of the response is nothing but white space,
    [performSingleAnalysis] throws the error of the empty answer inside
    the general wrapping, whatever [JSON.parse] would do: the message ends
    with two full stops, the one of the inner message and the one the
    wrapping adds. *)
Theorem performSingleAnalysis_blank_answer
    (generateContent : nat → string → string → attempt GenerateContentResponse)
    (JSON_parse : string → result (any ProductAnalysis.t))
    (call : nat) (id : UserIdentifier) (urls : list string)
    (response : GenerateContentResponse) (t : string) :
  generateContent call (userProductPrompt id) (competitorsPrompt urls)
  = Return response →
  text response = Some t →
  every is_white t = true →
  performSingleAnalysis generateContent JSON_parse call id urls
  = Throw "Failed to get analysis from AI: Received an empty response from the AI. The analysis could not be completed. Please try again..".
Proof.
  intros Hasked Htext Hwhite. unfold performSingleAnalysis.
  by rewrite (analysis_attempt_text _ _ _ _ _ response t Hasked Htext), Hwhite.
Qed.

Lemma performSingleAnalysis_blank_answer_witness :
  performSingleAnalysis
    (λ _ _ _, Return (mkResponse (Some (" " +:+ chr newline)) NoChunks))
    (λ _, Throw "unused") 0 (ByUrl "https://shop.example/lamp") []
  = Throw "Failed to get analysis from AI: Received an empty response from the AI. The analysis could not be completed. Please try again..".
Proof.
  by apply (performSingleAnalysis_blank_answer _ _ _ _ _
              (mkResponse (Some (" " +:+ chr newline)) NoChunks)
              (" " +:+ chr newline)).
Defined.

(** X11: when [performSingleAnalysis] returns, the model returned a
    response with a text that is not all white space, and [JSON.parse]
    returned a value for the cleaned text.  Without grounding chunks that
    value is returned as it is, object or not.  With grounding chunks the
    value is an object and is returned changed in its sources only: they
    cite the chunks that have an address, one for one and in their order,
    each with the address of its chunk and with the title of its chunk,
    or with the address for a title where the chunk has no title or an
    empty one; so no address and no title is empty, and there are no more
    sources than chunks. *)
Theorem performSingleAnalysis_sources
    (generateContent : nat → string → string → attempt GenerateContentResponse)
    (JSON_parse : string → result (any ProductAnalysis.t))
    (call : nat) (id : UserIdentifier) (urls : list string)
    (r : any ProductAnalysis.t) :
  performSingleAnalysis generateContent JSON_parse call id urls = Ok r →
  ∃ response t parsed,
    generateContent call (userProductPrompt id) (competitorsPrompt urls)
    = Return response
    ∧ text response = Some t ∧ every is_white t = false
    ∧ JSON_parse (cleanJsonFromResponse t) = Ok parsed
    ∧ match groundingChunks response with
      | NoChunks => r = parsed
      | Chunks chunks =>
          ∃ a sources,
            parsed = AnObject a
            ∧ r = AnObject (set_sources (Some sources) a)
            ∧ Forall readable chunks
            ∧ sourced chunks sources
            ∧ Forall (λ s, Source.uri s ≠ EmptyString
                           ∧ Source.title s ≠ EmptyString) sources
            ∧ length sources ≤ length chunks
      | NotAnArray => False
      end.
Proof.
  intros Hok. unfold performSingleAnalysis in Hok.
  pose proof (analysis_attempt_cases generateContent JSON_parse call id urls)
    as Hcases.
  destruct (analysis_attempt _ _ _ _ _) as [r'|cause].
  2:{ destruct cause as [inner|]; [|done]. by destruct (includes "JSON" inner). }
  injection Hok as ->.
  destruct Hcases
    as (response & parsed & (t & (Hasked & Htext & Hwhite) & Hparse) & Hreturned).
  exists response, t, parsed. repeat (split; [done|]).
  destruct (groundingChunks response) as [|chunks|]; [done| |done].
  destruct Hreturned as (a & sources & -> & Hall & Hsourced & ->).
  exists a, sources. repeat (split; [done|]).
  clear -Hsourced. induction Hsourced as [|c s chunks sources Hcites _ [IH1 IH2]
                                          |chunk chunks sources _ _ [IH1 IH2]].
  - split; [constructor|done].
  - split; [|simpl; lia]. constructor; [|done].
    destruct Hcites as (w & _ & _ & Huri & [(t & _ & Ht & ->)|[_ ->]]); done.
  - split; [done|simpl; lia].
Qed.

Lemma performSingleAnalysis_sources_witness :
  ∃ response t parsed,
    Answers.example_model 0
      (userProductPrompt (ByUrl "https://shop.example/lamp"))
      (competitorsPrompt [])
    = Return response
    ∧ text response = Some t
    ∧ Answers.example_parse (cleanJsonFromResponse t) = Ok parsed.
Proof.
  destruct (performSingleAnalysis_sources Answers.example_model
              Answers.example_parse 0 (ByUrl "https://shop.example/lamp") []
              (AnObject
                 (set_sources
                    (Some [Source.mk "https://shop.example/lamp"
                             "https://shop.example/lamp"])
                    Sample.example_one))
              ltac:(vm_compute; reflexivity))
    as (response & t & parsed & H1 & H2 & _ & H3 & _).
  by exists response, t, parsed.
Defined.

(** The three branches of the [catch] block and a parsed [null] at work. *)
Example performSingleAnalysis_examples :
  let lamp := ByUrl "https://shop.example/lamp" in
  let bare := λ (_ : nat) (_ _ : string),
                Return (mkResponse (Some Answers.example_answer) NoChunks) in
  performSingleAnalysis (λ _ _ _, Raise NotAnError) Answers.example_parse 0 lamp []
  = Throw "An unknown error occurred during AI analysis."
  ∧ performSingleAnalysis (λ _ _ _, Raise (AnError "quota exceeded"))
      Answers.example_parse 0 lamp []
    = Throw "Failed to get analysis from AI: quota exceeded."
  ∧ performSingleAnalysis Answers.example_model
      (λ _, Throw "Unexpected end of JSON input") 0 lamp []
    = Throw "The AI returned a response that could not be processed. Please try your request again."
  ∧ performSingleAnalysis Answers.example_model (λ _, Ok (NotAnObject VNull))
      0 lamp []
    = Throw "Failed to get analysis from AI: Cannot set properties of null (setting 'sources')."
  ∧ performSingleAnalysis bare (λ _, Ok (NotAnObject VNull)) 0 lamp []
    = Ok (NotAnObject VNull).
Proof. cbv zeta. repeat split; reflexivity. Qed.

End AnalysisFacts.

(** ** The prompt *)

Module PromptFacts.
Import Js Shape GeminiService GeminiAnalysis.

(** X12: the prompt of a batch item always names the product: by its URL
    when the row has one, and otherwise by its quoted name and its price
    in rupees.  The competitor part of a prompt mentions every competitor
    URL it is given.  Only an identifier with an empty URL leaves the
    product part empty. *)
Theorem prompt_names_the_product :
  (∀ product : CsvProduct.t,
     let asked := userProductPrompt (userIdentifier product) in
     asked ≠ EmptyString
     ∧ (CsvProduct.userProductUrl product ≠ EmptyString →
        asked = "User's Product URL: " +:+ CsvProduct.userProductUrl product)
     ∧ (CsvProduct.userProductUrl product = EmptyString →
        mentions asked (InputForm.quoted (CsvProduct.productName product))
        ∧ mentions asked
            (number_to_string (CsvProduct.currentPrice product) +:+ " INR.")))
  ∧ (∀ competitorUrls url,
       url ∈ competitorUrls → mentions (competitorsPrompt competitorUrls) url)
  ∧ userProductPrompt (ByUrl EmptyString) = EmptyString.
Proof.
  split; [|split; [|done]].
  - intros product asked. unfold asked, userIdentifier, userProductPrompt.
    destruct (is_empty (CsvProduct.userProductUrl product)) eqn:Hurl.
    + apply IngestionFacts.is_empty_true in Hurl. split; [done|].
      split; [done|]. intros _. split.
      * exists "User's Product Name: ". eexists. reflexivity.
      * exists ("User's Product Name: "
                +:+ InputForm.quoted (CsvProduct.productName product)
                +:+ ", Current Price: "), EmptyString.
        by rewrite !string_app_assoc, string_app_nil_r.
    + rewrite Hurl. apply IngestionFacts.is_empty_false in Hurl.
      split; [done|]. split; [done|]. done.
  - intros competitorUrls url Hin. unfold competitorsPrompt.
    destruct competitorUrls as [|u us]; [by apply elem_of_nil in Hin|].
    cbn [length Nat.ltb Nat.leb].
    destruct (BatchFacts.join_mentions ", " (u :: us) url Hin)
      as (before & after & ->).
    exists ("Analyze the provided competitor URLs: " +:+ before), after.
    by rewrite !string_app_assoc.
Qed.

End PromptFacts.

(** ** The errors [handleAnalysis] shows *)

Module ErrorFacts.
Import Js Shape GeminiService GeminiAnalysis Outcomes Casting.

(** X13: the messages of the error state of [handleAnalysis], when the
    analyses come from [performSingleAnalysis], however the rest of the
    program reads a result that is no object.  For a URL, the message is
    the one about the required URL, for the empty URL and no other; or the
    one about a response that could not be processed; or the one about an
    unknown error; or [Failed to get analysis from AI: ], a cause without
    [JSON] in it, and a full stop.  For a batch, the only error is the one
    of a batch that is not empty and whose calls all failed, and its
    message is the aggregate one with the names of all products: the
    cause of no single failure is shown. *)
Theorem handleAnalysis_error_messages
    (generateContent : nat → string → string → attempt GenerateContentResponse)
    (JSON_parse : string → result (any ProductAnalysis.t))
    (view : value → ProductAnalysis.t)
    (predictPrice : PredictPayload.t → result number)
    (predictBatch : list PredictPayload.t → result (option (list value))) :
  let perform := typed view (performSingleAnalysis generateContent JSON_parse) in
  let handle := App.handleAnalysis perform predictPrice predictBatch in
  (∀ url urls message,
     handle (App.InputUrl url urls) = App.failed message →
     (url = EmptyString
      ∧ message = "User product URL is required for single product analysis.")
     ∨ (url ≠ EmptyString
        ∧ (message = "The AI returned a response that could not be processed. Please try your request again."
           ∨ message = "An unknown error occurred during AI analysis."
           ∨ ∃ cause, message = "Failed to get analysis from AI: " +:+ cause +:+ "."
                      ∧ ¬ mentions cause "JSON")))
  ∧ (∀ products message,
       handle (App.InputCsv products) = App.failed message →
       products ≠ []
       ∧ message = all_failed_message (CsvProduct.productName <$> products)
       ∧ Forall (λ r, is_success r = false) (batch_outcomes perform products)).
Proof.
  intros perform handle. split.
  - intros url urls message.
    unfold handle, App.handleAnalysis, analyzeSingleProduct.
    destruct (is_empty url) eqn:Hurl.
    { apply IngestionFacts.is_empty_true in Hurl. intros [= <-]. by left. }
    apply IngestionFacts.is_empty_false in Hurl.
    unfold perform, typed.
    destruct (performSingleAnalysis _ _ _ _ _) as [r|e] eqn:Hperform; [done|].
    cbn [mbind result_bind]. intros [= <-]. right. split; [done|].
    unfold performSingleAnalysis in Hperform.
    destruct (analysis_attempt _ _ _ _ _) as [r|[cause|]]; [done| |].
    + destruct (includes "JSON" cause) eqn:Hjson; injection Hperform as <-;
        [by left|].
      right. right. exists cause. split; [done|].
      intros Hmentions%MlMapperFacts.includes_mentions. congruence.
    + injection Hperform as <-. right. by left.
  - intros products message. unfold handle, App.handleAnalysis.
    rewrite BatchFacts.analyzeBatchProducts_outcomes. cbv zeta.
    set (outcomes := batch_outcomes _ products).
    destruct (length (successes outcomes) =? 0) eqn:Hnone; [|done].
    destruct (0 <? length products) eqn:Hsome; [|done]. simpl.
    apply Nat.eqb_eq, PartitionFacts.no_success_all_failed in Hnone.
    apply Nat.ltb_lt in Hsome.
    assert (length outcomes = length products) as Hlen by apply length_imap.
    destruct (BatchFacts.all_failures products outcomes Hlen Hnone) as [_ ->].
    intros [= <-]. split; [|done]. intros ->. simpl in Hsome. lia.
Qed.

End ErrorFacts.

(** ** The price service *)

Module PriceFacts.
Import Js Shape PriceService Prediction.


(** X15: in the single mode the prediction is coerced to a number before
    it is tested.  For an [ok] response with a JSON body other than
    [null], the suggested price becomes the rounded coercion of
    [predicted_price] (or of its first element, when it is an array)
    whenever that coercion is finite.  So a [predicted_price] that is
    [null], [false], the empty text, or an array that starts with [null]
    or with an empty array sets the suggested price to zero; a body
    without [predicted_price], or with the empty array for it, leaves the
    analysis as it is. *)
Theorem single_prediction_is_coerced
    (performSingleAnalysis :
       nat → GeminiService.UserIdentifier → list string → result ProductAnalysis.t)
    (fetch_predict : PredictPayload.t → result Response)
    (fetch_batch : list PredictPayload.t → result Response)
    (url : string) (urls : list string) (a : ProductAnalysis.t)
    (res : Response) (data : Json.t) :
  GeminiService.analyzeSingleProduct performSingleAnalysis url urls = Ok a →
  fetch_predict (MlMapper.analysisToPredictPayload a) = Ok res →
  ok res = true → json res = Ok data → data ≠ Json.Null →
  let state := handle performSingleAnalysis fetch_predict fetch_batch
                 (App.InputUrl url urls) in
  let predicted_price := Json.get "predicted_price" data in
  let n := Json.Number (match predicted_price with
                        | Some (Json.Arr items) => items !! 0
                        | _ => predicted_price
                        end) in
  state = App.succeeded
            [if number_isFinite n
             then ProductAnalysis.set_suggestedPrice (Math_round n) a
             else a]
  ∧ (predicted_price = Some Json.Null
     ∨ predicted_price = Some (Json.Bool false)
     ∨ predicted_price = Some (Json.Str EmptyString)
     ∨ (∃ rest, predicted_price = Some (Json.Arr (Json.Null :: rest)))
     ∨ (∃ rest, predicted_price = Some (Json.Arr (Json.Arr [] :: rest))) →
     state = App.succeeded [ProductAnalysis.set_suggestedPrice zero a])
  ∧ (predicted_price = None ∨ predicted_price = Some (Json.Arr []) →
     state = App.succeeded [a]).
Proof.
  intros Hai Hfetch Hok Hjson Hdata state predicted_price n.
  assert (predictPrice fetch_predict (MlMapper.analysisToPredictPayload a) = Ok n)
    as Hpredict.
  { unfold predictPrice. rewrite Hfetch. cbn [mbind result_bind]. rewrite Hok.
    cbn [throw_unless mbind result_bind]. rewrite Hjson. cbn [mbind result_bind].
    by destruct data. }
  assert (state = App.succeeded
                    [if number_isFinite n
                     then ProductAnalysis.set_suggestedPrice (Math_round n) a
                     else a]) as Hstate.
  { unfold state, handle, App.handleAnalysis. rewrite Hai.
    unfold App.refine_single. by rewrite Hpredict. }
  split; [done|]. split.
  - intros Hcases. rewrite Hstate. unfold n.
    destruct Hcases as [-> | [-> | [-> | [[rest ->] | [rest ->]]]]]; reflexivity.
  - intros Hcases. rewrite Hstate. unfold n.
    by destruct Hcases as [-> | ->].
Qed.

Lemma single_prediction_is_coerced_witness :
  handle Sample.ai_500 Answers.null_price Answers.mixed_prices
    (App.InputUrl "https://shop.example/lamp" [])
  = App.succeeded
      [ProductAnalysis.mk
         (UserProduct.mk None "Lamp" (VNum (Fin (inject_Z 480))) None None None)
         (Some []) zero "reasoning" "summary" "history" None].
Proof.
  destruct (single_prediction_is_coerced Sample.ai_500 Answers.null_price
              Answers.mixed_prices "https://shop.example/lamp" []
              Answers.lamp_analysis
              (mkResponse true 200 (Ok (Json.Obj [("predicted_price", Json.Null)])))
              (Json.Obj [("predicted_price", Json.Null)])
              eq_refl eq_refl eq_refl eq_refl ltac:(discriminate))
    as (_ & H & _).
  apply H. by left.
Defined.

Lemma imap_unrefined (analyses : list ProductAnalysis.t) :
  imap (λ _ a, Refinement.refined a None) analyses = analyses.
Proof.
  change (imap (λ _ a, Refinement.refined a None) analyses)
    with (imap (const id) analyses).
  rewrite imap_const. apply list_fmap_id.
Qed.

(** X16: in the batch mode the predictions are tested as they are.  For
    an [ok] response with a JSON body, when [predicted_prices] is an
    array, the analysis at every position takes the rounded prediction at
    its position if that is a finite number, and is left as it is for any
    other prediction, [null] and numeric texts included, and where the
    array has none; when [predicted_prices] is missing or no array, every
    analysis is left as it is. *)
Theorem batch_prediction_is_not_coerced
    (performSingleAnalysis :
       nat → GeminiService.UserIdentifier → list string → result ProductAnalysis.t)
    (fetch_predict : PredictPayload.t → result Response)
    (fetch_batch : list PredictPayload.t → result Response)
    (products : list CsvProduct.t) (analyses : AnalysisResult)
    (res : Response) (data : Json.t) :
  GeminiService.analyzeBatchProducts performSingleAnalysis products = Ok analyses →
  fetch_batch (MlMapper.analysesToPredictPayloads analyses) = Ok res →
  ok res = true → json res = Ok data →
  let state := handle performSingleAnalysis fetch_predict fetch_batch
                 (App.InputCsv products) in
  match Json.get "predicted_prices" data with
  | Some (Json.Arr items) =>
      ∃ result,
        state = App.succeeded result
        ∧ length result = length analyses
        ∧ ∀ j a, analyses !! j = Some a →
            result !! j
            = Some (match items !! j with
                    | Some (Json.Num (Fin q)) =>
                        ProductAnalysis.set_suggestedPrice (Math_round (Fin q)) a
                    | _ => a
                    end)
  | _ => state = App.succeeded analyses
  end.
Proof.
  intros Hai Hfetch Hok Hjson state.
  assert (predictions fetch_batch (MlMapper.analysesToPredictPayloads analyses)
          = match data with
            | Json.Null =>
                Throw "Cannot read properties of null (reading 'predicted_prices')"
            | _ =>
                Ok (match Json.get "predicted_prices" data with
                    | Some (Json.Arr items) => Some (Json.as_value <$> items)
                    | _ => None
                    end)
            end) as Hpredictions.
  { unfold predictions, predictBatch. rewrite Hfetch. cbn [mbind result_bind].
    rewrite Hok. cbn [throw_unless mbind result_bind]. rewrite Hjson.
    cbn [mbind result_bind]. by destruct data. }
  assert (state
          = App.succeeded
              (imap (λ j a,
                       Refinement.refined a
                         (match Json.get "predicted_prices" data with
                          | Some (Json.Arr items) => Json.as_value <$> items !! j
                          | _ => None
                          end)) analyses)) as ->.
  { unfold state, handle, App.handleAnalysis. rewrite Hai.
    rewrite RefinementFacts.refine_batch_refined, Hpredictions. f_equal.
    apply imap_ext. intros j a _. simpl.
    destruct data as [| | | | |fields]; try done.
    destruct (Json.get "predicted_prices" (Json.Obj fields)) as [[]|]; try done.
    by rewrite list_lookup_fmap. }
  destruct (Json.get "predicted_prices" data) as [preds|] eqn:Hget.
  2:{ f_equal. apply imap_unrefined. }
  destruct preds as [| | | |items|]; try (f_equal; apply imap_unrefined).
  eexists. split; [done|]. split; [apply length_imap|].
  intros j a Hj. rewrite list_lookup_imap, Hj. simpl. f_equal.
  by destruct (items !! j) as [[| |[]| | |]|].
Qed.

Lemma batch_prediction_is_not_coerced_witness :
  ∃ result,
    handle Sample.ai_500 Answers.null_price Answers.mixed_prices
      (App.InputCsv Sample.example_products)
    = App.succeeded result
    ∧ length result = 3.
Proof.
  pose proof (batch_prediction_is_not_coerced Sample.ai_500 Answers.null_price
                Answers.mixed_prices Sample.example_products
                (replicate 3 Answers.lamp_analysis)
                (mkResponse true 200
                   (Ok (Json.Obj
                          [("predicted_prices",
                            Json.Arr [ Json.Num (Fin (Qmake 9 2));
                                       Json.Str "451.2"; Json.Null ])])))
                (Json.Obj
                   [("predicted_prices",
                     Json.Arr [ Json.Num (Fin (Qmake 9 2));
                                Json.Str "451.2"; Json.Null ])])
                eq_refl eq_refl eq_refl eq_refl) as H.
  cbv zeta in H. destruct H as (result & H1 & H2 & _).
  exists result. by split.
Defined.

(** C1: a malformed answer of the prediction service is not always
    taken for a failure.  The AI suggests 500, and the service answers
    the request of the single mode with the status 200 and the body
    [{"predicted_price": null}].  [predictPrice] resolves to
    [Number(null)], which is 0 and finite, and [handleAnalysis] ends in
    the success state with the suggested price 0 in the place of 500.
    The batch mode tests the answer as it is: for the body
    [{"predicted_prices": [null]}] it keeps 500. *)
Theorem malformed_prediction_overwrites_price :
  let run := handle Sample.ai_500 Answers.null_price Answers.null_prices in
  let lamp := Answers.lamp_analysis in
  GeminiService.analyzeSingleProduct Sample.ai_500 "https://shop.example/lamp" []
  = Ok lamp
  ∧ GeminiService.analyzeBatchProducts Sample.ai_500 Answers.lamp_products
    = Ok [lamp]
  ∧ ProductAnalysis.suggestedPrice lamp = Fin (inject_Z 500)
  ∧ predictPrice Answers.null_price (MlMapper.analysisToPredictPayload lamp)
    = Ok (Fin (inject_Z 0))
  ∧ run (App.InputUrl "https://shop.example/lamp" [])
    = App.succeeded
        [ProductAnalysis.set_suggestedPrice (Fin (inject_Z 0)) lamp]
  ∧ predictions Answers.null_prices (MlMapper.analysesToPredictPayloads [lamp])
    = Ok (Some [VNull])
  ∧ run (App.InputCsv Answers.lamp_products) = App.succeeded [lamp].
Proof.
  cbv zeta. repeat split; reflexivity.
Qed.

End PriceFacts.
(** ** The reports on competitors and on price histories *)

Module ReportFacts.
Import Js Shape CsvExport CsvReports Histories EscapeFacts ReadingFacts ExportFacts.

(** Reading back a report whose rows are made of escaped fields. *)
Lemma csv_records_report (h : string) (hs : list string) (rows : list (list string)) :
  Forall (λ f, every ordinary f = true) (h :: hs) →
  Forall (λ r, r ≠ [] ∧ ∃ fields, r = escapeCsvField <$> fields) rows →
  csv_records (csvContent (h :: hs) (join (chr comma) <$> rows)) = (h :: hs) :: rows.
Proof.
  intros Hheaders Hrows. apply csv_records_export; [done|].
  eapply Forall_impl; [exact Hrows|]. intros r (Hne & fields & ->).
  split; [done|].
  split; apply Forall_fmap, Forall_forall; intros field _;
    apply escapeCsvField_closed; auto.
Qed.

(** Undoing the quoting rule gives back every text. *)
Lemma unescape_escape s : unescapeCsvField (escapeCsvField (VStr s)) = s.
Proof.
  destruct (escapeCsvField_cases (VStr s)) as [[Hp ->]|[_ ->]]; try done.
  - apply unescape_plain, Hp.
  - apply unescape_quoted.
Qed.

Lemma bind_nil {A B} (f : A → list B) (l : list A) :
  l ≫= f = [] ↔ Forall (λ x, f x = []) l.
Proof.
  induction l as [|x l IH]; csimpl; [done|].
  rewrite app_nil, IH. split.
  - intros [Hx Hl]. by constructor.
  - by inversion 1.
Qed.

Lemma length_bind_sum {A B} (f : A → list B) (l : list A) :
  length (l ≫= f) = sum_list (length ∘ f <$> l).
Proof.
  induction l as [|x l IH]; csimpl; [done|]. by rewrite length_app, IH.
Qed.

Lemma competitor_rows_of (analysis : ProductAnalysis.t) :
  Competitors.rows_of analysis
  = Competitors.row (ProductAnalysis.userProduct analysis)
      <$> default [] (ProductAnalysis.competitors analysis).
Proof.
  unfold Competitors.rows_of.
  destruct (ProductAnalysis.competitors analysis) as [[|c cs]|]; done.
Qed.

(** X17: the competitor report has one row for every competitor of every
    analysis, in the order of the analyses and of their competitors, each
    of seven fields like the header.  The download happens exactly when
    there is such a row, and the text downloaded, read back by the quoting
    rule, gives the header and these rows.  For data without any
    competitor there is an alert and no download, and for no data a
    warning.  Undoing the quoting rule on the first three fields of a row
    gives the name of the subject and the name and the URL of the
    competitor. *)
Theorem exportCompetitorsToCsv_rows (data : AnalysisResult) :
  let rows := data ≫= Competitors.rows_of in
  match Competitors.exportCompetitorsToCsv data with
  | Downloaded content =>
      rows ≠ [] ∧ csv_records content = Competitors.headers :: rows
  | Alerted _ => data ≠ [] ∧ Forall (λ a, competitorCount a = 0) data
  | Warned _ => data = []
  end
  ∧ rows
    = data ≫= (λ analysis,
        Competitors.row (ProductAnalysis.userProduct analysis)
          <$> default [] (ProductAnalysis.competitors analysis))
  ∧ length rows = sum_list (competitorCount <$> data)
  ∧ Forall (λ r, length r = length Competitors.headers) rows
  ∧ ∀ userProduct competitor,
      unescapeCsvField <$> take 3 (Competitors.row userProduct competitor)
      = [ UserProduct.productName userProduct;
          Competitor.productName competitor;
          Competitor.url competitor ].
Proof.
  intros rows.
  assert (rows
    = data ≫= (λ analysis,
        Competitors.row (ProductAnalysis.userProduct analysis)
          <$> default [] (ProductAnalysis.competitors analysis))) as Hrows.
  { unfold rows. clear. induction data as [|a data IH]; csimpl; [done|].
    by rewrite IH, competitor_rows_of. }
  assert (∀ a, length (Competitors.rows_of a) = competitorCount a) as Hcount.
  { intros a. rewrite competitor_rows_of, length_fmap. unfold competitorCount.
    by destruct (ProductAnalysis.competitors a). }
  split; [|split; [done|split; [|split]]].
  - unfold Competitors.exportCompetitorsToCsv.
    destruct data as [|a data]; [done|]. fold rows. cbv zeta.
    rewrite length_fmap. destruct (length rows =? 0) eqn:Hlen.
    + apply Nat.eqb_eq, nil_length_inv in Hlen. split; [done|].
      apply bind_nil in Hlen. eapply Forall_impl; [exact Hlen|].
      intros x Hx. by rewrite <- Hcount, Hx.
    + apply Nat.eqb_neq in Hlen. split; [by intros Heq; rewrite Heq in Hlen|].
      apply csv_records_report.
      * repeat (constructor; [reflexivity|]). constructor.
      * rewrite Hrows. apply Forall_forall. intros r Hr.
        apply list_elem_of_bind in Hr as (analysis & Hr & _).
        apply list_elem_of_fmap in Hr as (c & -> & _).
        split; [done|]. eexists [_; _; _; _; _; _; _]. reflexivity.
  - unfold rows. rewrite length_bind_sum. f_equal. apply list_fmap_ext.
    intros i a _. apply Hcount.
  - rewrite Hrows. apply Forall_forall. intros r Hr.
    apply list_elem_of_bind in Hr as (analysis & Hr & _).
    by apply list_elem_of_fmap in Hr as (c & -> & _).
  - intros userProduct competitor. unfold Competitors.row.
    cbn [take fmap list_fmap]. by rewrite !unescape_escape.
Qed.

Lemma length_history_rows analyzed source h :
  length (PriceHistory.history_rows analyzed source h) = history_length h.
Proof. destruct h; [apply length_fmap|done]. Qed.

Lemma length_history_rows_of analysis :
  length (PriceHistory.rows_of analysis) = pointCount analysis.
Proof.
  unfold PriceHistory.rows_of, pointCount. cbv zeta.
  rewrite length_app, length_history_rows. f_equal.
  destruct (ProductAnalysis.competitors analysis) as [cs|]; [|done].
  rewrite length_bind_sum. simpl. f_equal. apply list_fmap_ext.
  intros i c _. apply length_history_rows.
Qed.

Lemma history_row_shape analysis r :
  r ∈ PriceHistory.rows_of analysis →
  ∃ source point,
    r = PriceHistory.row
          (UserProduct.productName (ProductAnalysis.userProduct analysis))
          source point.
Proof.
  unfold PriceHistory.rows_of. cbv zeta.
  assert (∀ analyzed source h,
            r ∈ PriceHistory.history_rows analyzed source h →
            ∃ point, r = PriceHistory.row analyzed source point) as Hrows.
  { intros analyzed source [points|]; simpl; [|by intros ?%elem_of_nil].
    intros (point & -> & _)%list_elem_of_fmap. by exists point. }
  intros [Hr|Hr]%elem_of_app.
  - apply Hrows in Hr as [point ->]. by eexists _, _.
  - destruct (ProductAnalysis.competitors analysis) as [cs|];
      [|by apply elem_of_nil in Hr].
    apply list_elem_of_bind in Hr as (c & Hr & _).
    apply Hrows in Hr as [point ->]. by eexists _, _.
Qed.

(** X18: the price history report has one row for every price point of
    the subject and of the competitors of every analysis, each of four
    fields like the header and starting with the name of the subject.
    The download happens exactly when there is a price point, and the text
    downloaded, read back by the quoting rule, gives the header and these
    rows.  For data without any price point there is an alert and no
    download, and for no data a warning.  Undoing the quoting rule on the
    first three fields of a row gives the two names and the date. *)
Theorem exportPriceHistoryToCsv_rows (data : AnalysisResult) :
  let rows := data ≫= PriceHistory.rows_of in
  match PriceHistory.exportPriceHistoryToCsv data with
  | Downloaded content =>
      rows ≠ [] ∧ csv_records content = PriceHistory.headers :: rows
  | Alerted _ => data ≠ [] ∧ Forall (λ a, pointCount a = 0) data
  | Warned _ => data = []
  end
  ∧ length rows = sum_list (pointCount <$> data)
  ∧ Forall (λ r, length r = length PriceHistory.headers) rows
  ∧ (∀ analysis r,
       r ∈ PriceHistory.rows_of analysis →
       head r
       = Some (escapeCsvField
                 (VStr (UserProduct.productName
                          (ProductAnalysis.userProduct analysis)))))
  ∧ ∀ analyzed source point,
      unescapeCsvField <$> take 3 (PriceHistory.row analyzed source point)
      = [ analyzed; source; HistoricalPricePoint.date point ].
Proof.
  intros rows.
  assert (∀ r, r ∈ rows → ∃ analyzed source point,
             r = PriceHistory.row analyzed source point) as Hshape.
  { intros r (analysis & Hr & _)%list_elem_of_bind.
    apply history_row_shape in Hr as (source & point & ->). by eexists _, _, _. }
  split; [|split; [|split; [|split]]].
  - unfold PriceHistory.exportPriceHistoryToCsv.
    destruct data as [|a data]; [done|]. fold rows. cbv zeta.
    rewrite length_fmap. destruct (length rows =? 0) eqn:Hlen.
    + apply Nat.eqb_eq, nil_length_inv in Hlen. split; [done|].
      apply bind_nil in Hlen. eapply Forall_impl; [exact Hlen|].
      intros x Hx. by rewrite <- length_history_rows_of, Hx.
    + apply Nat.eqb_neq in Hlen. split; [by intros Heq; rewrite Heq in Hlen|].
      apply csv_records_report.
      * repeat (constructor; [reflexivity|]). constructor.
      * apply Forall_forall. intros r (analyzed & source & point & ->)%Hshape.
        split; [done|]. eexists [_; _; _; _]. reflexivity.
  - unfold rows. rewrite length_bind_sum. f_equal. apply list_fmap_ext.
    intros i a _. apply length_history_rows_of.
  - apply Forall_forall. by intros r (analyzed & source & point & ->)%Hshape.
  - by intros analysis r (source & point & ->)%history_row_shape.
  - intros analyzed source point. unfold PriceHistory.row.
    cbn [take fmap list_fmap]. by rewrite !unescape_escape.
Qed.

End ReportFacts.

(** ** The handlers of the form *)

Module FormFacts.
Import Js Shape FormHandlers TrimFacts.

Lemma snd_imap (f : nat → nat) (l : list string) :
  snd <$> imap (λ j x, (f j, x)) l = l.
Proof.
  revert f. induction l as [|x l IH]; intros f; [done|].
  simpl. f_equal. apply (IH (f ∘ S)).
Qed.

Lemma remove_from (k index : nat) (urls : list string) :
  snd <$> filter (λ entry, entry.1 ≠ k + index) (imap (λ j x, (k + j, x)) urls)
  = delete index urls.
Proof.
  revert k index. induction urls as [|u urls IH]; intros k index; [done|].
  rewrite imap_cons.
  rewrite (imap_ext _ (λ j x, (S k + j, x)) urls)
    by (intros; unfold compose; f_equal; lia).
  destruct index as [|index].
  - rewrite filter_cons_False by (simpl; lia).
    rewrite filter_all; [apply snd_imap|].
    apply Forall_forall. intros [j x] Hin.
    apply elem_of_lookup_imap in Hin as (i & y & [= -> ->] & _). simpl. lia.
  - rewrite filter_cons_True by (simpl; lia). simpl. f_equal.
    replace (k + S index) with (S k + index) by lia. apply IH.
Qed.

(** X19: [handleRemoveCompetitor] deletes the field at the index and no
    other: an index past the end changes nothing, an index in range makes
    the list one shorter, and removing the field that [handleAddCompetitor]
    has just added gives the list back. *)
Theorem handleRemoveCompetitor_deletes (index : nat) (competitorUrls : list string) :
  handleRemoveCompetitor index competitorUrls = delete index competitorUrls
  ∧ (length competitorUrls ≤ index →
     handleRemoveCompetitor index competitorUrls = competitorUrls)
  ∧ (index < length competitorUrls →
     S (length (handleRemoveCompetitor index competitorUrls))
     = length competitorUrls)
  ∧ handleRemoveCompetitor (length competitorUrls)
      (handleAddCompetitor competitorUrls) = competitorUrls.
Proof.
  assert (∀ i l, handleRemoveCompetitor i l = delete i l) as Hdelete.
  { intros i l. apply (remove_from 0 i l). }
  split; [done|]. rewrite !Hdelete. split; [|split].
  - intros Hle. revert index Hle.
    induction competitorUrls as [|u l IH]; intros [|i] Hle; simpl in *;
      try done; try lia.
    f_equal. apply IH. lia.
  - intros Hlt. rewrite length_delete; [lia|]. by apply lookup_lt_is_Some.
  - unfold handleAddCompetitor.
    induction competitorUrls as [|u l IH]; [done|]. simpl. by rewrite IH.
Qed.

(** The loop that pads the fields ends within two rounds. *)
Lemma pad_spec (combined : list string) :
  pad 2 combined
  = combined ++ replicate (2 - length combined) EmptyString.
Proof.
  destruct combined as [|a [|b combined]]; simpl; [done|done|].
  by rewrite app_nil_r.
Qed.

Lemma filter_filled_blanks n :
  filter (λ u, filled u = true) (replicate n EmptyString) = [].
Proof. induction n as [|n IH]; [done|]. simpl. by rewrite filter_cons_False. Qed.

Lemma mergeSuggestions_spec suggestions prev :
  let kept := filter (λ u, filled u = true) prev in
  let added := filter (λ s, s ∉ kept) suggestions in
  mergeSuggestions suggestions prev
  = kept ++ added ++ replicate (2 - length (kept ++ added)) EmptyString.
Proof.
  intros kept added. unfold mergeSuggestions. fold kept. fold added.
  by rewrite pad_spec, <- app_assoc.
Qed.

(** X20: the update of the competitor fields by the suggestions.  There
    are at least two fields afterwards.  The filled fields are kept, in
    their order, in front.  Every suggestion is among the fields, and none
    that was there already is added again.  Nothing else is added but
    empty fields.  When all suggestions are filled, the same suggestions
    once more change nothing. *)
Theorem mergeSuggestions_keeps_and_adds (suggestions prev : list string) :
  let merged := mergeSuggestions suggestions prev in
  let kept := filter (λ u, filled u = true) prev in
  2 ≤ length merged
  ∧ take (length kept) merged = kept
  ∧ (∀ s, s ∈ suggestions → s ∈ merged)
  ∧ (∀ s, s ∈ kept → s ∉ drop (length kept) merged)
  ∧ (∀ u, u ∈ merged → u ∈ kept ∨ u ∈ suggestions ∨ u = EmptyString)
  ∧ (Forall (λ s, filled s = true) suggestions →
     mergeSuggestions suggestions merged = merged).
Proof.
  intros merged kept.
  pose proof (mergeSuggestions_spec suggestions prev) as Hspec.
  cbv zeta in Hspec. fold kept merged in Hspec.
  set (added := filter (λ s, s ∉ kept) suggestions) in Hspec.
  assert (∀ s, s ∈ kept → filled s = true) as Hkept.
  { intros s Hs. unfold kept in Hs. by apply list_elem_of_filter in Hs as [? _]. }
  split; [|split; [|split; [|split; [|split]]]].
  - rewrite Hspec, !length_app, length_replicate. lia.
  - rewrite Hspec. by rewrite take_app_length.
  - intros s Hs. rewrite Hspec. destruct (decide (s ∈ kept)) as [Hin|Hout].
    + apply elem_of_app. by left.
    + apply elem_of_app. right. apply elem_of_app. left.
      by apply list_elem_of_filter.
  - intros s Hs. rewrite Hspec, drop_app_length.
    intros [Hin|Hin]%elem_of_app.
    + by apply list_elem_of_filter in Hin as [Hout _].
    + apply elem_of_replicate in Hin as [-> _]. by apply Hkept in Hs.
  - intros u. rewrite Hspec. intros [Hu|[Hu|Hu]%elem_of_app]%elem_of_app.
    + by left.
    + right. left. by apply list_elem_of_filter in Hu as [_ ?].
    + right. right. by apply elem_of_replicate in Hu as [-> _].
  - intros Hfilled.
    pose proof (mergeSuggestions_spec suggestions merged) as Hagain.
    cbv zeta in Hagain.
    assert (filter (λ u, filled u = true) merged = kept ++ added) as Hkept'.
    { rewrite Hspec, !filter_app, filter_filled_blanks, app_nil_r. f_equal.
      - apply filter_all, Forall_forall. intros s Hs. by apply Hkept.
      - apply filter_all, Forall_forall. intros s [_ Hs]%list_elem_of_filter.
        rewrite Forall_forall in Hfilled. by apply Hfilled. }
    rewrite Hkept' in Hagain.
    assert (filter (λ s, s ∉ kept ++ added) suggestions = []) as Hnone.
    { apply filter_none, Forall_forall. intros s Hs Hout. apply Hout.
      destruct (decide (s ∈ kept)) as [Hin|Hnot]; apply elem_of_app; [by left|].
      right. by apply list_elem_of_filter. }
    rewrite Hagain, Hnone, Hspec. rewrite app_nil_l, app_nil_r.
    by rewrite <- app_assoc.
Qed.

Lemma filled_spec u : filled u = true ↔ every is_white u = false.
Proof.
  unfold filled. rewrite negb_true_iff, IngestionFacts.is_empty_false.
  rewrite trim_blank. by destruct (every is_white u).
Qed.

(** X21: submitting the URL form.  A product URL of white space only is
    refused with a message and nothing is analyzed.  Any other is handed
    to the analysis as it was typed, with the competitor URLs that are not
    blank, in their order; and for that input [analyzeSingleProduct] does
    not throw its own error about a missing URL: it gives what the
    analysis of the product gives. *)
Theorem handleSubmitUrl_guards
    (performSingleAnalysis :
       nat → GeminiService.UserIdentifier → list string → result ProductAnalysis.t)
    (userProductUrl : string) (competitorUrls : list string) :
  match handleSubmitUrl userProductUrl competitorUrls with
  | Refused shown =>
      every is_white userProductUrl = true
      ∧ shown = "Please enter a valid URL for your product."
  | Analyze input =>
      ∃ validCompetitorUrls,
        input = App.InputUrl userProductUrl validCompetitorUrls
        ∧ every is_white userProductUrl = false
        ∧ validCompetitorUrls
          = filter (λ u, every is_white u = false) competitorUrls
        ∧ GeminiService.analyzeSingleProduct performSingleAnalysis
            userProductUrl validCompetitorUrls
          = performSingleAnalysis 0 (GeminiService.ByUrl userProductUrl)
              validCompetitorUrls
  end.
Proof.
  unfold handleSubmitUrl.
  destruct (is_empty (trim userProductUrl)) eqn:Hurl.
  - apply IngestionFacts.is_empty_true, trim_blank in Hurl. done.
  - assert (every is_white userProductUrl = false) as Hfilled.
    { apply filled_spec. unfold filled. by rewrite Hurl. }
    eexists. split; [done|]. split; [done|]. split.
    + apply list_filter_iff. intros u. apply filled_spec.
    + unfold GeminiService.analyzeSingleProduct.
      by destruct userProductUrl.
Qed.

(** X22: choosing a file and submitting.  After a file that [parseCsv]
    accepts, the state holds its products and its name and no error, and
    the submit hands exactly these products to the analysis.  After a file
    that [parseCsv] rejects or that cannot be read, the state holds the
    error and neither products nor name, whatever it held before, and the
    submit is refused.  Choosing no file changes nothing. *)
Theorem handleFileChange_then_submit (file : chosen) (state : CsvState) :
  let state' := handleFileChange file state in
  match file with
  | NoFile => state' = state
  | Unreadable _ =>
      state' = mkCsv [] EmptyString (Some "Error reading the file.")
      ∧ ∃ shown, handleSubmitCsv state' = Refused shown
  | Readable name text =>
      match InputForm.parseCsv text with
      | Ok products =>
          state' = mkCsv products name None
          ∧ handleSubmitCsv state' = Analyze (App.InputCsv products)
      | Throw message =>
          state' = mkCsv [] EmptyString (Some ("Parsing error: " +:+ message))
          ∧ ∃ shown, handleSubmitCsv state' = Refused shown
      end
  end.
Proof.
  intros state'. destruct file as [|name|name text]; [done|by eauto|].
  unfold state', handleFileChange.
  destruct (InputForm.parseCsv text) as [products|message] eqn:Hparse;
    [|by eauto].
  split; [done|]. unfold handleSubmitCsv. simpl.
  apply ProductFacts.parseCsv_Ok in Hparse as [Hlines Hall].
  apply Forall2_length in Hall. unfold Ingestion.data_rows in Hall.
  rewrite length_drop in Hall.
  destruct products; [simpl in Hall; lia|done].
Qed.

(** X23: whatever the form submits, [handleAnalysis] ends in success with
    at least one analysis, or in the error state with a message and
    without data; it never succeeds with nothing to show. *)
Theorem form_submission_never_empty
    (performSingleAnalysis :
       nat → GeminiService.UserIdentifier → list string → result ProductAnalysis.t)
    (predictPrice : PredictPayload.t → result number)
    (predictBatch : list PredictPayload.t → result (option (list value)))
    (input : App.Input) :
  (∃ url urls, handleSubmitUrl url urls = Analyze input)
  ∨ (∃ state, handleSubmitCsv state = Analyze input) →
  let state :=
    App.handleAnalysis performSingleAnalysis predictPrice predictBatch input in
  (App.status state = App.success
   ∧ ∃ a analyses, App.data state = Some (a :: analyses))
  ∨ (App.status state = App.error ∧ App.data state = None
     ∧ ∃ message, App.error_message state = Some message).
Proof.
  intros Hform state. unfold state, App.handleAnalysis.
  destruct Hform as [(url & urls & Hsubmit)|(form & Hsubmit)].
  - unfold handleSubmitUrl in Hsubmit.
    destruct (is_empty (trim url)); [done|]. injection Hsubmit as <-.
    destruct (GeminiService.analyzeSingleProduct _ _ _) as [a|e].
    + left. split; [done|]. by eexists _, _.
    + right. split; [done|]. split; [done|]. by eexists.
  - unfold handleSubmitCsv in Hsubmit.
    destruct (length (csvProducts form) =? 0) eqn:Hlen; [done|].
    apply Nat.eqb_neq in Hlen. injection Hsubmit as <-.
    rewrite BatchFacts.analyzeBatchProducts_outcomes. cbv zeta.
    destruct (length (Outcomes.successes _) =? 0) eqn:Hnone.
    + assert ((0 <? length (csvProducts form)) = true) as ->
        by (apply Nat.ltb_lt; lia).
      right. split; [done|]. split; [done|]. by eexists.
    + left. split; [done|]. simpl.
      rewrite RefinementFacts.refine_batch_refined.
      apply Nat.eqb_neq in Hnone.
      destruct (Outcomes.successes _) as [|a l]; [done|].
      rewrite imap_cons. by eexists _, _.
Qed.

Lemma form_submission_never_empty_witness :
  ∃ a analyses,
    App.data (App.handleAnalysis Sample.example_ai (λ _, Throw "Model not trained")
                Sample.no_batch (App.InputCsv Sample.example_products))
    = Some (a :: analyses).
Proof.
  destruct (form_submission_never_empty Sample.example_ai
              (λ _, Throw "Model not trained") Sample.no_batch
              (App.InputCsv Sample.example_products)) as [[_ H]|[H _]].
  - right. by exists (mkCsv Sample.example_products "products.csv" None).
  - exact H.
  - discriminate H.
Defined.

End FormFacts.

(** ** Suggested competitors *)

Module SuggestionFacts.
Import Js Shape GeminiAnalysis Suggestions FormHandlers TrimFacts FormFacts.

(** X24: suggestions never cost an entry.  Whatever [suggestCompetitors]
    answers, the filled competitor fields are, in their order, the first
    of the filled fields afterwards; the fields are left as they are, or
    there are at least two of them and the filled ones are in front.  For
    a product URL of white space only, and for no suggestion, the fields
    are left as they are. *)
Theorem triggerSuggestions_preserves_entries
    (suggestCompetitors : string → list string)
    (url : string) (competitorUrls : list string) :
  let updated := triggerSuggestions suggestCompetitors url competitorUrls in
  let kept := filter (λ u, filled u = true) competitorUrls in
  kept `prefix_of` filter (λ u, filled u = true) updated
  ∧ (updated = competitorUrls
     ∨ (2 ≤ length updated ∧ take (length kept) updated = kept))
  ∧ (every is_white url = true ∨ suggestCompetitors url = [] →
     updated = competitorUrls).
Proof.
  intros updated kept. unfold updated, triggerSuggestions.
  destruct (is_empty (trim url)) eqn:Hurl.
  { split; [done|]. split; [by left|done]. }
  destruct (0 <? length (suggestCompetitors url)) eqn:Hsome.
  2:{ split; [done|]. split; [by left|done]. }
  pose proof (mergeSuggestions_spec (suggestCompetitors url) competitorUrls)
    as Hspec.
  cbv zeta in Hspec. fold kept in Hspec.
  split; [|split].
  - rewrite Hspec, filter_app.
    rewrite (filter_all _ kept).
    + by apply prefix_app_r.
    + apply Forall_forall. intros u Hu. unfold kept in Hu.
      by apply list_elem_of_filter in Hu as [? _].
  - right. rewrite Hspec. split.
    + rewrite !length_app, length_replicate. lia.
    + by rewrite take_app_length.
  - intros [Hblank|Hnone].
    + apply trim_blank, IngestionFacts.is_empty_true in Hblank.
      congruence.
    + by rewrite Hnone in Hsome.
Qed.


End SuggestionFacts.

(** ** The columns of a row *)

Module ColumnFacts.
Import Js Shape InputForm Ingestion Cleanliness IngestionFacts TrimFacts.

(** Splitting undoes joining, for fields without the separator. *)
Lemma split_field sep field :
  every (λ c, negb (Ascii.eqb c sep)) field = true →
  split sep field = [field]
  ∧ ∀ rest, split sep (field +:+ chr sep +:+ rest) = field :: split sep rest.
Proof.
  induction field as [|c field IH]; cbn [every].
  - intros _. split; [done|]. intros rest. rewrite string_app_nil_l.
    unfold chr. rewrite string_app_cons, string_app_nil_l. simpl.
    by rewrite Ascii.eqb_refl.
  - intros [Hc Hfield]%andb_true_iff. apply negb_true_iff in Hc.
    destruct (IH Hfield) as [IH1 IH2]. split.
    + simpl. by rewrite Hc, IH1.
    + intros rest. rewrite string_app_cons. simpl. by rewrite Hc, IH2.
Qed.

Lemma split_join sep field fields :
  Forall (λ f, every (λ c, negb (Ascii.eqb c sep)) f = true) (field :: fields) →
  split sep (join (chr sep) (field :: fields)) = field :: fields.
Proof.
  revert field. induction fields as [|f fields IH]; intros field Hall.
  - inversion Hall; subst. simpl. by apply split_field.
  - inversion Hall as [|? ? Hfield Hrest]; subst.
    change (join (chr sep) (field :: f :: fields))
      with (field +:+ chr sep +:+ join (chr sep) (f :: fields)).
    destruct (split_field sep field Hfield) as [_ ->]. by rewrite IH.
Qed.

(** For a header without repeated names, a column reads the field paired
    with its name. *)
Lemma column_member header values col :
  length header = length values → NoDup header →
  (∀ v, (col, v) ∈ zip header values → column header values col = Some (trim v))
  ∧ (col ∉ header → column header values col = None).
Proof.
  revert values. induction header as [|h header IH]; intros [|v values]; try done.
  { intros _ _. split; [by intros v ?%elem_of_nil|done]. }
  intros [= Hlen] Hnodup. apply NoDup_cons in Hnodup as [Hh Hnodup].
  destruct (IH _ Hlen Hnodup) as [IH1 IH2].
  cbn [column tail head zip zip_with default]. split.
  - intros v0 [[= -> ->]|Hin]%elem_of_cons.
    + rewrite (IH2 Hh). by rewrite String.eqb_refl.
    + by rewrite (IH1 _ Hin).
  - intros [Hne Hout]%not_elem_of_cons. rewrite (IH2 Hout).
    destruct (String.eqb_spec h col); [congruence|done].
Qed.

Lemma column_permutation header values header' values' col :
  NoDup header → length header = length values →
  length header' = length values' →
  zip header values ≡ₚ zip header' values' →
  column header' values' col = column header values col.
Proof.
  intros Hnodup Hlen Hlen' Hperm.
  assert (header ≡ₚ header') as Hheaders.
  { rewrite <- (fst_zip header values), <- (fst_zip header' values') by lia.
    by apply fmap_Permutation. }
  assert (NoDup header') as Hnodup' by (by rewrite <- Hheaders).
  destruct (column_member header values col Hlen Hnodup) as [H1 H2].
  destruct (column_member header' values' col Hlen' Hnodup') as [H1' H2'].
  destruct (decide (col ∈ header)) as [Hin|Hout].
  - apply list_elem_of_lookup in Hin as [i Hi].
    destruct (lookup_lt_is_Some_2 values i) as [v Hv].
    { rewrite <- Hlen. by eapply lookup_lt_Some. }
    assert ((col, v) ∈ zip header values) as Hzip
      by (by eapply (elem_of_lookup_zip_with_2 pair)).
    rewrite (H1 _ Hzip). apply H1'. by rewrite <- Hperm.
  - rewrite (H2 Hout). apply H2'. by rewrite <- Hheaders.
Qed.

Lemma column_extra header values extra x col :
  length header = length values → col ≠ extra →
  column (header ++ [extra]) (values ++ [x]) col = column header values col.
Proof.
  revert values. induction header as [|h header IH]; intros [|v values]; try done.
  - intros _ Hne. simpl. destruct (String.eqb_spec extra col); [congruence|done].
  - intros [= Hlen] Hne. cbn [app column tail head default].
    by rewrite (IH _ Hlen Hne).
Qed.

(** Rows with as many fields as their headers, and with the same four
    columns, are parsed alike. *)
Lemma parseRow_columns header header' index values values' :
  length header = length values →
  length header' = length values' →
  (∀ col, col ∈ ["productName"; "currentPrice"; "userProductUrl"; "competitorUrls"] →
     column header' values' col = column header values col) →
  Forall comma_free (values ++ values') →
  values ≠ [] → values' ≠ [] →
  parseRow header' index (join (chr comma) values')
  = parseRow header index (join (chr comma) values).
Proof.
  intros Hlen Hlen' Hcolumns Hfree Hne Hne'.
  apply Forall_app in Hfree as [Hfree Hfree'].
  destruct values as [|v values]; [done|].
  destruct values' as [|v' values']; [done|].
  unfold parseRow. rewrite !split_join by done.
  rewrite <- Hlen, <- Hlen', !Nat.eqb_refl, !productData_column.
  cbn [throw_unless mbind result_bind].
  rewrite !Hcolumns; [done|..]; set_solver.
Qed.

(** X26: the order of the columns does not matter, and columns other than
    the four known ones are ignored.  For a header without repeated names
    and a row with as many fields, none with a comma in it, the row
    callback of [parseCsv] gives the same outcome when header and fields
    are rearranged together; and it gives the same outcome when a column
    of another name is added to the header with a field for it in the
    row. *)
Theorem parseRow_column_order :
  (∀ header values header' values' index,
     NoDup header → length header = length values →
     length header' = length values' →
     zip header values ≡ₚ zip header' values' →
     values ≠ [] → Forall comma_free values →
     parseRow header' index (join (chr comma) values')
     = parseRow header index (join (chr comma) values))
  ∧ (∀ header values extra x index,
       length header = length values → values ≠ [] →
       Forall comma_free (values ++ [x]) →
       extra ∉ ["productName"; "currentPrice"; "userProductUrl"; "competitorUrls"] →
       parseRow (header ++ [extra]) index (join (chr comma) (values ++ [x]))
       = parseRow header index (join (chr comma) values)).
Proof.
  split.
  - intros header values header' values' index Hnodup Hlen Hlen' Hperm Hne Hfree.
    assert (values ≡ₚ values') as Hvalues.
    { rewrite <- (snd_zip header values), <- (snd_zip header' values') by lia.
      by apply fmap_Permutation. }
    apply parseRow_columns; [done|done| |..].
    + intros col _. by apply column_permutation.
    + apply Forall_app. split; [done|]. by rewrite <- Hvalues.
    + done.
    + intros ->. apply Permutation_nil_r in Hvalues. done.
  - intros header values extra x index Hlen Hne Hfree Hextra.
    apply parseRow_columns; [done|rewrite !length_app; simpl; lia| |..].
    + intros col Hcol. apply column_extra; [done|]. intros ->. done.
    + apply Forall_app. split; [|done]. by apply Forall_app in Hfree as [? _].
    + done.
    + by destruct values.
Qed.

End ColumnFacts.

(** ** Predictions without an analysis *)

Module SurplusFacts.
Import Js Shape App Refinement RefinementFacts.

Lemma apply_predictions_completes preds i analyses :
  (apply_predictions preds i analyses).2 = Ok ()
  ↔ ∀ j p, preds !! j = Some p → Number_isFinite p = true →
           i + j < length analyses.
Proof.
  revert i analyses. induction preds as [|p preds IH]; intros i analyses.
  - simpl. split; [|done]. intros _ j p Hj. by rewrite lookup_nil in Hj.
  - cbn [apply_predictions]. destruct (Number_isFinite p) eqn:Hp.
    + destruct (analyses !! i) as [a|] eqn:Ha.
      * rewrite IH, length_insert. apply lookup_lt_Some in Ha. split.
        -- intros H [|j] q Hj Hq; [lia|]. specialize (H j q Hj Hq). lia.
        -- intros H j q Hj Hq. specialize (H (S j) q Hj Hq). lia.
      * apply lookup_ge_None in Ha. simpl. split; [done|].
        intros H. specialize (H 0 p eq_refl Hp). lia.
    + rewrite IH. split.
      * intros H [|j] q Hj Hq.
        -- injection Hj as <-. congruence.
        -- specialize (H j q Hj Hq). lia.
      * intros H j q Hj Hq. specialize (H (S j) q Hj Hq). lia.
Qed.

Lemma apply_predictions_throws preds i analyses e :
  (apply_predictions preds i analyses).2 = Throw e →
  e = "TypeError: Cannot set properties of undefined"
  ∧ ∃ j p, preds !! j = Some p ∧ Number_isFinite p = true
           ∧ length analyses ≤ i + j.
Proof.
  revert i analyses. induction preds as [|p preds IH]; intros i analyses; [done|].
  cbn [apply_predictions]. destruct (Number_isFinite p) eqn:Hp.
  - destruct (analyses !! i) as [a|] eqn:Ha.
    + intros [-> (j & q & Hj & Hq & Hlen)]%IH. split; [done|].
      rewrite length_insert in Hlen. exists (S j), q.
      split; [done|]. split; [done|]. lia.
    + intros [= <-]. split; [done|]. apply lookup_ge_None in Ha.
      exists 0, p. split; [done|]. split; [done|]. lia.
  - intros [-> (j & q & Hj & Hq & Hlen)]%IH. split; [done|].
    exists (S j), q. split; [done|]. split; [done|]. lia.
Qed.

(** X27: predictions without an analysis.  The loop over the predictions
    leaves as many analyses as there were, each refined by the prediction
    at its position, whether it completes or not.  It completes exactly
    when every finite numeric prediction has an analysis at its position;
    otherwise it throws a type error at a finite prediction past the last
    analysis, and what it wrote before stays written.  Predictions that
    are no finite numbers are passed over wherever they are, and analyses
    without a prediction are left as they are. *)
Theorem apply_predictions_surplus (preds : list value)
    (analyses : list ProductAnalysis.t) :
  let after := (apply_predictions preds 0 analyses).1 in
  let completed := (apply_predictions preds 0 analyses).2 in
  after = imap (λ j a, refined a (preds !! j)) analyses
  ∧ length after = length analyses
  ∧ (completed = Ok ()
     ↔ ∀ j p, preds !! j = Some p → Number_isFinite p = true →
              j < length analyses)
  ∧ (∀ e, completed = Throw e →
       e = "TypeError: Cannot set properties of undefined"
       ∧ ∃ j p, preds !! j = Some p ∧ Number_isFinite p = true
                ∧ length analyses ≤ j).
Proof.
  intros after completed.
  assert (after = imap (λ j a, refined a (preds !! j)) analyses) as Hafter
    by apply apply_predictions_imap.
  split; [done|]. split; [by rewrite Hafter, length_imap|]. split.
  - apply (apply_predictions_completes preds 0 analyses).
  - intros e He. by apply (apply_predictions_throws preds 0 analyses).
Qed.

End SurplusFacts.

(** ** The points of the chart *)

Module ChartFacts.
Import Js Chart ChartNotions.

Lemma has_spec date (m : PricePoints) : has date m = true ↔ date ∈ m.*1.
Proof.
  unfold has. induction m as [|[k p] m IH]; simpl.
  - split; [done|]. by intros ?%elem_of_nil.
  - rewrite orb_true_iff, IH, elem_of_cons, String.eqb_eq.
    split; (intros [H|H]; [left|right]); done.
Qed.

Lemma has_false date (m : PricePoints) : has date m = false ↔ date ∉ m.*1.
Proof.
  rewrite <- has_spec. by destruct (has date m).
Qed.

Lemma record_keys name (m : PricePoints) point :
  (record name m point).*1
  = if has (HistoricalPricePoint.date point) m then m.*1
    else m.*1 ++ [HistoricalPricePoint.date point].
Proof.
  unfold record. cbv zeta. rewrite <- list_fmap_compose.
  set (m' := if has _ m then m else _).
  assert (m'.*1 = if has (HistoricalPricePoint.date point) m then m.*1
                  else m.*1 ++ [HistoricalPricePoint.date point]) as <-.
  { unfold m'. destruct (has _ m); [done|]. by rewrite fmap_app. }
  apply list_fmap_ext. intros i [k p] _. simpl. by destruct (String.eqb k _).
Qed.

(** The keys of the map stay distinct, and grow by the dates recorded. *)
Lemma record_dates name (m : PricePoints) point :
  NoDup m.*1 →
  NoDup (record name m point).*1
  ∧ ∀ d, d ∈ (record name m point).*1
         ↔ d ∈ m.*1 ∨ d = HistoricalPricePoint.date point.
Proof.
  intros Hnodup. rewrite record_keys.
  destruct (has (HistoricalPricePoint.date point) m) eqn:Hhas.
  - apply has_spec in Hhas. split; [done|]. intros d. split; [by left|].
    by intros [?| ->].
  - apply has_false in Hhas. split.
    + apply NoDup_app. split; [done|]. split; [|apply NoDup_singleton].
      intros d Hd ->%list_elem_of_singleton. done.
    + intros d. rewrite elem_of_app, list_elem_of_singleton. done.
Qed.

Lemma record_all_dates name points (m : PricePoints) :
  NoDup m.*1 →
  NoDup (foldl (record name) m points).*1
  ∧ ∀ d, d ∈ (foldl (record name) m points).*1
         ↔ d ∈ m.*1 ∨ d ∈ HistoricalPricePoint.date <$> points.
Proof.
  revert m. induction points as [|point points IH]; intros m Hnodup; simpl.
  - split; [done|]. intros d. split; [by left|]. by intros [?|?%elem_of_nil].
  - destruct (record_dates name m point Hnodup) as [Hnodup' Hdates].
    destruct (IH _ Hnodup') as [IH1 IH2]. split; [done|].
    intros d. rewrite IH2, Hdates, elem_of_cons. tauto.
Qed.

Lemma products_dates products (m : PricePoints) :
  NoDup m.*1 →
  let m' := foldl (λ m product, foldl (record product.1) m (default [] product.2))
                  m products in
  NoDup m'.*1 ∧ ∀ d, d ∈ m'.*1 ↔ d ∈ m.*1 ∨ d ∈ dates_of products.
Proof.
  revert m. induction products as [|[name h] products IH]; intros m Hnodup; simpl.
  - split; [done|]. intros d. split; [by left|]. by intros [?|?%elem_of_nil].
  - destruct (record_all_dates name (default [] h) m Hnodup) as [Hnodup' Hdates].
    destruct (IH _ Hnodup') as [IH1 IH2]. split; [done|].
    intros d. rewrite IH2, Hdates. unfold dates_of. csimpl.
    rewrite elem_of_app. tauto.
Qed.

Lemma record_dated name (m : PricePoints) point :
  name ≠ "date" → dated m → dated (record name m point).
Proof.
  intros Hname Hdated k p. unfold record. cbv zeta.
  intros ([k' p'] & Heq & Hin)%list_elem_of_fmap.
  assert (p' !! "date" = Some (VStr k')) as Hp'.
  { destruct (has _ m); [by apply Hdated|].
    apply elem_of_app in Hin as [Hin|[= -> ->]%list_elem_of_singleton];
      [by apply Hdated|].
    apply lookup_singleton_eq. }
  simpl in Heq. destruct (String.eqb k' _); injection Heq as -> ->; [|done].
  unfold assign. destruct (String.eqb name "__proto__"); [done|].
  by rewrite lookup_insert_ne.
Qed.

Lemma products_dated products (m : PricePoints) :
  Forall (λ product, product.1 ≠ "date") products → dated m →
  dated (foldl (λ m product, foldl (record product.1) m (default [] product.2))
               m products).
Proof.
  revert m. induction products as [|[name h] products IH]; intros m Hnames Hm;
    [done|].
  inversion Hnames as [|? ? Hname Hrest]; subst. simpl. apply IH; [done|].
  clear IH Hnames Hrest. simpl in Hname.
  revert m Hm. induction (default [] h) as [|point points IH]; intros m Hm; [done|].
  simpl. apply IH. by apply record_dated.
Qed.

Lemma allPricePoints_dates userProduct competitors :
  let m := allPricePoints userProduct competitors in
  NoDup m.*1 ∧ ∀ d, d ∈ m.*1 ↔ d ∈ dates_of (allProducts userProduct competitors).
Proof.
  intros m.
  destruct (products_dates (allProducts userProduct competitors) [])
    as [Hnodup Hdates]; [constructor|].
  split; [done|]. intros d. unfold m, allPricePoints. rewrite Hdates.
  split; [by intros [?%elem_of_nil|?]|by right].
Qed.

(** X28: the chart has one point for every distinct date among the price
    points of the product and of its competitors, for any sorting that
    returns the points it is given in some order.  So the chart has no
    point exactly when there is no price point, which is when the
    component shows that there is no data.  When no competitor is named
    [date], the [date] of every point is one of the dates, and every date
    is the [date] of a point. *)
Theorem processDataForChart_points
    (sort : list ChartDataPoint → list ChartDataPoint)
    (userProduct : UserProduct.t) (competitors : list Competitor.t) :
  (∀ points, sort points ≡ₚ points) →
  let chart := processDataForChart sort userProduct competitors in
  let dates := dates_of (allProducts userProduct competitors) in
  (chart = [] ↔ dates = [])
  ∧ length chart = length (remove_dups dates)
  ∧ (Forall (λ c, Competitor.productName c ≠ "date") competitors →
     (∀ p, p ∈ chart → ∃ d, d ∈ dates ∧ p !! "date" = Some (VStr d))
     ∧ ∀ d, d ∈ dates → ∃ p, p ∈ chart ∧ p !! "date" = Some (VStr d)).
Proof.
  intros Hsort chart dates.
  destruct (allPricePoints_dates userProduct competitors) as [Hnodup Hdates].
  cbv zeta in Hnodup, Hdates. fold dates in Hdates.
  set (m := allPricePoints userProduct competitors) in *.
  assert (chart ≡ₚ m.*2) as Hchart by apply Hsort.
  assert (length chart = length m.*1) as Hlength.
  { by rewrite Hchart, !length_fmap. }
  assert (m.*1 ≡ₚ remove_dups dates) as Hkeys.
  { apply NoDup_Permutation; [done|apply NoDup_remove_dups|].
    intros d. by rewrite Hdates, elem_of_remove_dups. }
  split; [|split].
  - split.
    + intros Hnil. rewrite Hnil in Hlength. simpl in Hlength.
      symmetry in Hlength. apply nil_length_inv in Hlength.
      destruct dates as [|d dates']; [done|].
      assert (d ∈ m.*1) as Hd by (apply Hdates; by left).
      rewrite Hlength in Hd. by apply elem_of_nil in Hd.
    + intros Hnil. apply nil_length_inv. rewrite Hlength, Hkeys, Hnil. done.
  - by rewrite Hlength, Hkeys.
  - intros Hnames.
    assert (dated m) as Hdated.
    { apply products_dated; [|by intros k p ?%elem_of_nil].
      constructor; [done|]. apply Forall_fmap.
      eapply Forall_impl; [exact Hnames|]. done. }
    split.
    + intros p Hp. rewrite Hchart in Hp.
      apply list_elem_of_fmap in Hp as ([k p'] & -> & Hin).
      exists k. split; [|by apply Hdated].
      apply Hdates, list_elem_of_fmap. by exists (k, p').
    + intros d Hd. apply Hdates in Hd.
      apply list_elem_of_fmap in Hd as ([k p] & -> & Hin).
      exists p. split; [|by apply Hdated].
      rewrite Hchart. apply list_elem_of_fmap. by exists (k, p).
Qed.

Lemma processDataForChart_points_witness :
  length (processDataForChart id Answers.charted_product
            [Answers.charted_competitor])
  = 2.
Proof.
  destruct (processDataForChart_points id Answers.charted_product
              [Answers.charted_competitor] ltac:(done)) as (_ & H & _).
  exact H.
Defined.

End ChartFacts.

(** ** The models at work *)

Module Examples.
Import Js Sample.

Example Number_of_string_examples :
  Number_of_string <$> [ "123"; " 12 "; "-4.5"; "1e3"; "0x1F"; ".5"; "5.";
                         "abc"; "1,000"; "12px"; "Infinity"; "1e400";
                         "-1e-400"; "9007199254740993" ]
  = [ Fin (inject_Z 123); Fin (inject_Z 12); Fin (Qmake (-9) 2);
      Fin (inject_Z 1000); Fin (inject_Z 31); Fin (Qmake 1 2); Fin (inject_Z 5);
      NaN; NaN; NaN; PosInf; PosInf; Fin (inject_Z 0);
      Fin (inject_Z 9007199254740992) ].
Proof. by vm_compute. Qed.

Example one_tenth_is_rounded :
  Number_of_string "0.1" = Fin (Qmake 3602879701896397 36028797018963968).
Proof. by vm_compute. Qed.

Example number_to_string_examples :
  (λ s, number_to_string (Number_of_string s))
    <$> [ "450.70"; "0.1"; "1e21"; "123456789012345680000"; "0.000001";
          "1e-7"; "5e-324"; "0.30000000000000004"; "-0"; "1e400"; "x" ]
  = [ "450.7"; "0.1"; "1e+21"; "123456789012345680000"; "0.000001";
      "1e-7"; "5e-324"; "0.30000000000000004"; "0"; "Infinity"; "NaN" ].
Proof. by vm_compute. Qed.

Example Math_round_examples :
  Math_round <$> [ Fin (Qmake 5 2); Fin (Qmake (-5) 2); Fin (Qmake 49 100);
                   Fin (Qmake (-7) 10); NaN ]
  = [ Fin (inject_Z 3); Fin (inject_Z (-2)); Fin (inject_Z 0);
      Fin (inject_Z (-1)); NaN ].
Proof. by vm_compute. Qed.

Example split_lines_example :
  split_lines ("a" +:+ chr creturn +:+ chr newline +:+ "b" +:+ chr newline
               +:+ chr newline +:+ "c" +:+ chr creturn +:+ "d")
  = [ "a"; "b"; EmptyString; "c" +:+ chr creturn +:+ "d" ].
Proof. by vm_compute. Qed.

Example inferCategory_examples :
  MlMapper.inferCategory <$> [ "Nike Running SHOE"; "Smartphone case";
                               "Cotton T-Shirt"; "Desk lamp" ]
  = [ "footwear"; "electronics"; "apparel"; "general" ].
Proof. by vm_compute. Qed.

Example parseCsv_accepts :
  InputForm.parseCsv
    ("productName, currentPrice ,competitorUrls" +:+ chr creturn +:+ chr newline
     +:+ " Lamp , 12.50 , https://a.example ; ;https://b.example"
     +:+ chr newline +:+ chr newline
     +:+ "Desk,1e2," +:+ chr newline)
  = Ok [ CsvProduct.mk "Lamp" (Fin (Qmake 25 2)) EmptyString
           ["https://a.example"; "https://b.example"];
         CsvProduct.mk "Desk" (Fin (inject_Z 100)) EmptyString [] ].
Proof. by vm_compute. Qed.

Example parseCsv_rejects_negative :
  InputForm.parseCsv
    ("productName,currentPrice" +:+ chr newline +:+ "Lamp,10" +:+ chr newline
     +:+ "Desk,-3")
  = Throw (InputForm.negative_price_message 3 "-3").
Proof. by vm_compute. Qed.

Example parseCsv_rejects_units :
  InputForm.parseCsv
    ("productName,currentPrice" +:+ chr newline +:+ "Lamp,10 INR")
  = Throw (InputForm.not_a_number_message 2 "10 INR").
Proof. by vm_compute. Qed.

Example exportToCsv_example :
  CsvExport.exportToCsv [example_one]
  = Some ("Product Name,Current Price,Suggested Price,Market Summary,"
          +:+ "Historical Price Analysis,Reasoning,Competitor 1 Name,"
          +:+ "Competitor 1 Price,Competitor 1 Stock Status,"
          +:+ "Competitor 1 Price Trend"
          +:+ chr newline
          +:+ "Lamp,100,95,summary,history,reasoning,A,90,In Stock,stable").
Proof. by vm_compute. Qed.

Example exportToCsv_nothing : CsvExport.exportToCsv [] = None.
Proof. reflexivity. Qed.

End Examples.
